(** * SecureWipe-Cpp: overwrite engine and directory sweep

    A shallow embedding of [src/secure_wipe.cpp] (namespace [securewipe])
    together with the part of the operating system it talks to:
    [std::filesystem], [std::ofstream], [std::random_device] and the
    process environment.

    The program is stateful and fallible, so every operation takes the
    world [state] explicitly and returns the new state together with the
    list of [event]s it produced.  The chunk loop of [wipe_file] may run
    forever, so it is driven by a fuel argument; [None] stands for a run
    that yields no result.

    What is assumed of the platform:
    - a path names a place in the file system: the directory part of a
      path is not resolved any further, a symbolic link matters only as
      the last component ([status] against [symlink_status]);
    - whether a system call fails on a path is fixed for the run
      ([e_fault]); a write reaches the file or fails as a whole;
    - the recursive directory iterator reports what is in the tree when it
      is created; the entries removed under it by the second pass are
      entries it has reported before.  An iterator that fails becomes the
      end iterator, so the test [if (ec) continue] at the head of the
      three loops never fires and is left out;
    - the block buffer can be allocated;
    - the file counters are [std::uint64_t] and wrap ([incr64]); the pass
      counter is an [int], see [pass_loop]. *)

From Stdlib Require Import List String Ascii Strings.Byte Bool Arith NArith ZArith Lia.
From Stdlib Require Import DecimalString.
Import ListNotations.

Local Open Scope list_scope.

(** ** Paths

    A [std::filesystem::path] is modelled by the sequence of file names
    that leads from the root directory to the entry; the root directory
    itself is the empty sequence.  [operator==] on paths compares these
    sequences. *)

Definition path := list string.

Definition path_eqb (p q : path) : bool :=
  if list_eq_dec string_dec p q then true else false.

(** [p.string()] *)
Definition path_string (p : path) : string :=
  match p with
  | [] => "/"%string
  | _ => String.concat "" (map (fun c => String.append "/" c) p)
  end.

(** [strip_prefix d p] is [Some rest] when [p = d ++ rest]. *)
Fixpoint strip_prefix (d p : path) : option path :=
  match d, p with
  | [], _ => Some p
  | c :: d', c' :: p' => if string_dec c c' then strip_prefix d' p' else None
  | _ :: _, [] => None
  end.

(** ** The file system

    Entries are kept in an association list; its order is the order in
    which a directory iterator reports them. *)

Inductive node :=
| File (data : list byte)
| Dir (readable : bool)
| Link (target : path).

Definition fs_table := list (path * node).

Fixpoint lookup (fs : fs_table) (p : path) : option node :=
  match fs with
  | [] => None
  | (q, n) :: fs' => if path_eqb q p then Some n else lookup fs' p
  end.

Definition delete (fs : fs_table) (p : path) : fs_table :=
  filter (fun e => negb (path_eqb (fst e) p)) fs.

Definition update (fs : fs_table) (p : path) (n : node) : fs_table :=
  map (fun e => if path_eqb (fst e) p then (fst e, n) else e) fs.

(** Does the directory [p] still hold an entry? *)
Definition has_children (fs : fs_table) (p : path) : bool :=
  existsb (fun e => match strip_prefix p (fst e) with
                    | Some (_ :: _) => true
                    | _ => false
                    end) fs.

(** [overwrite old off new]: the bytes of [old] from offset [off] on are
    replaced by [new] (the file grows if [new] reaches past its end). *)
Definition overwrite (old : list byte) (off : nat) (new : list byte) : list byte :=
  firstn off old ++ new ++ skipn (off + List.length new) old.

(** ** The environment

    What the program cannot decide itself: which system calls fail (and
    with which message), how paths are made canonical, the value of
    [HOME], and the entropy source. *)

Inductive fsop := OpStat | OpFileSize | OpOpen | OpWrite | OpFlush | OpRemove.

Record env := mkEnv {
  e_fault : fsop -> path -> option string;
  (** [fs::weakly_canonical(p, ec)]; [None] when [ec] is set *)
  e_weakly_canonical : path -> option path;
  (** [fs::absolute(p, ec)]; [None] when [ec] is set *)
  e_absolute : path -> option path;
  (** [std::getenv("HOME")] *)
  e_home : option path;
  (** successive values of [std::random_device{}()] *)
  e_seed : nat -> N;
  (** [e_draw s k]: the [k]-th value of [dist(rng)] for an engine seeded with [s] *)
  e_draw : N -> nat -> byte
}.

Record state := mkState {
  st_fs : fs_table;
  (** how many values were read from the random device so far *)
  st_entropy : nat
}.

Inductive file_type := ft_none | ft_not_found | ft_regular | ft_directory | ft_symlink.

Definition error_code := option string.

Definition is_set (ec : error_code) : bool :=
  match ec with Some _ => true | None => false end.

Definition ENOENT : string := "No such file or directory".
Definition ELOOP : string := "Too many levels of symbolic links".
Definition ENOTEMPTY : string := "Directory not empty".
Definition EISDIR : string := "Is a directory".
Definition EBADF : string := "Bad file descriptor".

(** The number of symbolic links the kernel follows before it gives up. *)
Definition symloop_max : nat := 40.

(** ** The program's data *)

Inductive Pattern := Zeros | Random.

Record WipeOptions := mkOptions {
  passes : Z;
  pattern : Pattern;
  block_size : N
}.

Record WipeResult := mkResult {
  ok : bool;
  message : string
}.

(** The largest value of an [int]. *)
Definition INT_MAX : Z := 2147483647.

Definition default_options : WipeOptions :=
  {| passes := 1; pattern := Zeros; block_size := N.shiftl 1 20 |}.

(** What the outside world can observe of a run, in order. *)
Inductive event :=
| EvOpen (p : path)
| EvWrite (p : path) (off : N) (data : list byte)
| EvFlush (p : path)
| EvRemove (p : path)
| EvTraverse (d : path)
| EvStdout (line : string)
| EvStderr (line : string)
| EvWipeFile (p : path) (res : WipeResult).

(** [std::to_string] on an unsigned integer *)
Definition to_string (n : N) : string := NilEmpty.string_of_uint (N.to_uint n).

(** [++x] on a [std::uint64_t] *)
Definition incr64 (x : N) : N := ((x + 1) mod 2 ^ 64)%N.

Section Program.

Variable E : env.

(** ** [std::filesystem] *)

Definition fs_symlink_status (st : state) (p : path) : file_type * error_code :=
  match e_fault E OpStat p with
  | Some e => (ft_none, Some e)
  | None =>
      match lookup (st_fs st) p with
      | None => (ft_not_found, Some ENOENT)
      | Some (File _) => (ft_regular, None)
      | Some (Dir _) => (ft_directory, None)
      | Some (Link _) => (ft_symlink, None)
      end
  end.

(** Follow the symbolic links at [p] to the entry they lead to:
    [inl e] is an error, [inr None] a missing entry. *)
Fixpoint follow (hops : nat) (fs : fs_table) (p : path) : string + option (path * node) :=
  match e_fault E OpStat p with
  | Some e => inl e
  | None =>
      match lookup fs p with
      | None => inr None
      | Some (Link t) =>
          match hops with
          | O => inl ELOOP
          | S h => follow h fs t
          end
      | Some n => inr (Some (p, n))
      end
  end.

Definition fs_status (st : state) (p : path) : file_type * error_code :=
  match follow symloop_max (st_fs st) p with
  | inl e => (ft_none, Some e)
  | inr None => (ft_not_found, Some ENOENT)
  | inr (Some (_, File _)) => (ft_regular, None)
  | inr (Some (_, Dir _)) => (ft_directory, None)
  | inr (Some (_, Link _)) => (ft_none, Some ELOOP)
  end.

(** [fs::exists(p, ec)] clears [ec] when the status is known. *)
Definition fs_exists (st : state) (p : path) : bool * error_code :=
  match fs_status st p with
  | (ft_none, ec) => (false, ec)
  | (ft_not_found, _) => (false, None)
  | (_, _) => (true, None)
  end.

Definition fs_is_regular_file (st : state) (p : path) : bool * error_code :=
  match fs_status st p with
  | (ft_regular, ec) => (true, ec)
  | (_, ec) => (false, ec)
  end.

Definition fs_is_directory (st : state) (p : path) : bool * error_code :=
  match fs_status st p with
  | (ft_directory, ec) => (true, ec)
  | (_, ec) => (false, ec)
  end.

Definition fs_is_symlink (st : state) (p : path) : bool * error_code :=
  match fs_symlink_status st p with
  | (ft_symlink, ec) => (true, ec)
  | (_, ec) => (false, ec)
  end.

(** [fs::file_size(p, ec)] returns [static_cast<uintmax_t>(-1)] on error. *)
Definition fs_file_size (st : state) (p : path) : N * error_code :=
  match e_fault E OpFileSize p with
  | Some e => (N.ones 64, Some e)
  | None =>
      match follow symloop_max (st_fs st) p with
      | inl e => (N.ones 64, Some e)
      | inr None => (N.ones 64, Some ENOENT)
      | inr (Some (_, File data)) => (N.of_nat (List.length data), None)
      | inr (Some (_, _)) => (N.ones 64, Some EISDIR)
      end
  end.

(** [fs::remove(p, ec)] does not follow symbolic links; a directory is
    removed only when it is empty; removing a missing entry is no error
    and returns [false]. *)
Definition fs_remove (st : state) (p : path) : bool * error_code * state :=
  match e_fault E OpRemove p with
  | Some e => (false, Some e, st)
  | None =>
      match lookup (st_fs st) p with
      | None => (false, None, st)
      | Some (Dir _) =>
          if has_children (st_fs st) p then (false, Some ENOTEMPTY, st)
          else (true, None, {| st_fs := delete (st_fs st) p; st_entropy := st_entropy st |})
      | Some _ =>
          (true, None, {| st_fs := delete (st_fs st) p; st_entropy := st_entropy st |})
      end
  end.

(** Is [rest], below the readable directory [cur], reported by a recursive
    iteration that starts at [cur]?  The iteration descends into readable
    directories only, never through a symbolic link
    ([follow_directory_symlink] is not set) and never into a directory it
    may not read ([skip_permission_denied]). *)
Fixpoint reachable (fs : fs_table) (cur rest : path) : bool :=
  match rest with
  | [] => false
  | c :: rest' =>
      match rest' with
      | [] => true
      | _ :: _ =>
          match lookup fs (cur ++ [c]) with
          | Some (Dir true) => reachable fs (cur ++ [c]) rest'
          | _ => false
          end
      end
  end.

Definition below (fs : fs_table) (base p : path) : bool :=
  match strip_prefix base p with
  | Some rest => reachable fs base rest
  | None => false
  end.

(** The entries a [fs::recursive_directory_iterator(d,
    skip_permission_denied, ec)] reports, in order. *)
Definition recursive_directory_iterator (st : state) (d : path) : list path :=
  match follow symloop_max (st_fs st) d with
  | inr (Some (base, Dir true)) =>
      map fst (filter (fun e => below (st_fs st) base (fst e)) (st_fs st))
  | _ => []
  end.

(** ** [std::ofstream] *)

(** [std::ofstream ofs(path, binary | in | out)]: the file must exist, it
    is not truncated.  The result is the entry the stream writes to. *)
Definition ofstream_open (st : state) (p : path) : string + path :=
  match e_fault E OpOpen p with
  | Some e => inl e
  | None =>
      match follow symloop_max (st_fs st) p with
      | inl e => inl e
      | inr None => inl ENOENT
      | inr (Some (f, File _)) => inr f
      | inr (Some (_, _)) => inl EISDIR
      end
  end.

(** [ofs.write(data, n)] at offset [off]; writing nothing cannot fail. *)
Definition ofstream_write (st : state) (f : path) (off : N) (data : list byte)
  : string + state :=
  match data with
  | [] => inr st
  | _ :: _ =>
      match e_fault E OpWrite f with
      | Some e => inl e
      | None =>
          match lookup (st_fs st) f with
          | Some (File old) =>
              inr {| st_fs := update (st_fs st) f (File (overwrite old (N.to_nat off) data));
                     st_entropy := st_entropy st |}
          | _ => inl EBADF
          end
      end
  end.

(** [ofs.flush(); !ofs] *)
Definition ofstream_flush_fails (f : path) : bool :=
  is_set (e_fault E OpFlush f).

(** ** [securewipe] *)

(** [errstr(prefix)], with the message of [errno] passed in. *)
Definition errstr (prefix : string) (strerror : string) : string :=
  String.append prefix (String.append ": " strerror).

Definition flush_to_disk (f : path) : bool :=
  if ofstream_flush_fails f then false else true.

(** The body of the chunk loop up to the write: fill the first [chunk]
    bytes of the buffer. *)
Definition fill (opt : WipeOptions) (seed : N) (drawn : nat) (buf : list byte)
  (chunk : nat) : list byte * nat :=
  match pattern opt with
  | Zeros => (repeat x00 chunk ++ skipn chunk buf, drawn)
  | Random => (map (e_draw E seed) (seq drawn chunk) ++ skipn chunk buf, (drawn + chunk)%nat)
  end.

Inductive loop_exit := LoopDone | LoopWriteFailed (strerror : string).

(** [while (remaining > 0) { ... }] of one pass.  [buf] is the block
    buffer, [drawn] the number of values taken from the generator. *)
Fixpoint write_loop (fuel : nat) (opt : WipeOptions) (seed : N) (p f : path)
  (remaining off : N) (buf : list byte) (drawn : nat) (st : state)
  : option (loop_exit * list byte * nat * state * list event) :=
  match fuel with
  | O => None
  | S fuel' =>
      if (0 <? remaining)%N then
        let chunk := N.min remaining (N.of_nat (List.length buf)) in
        let '(buf1, drawn1) := fill opt seed drawn buf (N.to_nat chunk) in
        let data := firstn (N.to_nat chunk) buf1 in
        match ofstream_write st f off data with
        | inl e => Some (LoopWriteFailed e, buf1, drawn1, st, [])
        | inr st1 =>
            match write_loop fuel' opt seed p f (remaining - chunk) (off + chunk)
                    buf1 drawn1 st1 with
            | None => None
            | Some (x, b, d, s, tr) => Some (x, b, d, s, EvWrite p off data :: tr)
            end
        end
      else Some (LoopDone, buf, drawn, st, [])
  end.

Inductive pass_exit := PassesDone | PassFailed (msg : string).

(** [for (int pass = 1; pass <= opt.passes; ++pass) { ... }], with [n]
    the number of passes still to run.  The loop is left by the [++pass]
    that takes [pass] past [opt.passes]; when [opt.passes] is [INT_MAX]
    that increment overflows and the loop has no defined exit. *)
Fixpoint pass_loop (fuel : nat) (n : nat) (opt : WipeOptions) (seed : N) (p : path)
  (file_size : N) (buf : list byte) (drawn : nat) (st : state)
  : option (pass_exit * state * list event) :=
  match n with
  | O => if (INT_MAX <=? passes opt)%Z then None else Some (PassesDone, st, [])
  | S n' =>
      match ofstream_open st p with
      | inl e => Some (PassFailed (errstr "Failed to open file for overwrite" e), st, [])
      | inr f =>
          match write_loop fuel opt seed p f file_size 0 buf drawn st with
          | None => None
          | Some (LoopWriteFailed e, _, _, st1, tr1) =>
              Some (PassFailed (errstr "Write failed during overwrite" e), st1,
                    EvOpen p :: tr1)
          | Some (LoopDone, buf1, drawn1, st1, tr1) =>
              if negb (flush_to_disk f) then
                Some (PassFailed "Flush failed", st1, EvOpen p :: tr1)
              else
                match pass_loop fuel n' opt seed p file_size buf1 drawn1 st1 with
                | None => None
                | Some (x, s, tr2) => Some (x, s, EvOpen p :: tr1 ++ EvFlush p :: tr2)
                end
          end
      end
  end.

Definition failure (msg : string) : WipeResult := {| ok := false; message := msg |}.

Definition wipe_file (fuel : nat) (p : path) (opt : WipeOptions) (st : state)
  : option (WipeResult * state * list event) :=
  if negb (fst (fs_exists st p)) then
    Some (failure "Path does not exist", st, [])
  else if negb (fst (fs_is_regular_file st p)) then
    Some (failure "Path is not a regular file (directories not supported in MVP)", st, [])
  else
    let '(file_size, ec) := fs_file_size st p in
    match ec with
    | Some e => Some (failure (String.append "Failed to get file size: " e), st, [])
    | None =>
        if (passes opt <=? 0)%Z then
          Some (failure "passes must be >= 1", st, [])
        else
          let buf := repeat x00 (N.to_nat (block_size opt)) in
          let seed := e_seed E (st_entropy st) in
          let st0 := {| st_fs := st_fs st; st_entropy := S (st_entropy st) |} in
          match pass_loop fuel (Z.to_nat (passes opt)) opt seed p file_size buf 0 st0 with
          | None => None
          | Some (PassFailed msg, st1, tr) => Some (failure msg, st1, tr)
          | Some (PassesDone, st1, tr) =>
              let '(removed, ec1, st2) := fs_remove st1 p in
              if negb removed || is_set ec1 then
                Some (failure (String.append "Failed to delete file: "
                                 match ec1 with
                                 | Some e => e
                                 | None => "unknown error"%string
                                 end), st2, tr)
              else
                Some ({| ok := true; message := "Wiped and deleted successfully" |},
                      st2, tr ++ [EvRemove p])
          end
    end.

(** The directories [is_dangerous_dir] refuses by name. *)
Definition root_dir : path := [].
Definition sys1 : path := ["System"%string].
Definition sys2 : path := ["Library"%string].
Definition sys3 : path := ["Applications"%string].

(** [canon] as it stands after the first two statements of
    [is_dangerous_dir]: the weakly canonical path, or the absolute path
    when that cannot be computed; [None] when [ec] is still set. *)
Definition canon_or_absolute (p : path) : option path :=
  match e_weakly_canonical E p with
  | Some c => Some c
  | None => e_absolute E p
  end.

Definition is_dangerous_dir (p : path) : bool :=
  match canon_or_absolute p with
  | None => true
  | Some canon =>
      if path_eqb canon root_dir then true
      else if path_eqb canon sys1 || path_eqb canon sys2 || path_eqb canon sys3 then true
      else
        match e_home E with
        | Some home =>
            match e_weakly_canonical E home with
            | Some homep => if path_eqb canon homep then true else false
            | None => false
            end
        | None => false
        end
  end.

(** First pass of [wipe_directory]: count the files, skipping symbolic
    links.  [ps] is what is left of the iteration. *)
Fixpoint enumerate_files (dry_run : bool) (st : state) (ps : list path) (total_files : N)
  : N * list event :=
  match ps with
  | [] => (total_files, [])
  | p :: ps' =>
      if fst (fs_is_symlink st p) then enumerate_files dry_run st ps' total_files
      else
        let '(reg, ec2) := fs_is_regular_file st p in
        if reg && negb (is_set ec2) then
          let '(n, tr) := enumerate_files dry_run st ps' (incr64 total_files) in
          (n, if dry_run
              then EvStdout (String.append "[DRY-RUN] would wipe: " (path_string p)) :: tr
              else tr)
        else enumerate_files dry_run st ps' total_files
  end.

(** Second pass: wipe the files.  Each return of [wipe_file] is recorded
    as an [EvWipeFile] event. *)
Fixpoint execute_wipe (fuel : nat) (opt : WipeOptions) (st : state) (ps : list path)
  (wiped_files failed_files : N) : option (N * N * state * list event) :=
  match ps with
  | [] => Some (wiped_files, failed_files, st, [])
  | p :: ps' =>
      if fst (fs_is_symlink st p) then
        execute_wipe fuel opt st ps' wiped_files failed_files
      else
        let '(reg, ec2) := fs_is_regular_file st p in
        if reg && negb (is_set ec2) then
          match wipe_file fuel p opt st with
          | None => None
          | Some (res, st1, tr1) =>
              if ok res then
                match execute_wipe fuel opt st1 ps' (incr64 wiped_files) failed_files with
                | None => None
                | Some (w, f, s, tr) => Some (w, f, s, tr1 ++ EvWipeFile p res :: tr)
                end
              else
                match execute_wipe fuel opt st1 ps' wiped_files (incr64 failed_files) with
                | None => None
                | Some (w, f, s, tr) =>
                    Some (w, f, s,
                          tr1 ++ EvWipeFile p res
                              :: EvStderr (String.append "[FAIL] "
                                             (String.append (path_string p)
                                                (String.append " : " (message res))))
                              :: tr)
                end
          end
        else execute_wipe fuel opt st ps' wiped_files failed_files
  end.

(** Third pass: collect what [fs::is_directory] accepts. *)
Definition collect_dirs (st : state) (ps : list path) : list path :=
  filter (fun p => let '(isd, ec3) := fs_is_directory st p in isd && negb (is_set ec3)) ps.

(** The loop over [dirs.rbegin() .. dirs.rend()] that calls [fs::remove]
    on each collected path, with [ps] already reversed; the outcome of
    each removal is ignored. *)
Fixpoint remove_dirs (st : state) (ps : list path) : state * list event :=
  match ps with
  | [] => (st, [])
  | p :: ps' =>
      let '(removed, _, st1) := fs_remove st p in
      let '(st2, tr) := remove_dirs st1 ps' in
      (st2, if removed then EvRemove p :: tr else tr)
  end.

Definition refusal_message : string :=
  "Refusing to wipe a dangerous directory. Choose a safer target.".

Definition safety_stop_message : string :=
  "Safety stop: wipe-dir requires --dry-run (preview) or --yes (execute).".

Definition dry_run_message (total_files : N) : string :=
  String.append "Dry-run complete. Files to wipe: "
    (String.append (to_string total_files) ". Re-run with --yes to execute.").

Definition complete_message (total_files wiped_files failed_files : N) : string :=
  String.append "wipe-dir complete. total="
    (String.append (to_string total_files)
       (String.append ", wiped="
          (String.append (to_string wiped_files)
             (String.append ", failed=" (to_string failed_files))))).

(** The iterator of the second pass is created when that pass starts; the
    files wiped under it are entries it has already reported. *)
Definition wipe_directory (fuel : nat) (d : path) (opt : WipeOptions)
  (dry_run yes : bool) (st : state) : option (WipeResult * state * list event) :=
  let '(found, ec) := fs_exists st d in
  if negb found || is_set ec then
    Some (failure "Directory does not exist", st, [])
  else
    let '(isd, ec') := fs_is_directory st d in
    if negb isd || is_set ec' then
      Some (failure "Path is not a directory", st, [])
    else if is_dangerous_dir d then
      Some (failure refusal_message, st, [])
    else if negb dry_run && negb yes then
      Some (failure safety_stop_message, st, [])
    else
      let '(total_files, tr1) :=
        enumerate_files dry_run st (recursive_directory_iterator st d) 0 in
      if dry_run then
        Some ({| ok := true; message := dry_run_message total_files |},
              st, EvTraverse d :: tr1)
      else
        match execute_wipe fuel opt st (recursive_directory_iterator st d) 0 0 with
        | None => None
        | Some (wiped_files, failed_files, st1, tr2) =>
            let dirs := collect_dirs st1 (recursive_directory_iterator st1 d) in
            let '(st2, tr3) := remove_dirs st1 (rev dirs) in
            Some ({| ok := (failed_files =? 0)%N;
                     message := complete_message total_files wiped_files failed_files |},
                  st2,
                  EvTraverse d :: tr1 ++ EvTraverse d :: tr2 ++ EvTraverse d :: tr3)
        end.

End Program.


(** ** [main.cpp]

    The command line.  What the program prints is recorded line by line.
    [locate] stands for the way an argument is read as a path (the
    conversion to [fs::path] and the working directory); [std::stoi] is
    modelled after its contract: white space, an optional sign, decimal
    digits, anything after them ignored; no digits or a value outside
    [int] throw. *)

Definition INT_MIN : Z := -2147483648.

Definition is_space (c : ascii) : bool :=
  match nat_of_ascii c with
  | 32 | 9 | 10 | 11 | 12 | 13 => true
  | _ => false
  end.

Fixpoint skip_space (s : string) : string :=
  match s with
  | String c s' => if is_space c then skip_space s' else s
  | EmptyString => s
  end.

Definition digit_of (c : ascii) : option Z :=
  let n := Z.of_nat (nat_of_ascii c) in
  if ((48 <=? n) && (n <=? 57))%Z then Some (n - 48)%Z else None.

(** The digits at the head of [s], read into [acc]; [seen] tells whether
    a digit was read already. *)
Fixpoint read_digits (s : string) (acc : Z) (seen : bool) : option Z :=
  match s with
  | String c s' =>
      match digit_of c with
      | Some v => read_digits s' (10 * acc + v)%Z true
      | None => if seen then Some acc else None
      end
  | EmptyString => if seen then Some acc else None
  end.

(** [std::stoi(s)]; [None] when it throws. *)
Definition stoi (s : string) : option Z :=
  let s1 := skip_space s in
  let '(negative, s2) :=
    match s1 with
    | String "-"%char r => (true, r)
    | String "+"%char r => (false, r)
    | _ => (false, s1)
    end in
  match read_digits s2 0 false with
  | None => None
  | Some v =>
      let n := if negative then (- v)%Z else v in
      if ((INT_MIN <=? n) && (n <=? INT_MAX))%Z then Some n else None
  end.

(** The lines of [print_help]. *)
Definition help_lines : list string :=
  [ "SecureWipe-Cpp (prototype)";
    "";
    "Usage:";
    "  securewipe --help";
    "  securewipe wipe <path> [--passes N] [--pattern zeros|random]";
    "  securewipe wipe-dir <dir> [--passes N] [--pattern zeros|random] [--dry-run] [--yes]";
    "";
    "Examples:";
    "  securewipe wipe test.txt --passes 1 --pattern zeros";
    "  securewipe wipe-dir ./tmp --dry-run";
    "  securewipe wipe-dir ./tmp --passes 1 --pattern zeros --yes" ]%string.

Definition print_help : list event := map EvStdout help_lines.

(** How the loop over the options ends: with the options read, with a
    usage error (and what it printed), or with an exception of
    [std::stoi]. *)
Inductive parsed :=
| Parsed (opt : WipeOptions) (dry_run yes : bool)
| UsageError (tr : list event)
| Thrown.

(** [for (size_t i = 2; i < args.size(); ++i) { ... }], with [args] what
    is left from index [i] on. *)
Fixpoint parse_options (args : list string) (opt : WipeOptions) (dry_run yes : bool)
  : parsed :=
  match args with
  | [] => Parsed opt dry_run yes
  | a :: rest =>
      match String.eqb a "--passes", rest with
      | true, v :: rest' =>
          match stoi v with
          | Some n =>
              parse_options rest'
                {| passes := n; pattern := pattern opt; block_size := block_size opt |}
                dry_run yes
          | None => Thrown
          end
      | _, _ =>
          match String.eqb a "--pattern", rest with
          | true, v :: rest' =>
              if String.eqb v "zeros" then
                parse_options rest'
                  {| passes := passes opt; pattern := Zeros; block_size := block_size opt |}
                  dry_run yes
              else if String.eqb v "random" then
                parse_options rest'
                  {| passes := passes opt; pattern := Random;
                     block_size := block_size opt |}
                  dry_run yes
              else UsageError [EvStderr (String.append "Error: unknown pattern: " v)]
          | _, _ =>
              if String.eqb a "--dry-run" then parse_options rest opt true yes
              else if String.eqb a "--yes" then parse_options rest opt dry_run true
              else UsageError [EvStderr (String.append "Error: unknown option: " a)]
          end
      end
  end.

(** How the process ends: [main] returns, or an exception that nobody
    catches ends it. *)
Inductive main_exit := Exit (code : Z) | Terminate.

Definition main (locate : string -> path) (E : env) (fuel : nat) (args : list string)
  (st : state) : option (main_exit * state * list event) :=
  match args with
  | [] => Some (Exit 0, st, print_help)
  | cmd :: args' =>
      if String.eqb cmd "--help" || String.eqb cmd "-h" then
        Some (Exit 0, st, print_help)
      else if String.eqb cmd "wipe" || String.eqb cmd "wipe-dir" then
        match args' with
        | [] =>
            Some (Exit 2, st,
                  EvStderr "Error: missing <path>" :: EvStderr "" :: print_help)
        | p :: options =>
            match parse_options options default_options false false with
            | Thrown => Some (Terminate, st, [])
            | UsageError tr => Some (Exit 2, st, tr)
            | Parsed opt dry_run yes =>
                if String.eqb cmd "wipe" then
                  match wipe_file E fuel (locate p) opt st with
                  | None => None
                  | Some (res, st', tr) =>
                      if negb (ok res) then
                        Some (Exit 1, st',
                              tr ++ [EvStderr (String.append "Wipe failed: "
                                                 (message res))])
                      else Some (Exit 0, st', tr ++ [EvStdout (message res)])
                  end
                else
                  match wipe_directory E fuel (locate p) opt dry_run yes st with
                  | None => None
                  | Some (res, st', tr) =>
                      if negb (ok res) then
                        Some (Exit 1, st',
                              tr ++ [EvStderr (String.append "Wipe-dir failed: "
                                                 (message res))])
                      else Some (Exit 0, st', tr ++ [EvStdout (message res)])
                  end
            end
        end
      else
        Some (Exit 2, st,
              EvStderr (String.append "Unknown command: " cmd) :: EvStderr ""
                :: print_help)
  end.

(** An argument names the path made of its parts between slashes. *)
Fixpoint split_slash (s : string) (part : string) : list string :=
  match s with
  | EmptyString => match part with EmptyString => [] | _ => [part] end
  | String c s' =>
      if Ascii.eqb c "/"%char then
        match part with
        | EmptyString => split_slash s' EmptyString
        | _ => part :: split_slash s' EmptyString
        end
      else split_slash s' (String.append part (String c EmptyString))
  end.

Definition sample_locate (s : string) : path := split_slash s EmptyString.

(** The events that are lines of output. *)
Definition is_output (ev : event) : bool :=
  match ev with EvStdout _ | EvStderr _ => true | _ => false end.

(** A result of [parse_options] without its two flags. *)
Definition forget_flags (r : parsed) : parsed :=
  match r with
  | Parsed opt _ _ => Parsed opt false false
  | other => other
  end.

(** * Vocabulary of the specification *)

(** ** Events of a trace *)

Definition is_flush (ev : event) : bool :=
  match ev with EvFlush _ => true | _ => false end.

(** The bytes a trace writes, all of them. *)
Fixpoint written (tr : list event) : list byte :=
  match tr with
  | [] => []
  | EvWrite _ _ data :: tr' => data ++ written tr'
  | _ :: tr' => written tr'
  end.


(** The checks [wipe_file] makes before it touches the file. *)
Definition checks_pass (E : env) (st : state) (p : path) (opt : WipeOptions) : Prop :=
  fst (fs_exists E st p) = true
  /\ fst (fs_is_regular_file E st p) = true
  /\ snd (fs_file_size E st p) = None
  /\ (1 <= passes opt)%Z.

(** The run of the pass loop that [wipe_file] starts once the checks
    have passed. *)
Definition overwrite_passes (E : env) (fuel : nat) (p : path) (opt : WipeOptions)
  (st : state) : option (pass_exit * state * list event) :=
  pass_loop E fuel (Z.to_nat (passes opt)) opt (e_seed E (st_entropy st)) p
    (fst (fs_file_size E st p)) (repeat x00 (N.to_nat (block_size opt))) 0
    {| st_fs := st_fs st; st_entropy := S (st_entropy st) |}.

(** [fs::remove] reported a failure: it returned [false] or set [ec]. *)
Definition remove_failed (res : bool * error_code * state) : Prop :=
  fst (fst res) = false \/ snd (fst res) <> None.

(** What one pass over a file writes when the pattern is [Zeros], in
    the words of the specification: successive chunks of [min(b,
    remaining)] zero bytes, the last one cut to what remains.  [n] bounds
    the number of chunks. *)
Fixpoint zero_chunks (n : nat) (p : path) (b remaining off : N) : list event :=
  match n with
  | O => []
  | S n' =>
      if (0 <? remaining)%N then
        let c := N.min b remaining in
        EvWrite p off (repeat x00 (N.to_nat c))
          :: zero_chunks n' p b (remaining - c) (off + c)
      else []
  end.

Definition zero_pass (p : path) (b size : N) : list event :=
  EvOpen p :: zero_chunks (N.to_nat size) p b size 0 ++ [EvFlush p].

Definition all_zero (data : list byte) : Prop := Forall (fun c => c = x00) data.

(** The target of a sweep is a directory the file system can show. *)
Definition existing_directory (E : env) (st : state) (d : path) : Prop :=
  fst (fs_status E st d) = ft_directory.

(** The system directories that are refused by name. *)
Definition deny_list : list path := [sys1; sys2; sys3].

(** The home directory as [is_dangerous_dir] resolves it, when it can. *)
Definition resolved_home (E : env) : option path :=
  match e_home E with
  | Some home => e_weakly_canonical E home
  | None => None
  end.

(** A regular file that is no symbolic link and whose status can be read:
    what a sweep counts and wipes. *)
Definition plain_file (E : env) (st : state) (p : path) : bool :=
  match e_fault E OpStat p, lookup (st_fs st) p with
  | None, Some (File _) => true
  | _, _ => false
  end.

Definition preview (p : path) : event :=
  EvStdout (String.append "[DRY-RUN] would wipe: " (path_string p)).

(** The events of the overwrite engine itself. *)
Definition is_io (ev : event) : bool :=
  match ev with
  | EvOpen _ | EvWrite _ _ _ | EvFlush _ | EvRemove _ => true
  | _ => false
  end.

(** The returns of [wipe_file] that a trace records, in order. *)
Fixpoint wipe_calls (tr : list event) : list (path * WipeResult) :=
  match tr with
  | [] => []
  | EvWipeFile p res :: tr' => (p, res) :: wipe_calls tr'
  | _ :: tr' => wipe_calls tr'
  end.

(** The lines a trace sends to [std::cerr], in order. *)
Fixpoint stderr_lines (tr : list event) : list string :=
  match tr with
  | [] => []
  | EvStderr line :: tr' => line :: stderr_lines tr'
  | _ :: tr' => stderr_lines tr'
  end.

Definition succeeded (c : path * WipeResult) : bool := ok (snd c).

Definition fail_line (c : path * WipeResult) : string :=
  String.append "[FAIL] "
    (String.append (path_string (fst c)) (String.append " : " (message (snd c)))).

(** Every file of the table is shorter than [fuel] bytes. *)
Definition sizes_below (fuel : nat) (fs : fs_table) : Prop :=
  Forall (fun e => match snd e with
                   | File data => (List.length data < fuel)%nat
                   | _ => True
                   end) fs.

(** ** Vocabulary of the further properties *)

(** The messages [wipe_file] can fail with. *)
Definition wipe_file_failure (msg : string) : Prop :=
  msg = "Path does not exist"%string
  \/ msg = "Path is not a regular file (directories not supported in MVP)"%string
  \/ (exists e, msg = String.append "Failed to get file size: " e)
  \/ msg = "passes must be >= 1"%string
  \/ (exists e, msg = String.append "Failed to open file for overwrite: " e)
  \/ (exists e, msg = String.append "Write failed during overwrite: " e)
  \/ msg = "Flush failed"%string
  \/ (exists e, msg = String.append "Failed to delete file: " e).

Definition is_remove (ev : event) : bool :=
  match ev with EvRemove _ => true | _ => false end.

(** The table after a run against the table before it: an entry is gone,
    or it is as it was, or it is a file that was a file. *)
Definition only_shrinks (before after : fs_table) : Prop :=
  forall q,
    lookup after q = None
    \/ lookup after q = lookup before q
    \/ (exists data data', lookup before q = Some (File data)
                           /\ lookup after q = Some (File data')).

(** ** Sample worlds *)

Definition no_fault : fsop -> path -> option string := fun _ _ => None.

Definition sample_env : env :=
  {| e_fault := no_fault;
     e_weakly_canonical := fun p => Some p;
     e_absolute := fun p => Some p;
     e_home := Some ["home"; "user"]%string;
     e_seed := fun k => N.of_nat k;
     e_draw := fun _ _ => x2a |}.

(** As [sample_env], but nothing below [/tmp/locked] can be removed. *)
Definition locked_env : env :=
  {| e_fault := fun op p =>
       match op, strip_prefix ["tmp"; "locked"]%string p with
       | OpRemove, Some _ => Some "Permission denied"%string
       | _, _ => None
       end;
     e_weakly_canonical := fun p => Some p;
     e_absolute := fun p => Some p;
     e_home := Some ["home"; "user"]%string;
     e_seed := fun k => N.of_nat k;
     e_draw := fun _ _ => x2a |}.

(** As [sample_env], but the size of [/tmp/a] cannot be read. *)
Definition sizeless_env : env :=
  {| e_fault := fun op p =>
       match op with
       | OpFileSize => if path_eqb p ["tmp"; "a"]%string
                       then Some "Input/output error"%string else None
       | _ => None
       end;
     e_weakly_canonical := fun p => Some p;
     e_absolute := fun p => Some p;
     e_home := Some ["home"; "user"]%string;
     e_seed := fun k => N.of_nat k;
     e_draw := fun _ _ => x2a |}.

(** As [sample_env], but no path can be made canonical. *)
Definition uncanonical_env : env :=
  {| e_fault := no_fault;
     e_weakly_canonical := fun _ => None;
     e_absolute := fun p => Some p;
     e_home := Some ["home"; "user"]%string;
     e_seed := fun k => N.of_nat k;
     e_draw := fun _ _ => x2a |}.

(** As [sample_env], with a generator that yields the letters [a], [b],
    [c], ... *)
Definition lettered_env : env :=
  {| e_fault := no_fault;
     e_weakly_canonical := fun p => Some p;
     e_absolute := fun p => Some p;
     e_home := Some ["home"; "user"]%string;
     e_seed := fun k => N.of_nat k;
     e_draw := fun _ k => nth k [x61; x62; x63; x64; x65; x66; x67; x68; x69; x6a] x00 |}.

Definition random_options : WipeOptions :=
  {| passes := 2; pattern := Random; block_size := 2 |}.

Definition sample_state : state :=
  {| st_fs := [ (["tmp"], Dir true);
                (["tmp"; "a"], File [x01; x02; x03; x04; x05]);
                (["tmp"; "locked"], Dir true);
                (["tmp"; "locked"; "c"], File [x07; x08]);
                (["tmp"; "sub"], Dir true);
                (["tmp"; "sub"; "b"], File [x01]);
                (["tmp"; "to_file"], Link ["tmp"; "a"]);
                (["tmp"; "to_dir"], Link ["other"]);
                (["other"], Dir true);
                (["other"; "d"], File [x09]) ]%string;
     st_entropy := 0 |}.

Definition sample_options : WipeOptions :=
  {| passes := 2; pattern := Zeros; block_size := 2 |}.

(** * Properties *)

(** ** The file table *)

Lemma path_eqb_eq (p q : path) : path_eqb p q = true <-> p = q.
Proof.
  unfold path_eqb. destruct (list_eq_dec string_dec p q); split; congruence.
Qed.

Lemma path_eqb_refl (p : path) : path_eqb p p = true.
Proof. now apply path_eqb_eq. Qed.

Lemma path_eqb_neq (p q : path) : p <> q -> path_eqb p q = false.
Proof.
  intros H. destruct (path_eqb p q) eqn:Heq; [|reflexivity].
  apply path_eqb_eq in Heq. contradiction.
Qed.

Lemma lookup_delete_same (fs : fs_table) (p : path) : lookup (delete fs p) p = None.
Proof.
  induction fs as [|[q n] fs IH]; simpl; [reflexivity|].
  destruct (path_eqb q p) eqn:Heq; simpl; [exact IH|].
  now rewrite Heq.
Qed.

Lemma lookup_delete_other (fs : fs_table) (p q : path) :
  q <> p -> lookup (delete fs p) q = lookup fs q.
Proof.
  intros Hne. induction fs as [|[r n] fs IH]; simpl; [reflexivity|].
  destruct (path_eqb r p) eqn:Hrp; simpl.
  - apply path_eqb_eq in Hrp. subst r.
    rewrite (path_eqb_neq _ _ (fun H => Hne (eq_sym H))). exact IH.
  - destruct (path_eqb r q); [reflexivity|exact IH].
Qed.

Lemma lookup_update_other (fs : fs_table) (p q : path) (n : node) :
  q <> p -> lookup (update fs p n) q = lookup fs q.
Proof.
  intros Hne. induction fs as [|[r m] fs IH]; simpl; [reflexivity|].
  destruct (path_eqb r p) eqn:Hrp; simpl.
  - apply path_eqb_eq in Hrp. subst r.
    rewrite (path_eqb_neq _ _ (fun H => Hne (eq_sym H))). exact IH.
  - destruct (path_eqb r q); [reflexivity|exact IH].
Qed.

Lemma lookup_update_same (fs : fs_table) (p : path) (n m : node) :
  lookup fs p = Some m -> lookup (update fs p n) p = Some n.
Proof.
  induction fs as [|[r k] fs IH]; simpl; [discriminate|].
  destruct (path_eqb r p) eqn:Hrp; simpl; rewrite Hrp; auto.
Qed.

Lemma written_app (tr1 tr2 : list event) :
  written (tr1 ++ tr2) = written tr1 ++ written tr2.
Proof.
  induction tr1 as [|ev tr1 IH]; simpl; [reflexivity|].
  destruct ev; simpl; rewrite ?IH, ?app_assoc; reflexivity.
Qed.

Section Facts.

Variable E : env.

(** ** After a removal *)

Lemma fs_remove_true (st st' : state) (p : path) (ec : error_code) :
  fs_remove E st p = (true, ec, st') ->
  ec = None /\ st' = {| st_fs := delete (st_fs st) p; st_entropy := st_entropy st |}.
Proof.
  unfold fs_remove. destruct (e_fault E OpRemove p); [discriminate|].
  destruct (lookup (st_fs st) p) as [[d|r|t]|]; try discriminate;
    try (intros H; injection H as <- <-; now split).
  destruct (has_children (st_fs st) p); [discriminate|].
  intros H; injection H as <- <-; now split.
Qed.

Lemma fs_exists_missing (st : state) (p : path) :
  lookup (st_fs st) p = None -> fst (fs_exists E st p) = false.
Proof.
  intros H. unfold fs_exists, fs_status, symloop_max. simpl.
  destruct (e_fault E OpStat p); [reflexivity|]. now rewrite H.
Qed.

End Facts.

(** ** The overwrite engine *)

Lemma wipe_file_checked (E : env) (fuel : nat) (p : path) (opt : WipeOptions) (st : state) :
  checks_pass E st p opt ->
  wipe_file E fuel p opt st =
  match overwrite_passes E fuel p opt st with
  | None => None
  | Some (PassFailed msg, st1, tr) => Some (failure msg, st1, tr)
  | Some (PassesDone, st1, tr) =>
      let '(removed, ec1, st2) := fs_remove E st1 p in
      if negb removed || is_set ec1 then
        Some (failure (String.append "Failed to delete file: "
                         match ec1 with
                         | Some e => e
                         | None => "unknown error"%string
                         end), st2, tr)
      else
        Some ({| ok := true; message := "Wiped and deleted successfully" |},
              st2, tr ++ [EvRemove p])
  end.
Proof.
  intros (Hex & Hreg & Hsize & Hpasses).
  unfold wipe_file, overwrite_passes.
  rewrite Hex, Hreg. simpl.
  destruct (fs_file_size E st p) as [size ec]. simpl in Hsize. subst ec. simpl.
  destruct (Z.leb_spec (passes opt) 0); [lia|]. reflexivity.
Qed.

Lemma wipe_file_ok_checks (E : env) (fuel : nat) (p : path) (opt : WipeOptions)
  (st st' : state) (r : WipeResult) (tr : list event) :
  wipe_file E fuel p opt st = Some (r, st', tr) -> ok r = true -> checks_pass E st p opt.
Proof.
  unfold wipe_file, checks_pass. intros H Hok.
  destruct (fst (fs_exists E st p)); simpl in H;
    [|injection H as <- _ _; discriminate].
  destruct (fst (fs_is_regular_file E st p)); simpl in H;
    [|injection H as <- _ _; discriminate].
  destruct (fs_file_size E st p) as [size [e|]]; simpl in *;
    [injection H as <- _ _; discriminate|].
  destruct (Z.leb_spec (passes opt) 0);
    [injection H as <- _ _; discriminate|].
  repeat split; lia.
Qed.

Lemma write_loop_only_writes (E : env) (fuel : nat) (opt : WipeOptions) (seed : N)
  (p f : path) (remaining off : N) (buf : list byte) (drawn : nat) (st : state)
  x b d s tr :
  write_loop E fuel opt seed p f remaining off buf drawn st = Some (x, b, d, s, tr) ->
  filter is_flush tr = [].
Proof.
  revert remaining off buf drawn st x b d s tr.
  induction fuel as [|fuel IH]; intros remaining off buf drawn st x b d s tr; simpl;
    [discriminate|].
  destruct (0 <? remaining)%N; [|intros H; injection H as _ _ _ _ <-; reflexivity].
  destruct (fill E opt seed drawn buf _) as [buf1 drawn1].
  destruct (ofstream_write E st f off _) as [e|st1];
    [intros H; injection H as _ _ _ _ <-; reflexivity|].
  destruct (write_loop E fuel opt seed p f _ _ buf1 drawn1 st1)
    as [[[[[x' b'] d'] s'] tr']|] eqn:Hrec; [|discriminate].
  intros H; injection H as _ _ _ _ <-. simpl. eapply IH; eassumption.
Qed.

Lemma pass_loop_done_flushes (E : env) (fuel n : nat) (opt : WipeOptions) (seed : N)
  (p : path) (size : N) (buf : list byte) (drawn : nat) (st st1 : state)
  (tr : list event) :
  pass_loop E fuel n opt seed p size buf drawn st = Some (PassesDone, st1, tr) ->
  List.length (filter is_flush tr) = n.
Proof.
  revert buf drawn st st1 tr.
  induction n as [|n IH]; intros buf drawn st st1 tr; simpl.
  - destruct (INT_MAX <=? passes opt)%Z; [discriminate|].
    intros H; injection H as _ <-; reflexivity.
  - destruct (ofstream_open E st p) as [e|f]; [discriminate|].
    destruct (write_loop E fuel opt seed p f size 0 buf drawn st)
      as [[[[[[|e] b] d] s] tr1]|] eqn:Hloop; try discriminate.
    destruct (flush_to_disk E f); simpl; [|discriminate].
    destruct (pass_loop E fuel n opt seed p size b d s) as [[[x s2] tr2]|] eqn:Hrec;
      [|discriminate].
    intros H; injection H as -> <- <-. simpl.
    rewrite filter_app, (write_loop_only_writes _ _ _ _ _ _ _ _ _ _ _ _ _ _ _ _ Hloop).
    simpl. f_equal. eapply IH; eassumption.
Qed.

(** C1. When [wipe_file] reports success, all [passes] passes ran to their
    flush, [fs::remove] then succeeded, the path is gone from the file
    system, and the message is "Wiped and deleted successfully".  When the
    passes succeed and [fs::remove] fails, the result is a failure whose
    message begins with "Failed to delete file: ". *)
Theorem wipe_file_ok_deleted (E : env) (fuel : nat) (p : path) (opt : WipeOptions)
  (st st' : state) (r : WipeResult) (tr : list event) :
  wipe_file E fuel p opt st = Some (r, st', tr) ->
  (ok r = true ->
     message r = "Wiped and deleted successfully"%string
     /\ (exists st1 tr1,
           overwrite_passes E fuel p opt st = Some (PassesDone, st1, tr1)
           /\ List.length (filter is_flush tr1) = Z.to_nat (passes opt)
           /\ fs_remove E st1 p = (true, None, st')
           /\ tr = tr1 ++ [EvRemove p])
     /\ lookup (st_fs st') p = None
     /\ fst (fs_exists E st' p) = false)
  /\ (checks_pass E st p opt ->
      forall st1 tr1,
        overwrite_passes E fuel p opt st = Some (PassesDone, st1, tr1) ->
        remove_failed (fs_remove E st1 p) ->
        ok r = false
        /\ exists detail, message r = String.append "Failed to delete file: " detail).
Proof.
  intros Hrun. split.
  - intros Hok.
    pose proof (wipe_file_ok_checks _ _ _ _ _ _ _ _ Hrun Hok) as Hchecks.
    rewrite (wipe_file_checked _ fuel _ _ _ Hchecks) in Hrun.
    destruct (overwrite_passes E fuel p opt st) as [[[[|msg] st1] tr1]|] eqn:Hpasses;
      try discriminate.
    2:{ injection Hrun as <- _ _. discriminate. }
    destruct (fs_remove E st1 p) as [[removed ec1] st2] eqn:Hrm.
    destruct removed; simpl in Hrun.
    2:{ injection Hrun as <- _ _. discriminate. }
    destruct (fs_remove_true _ _ _ _ _ Hrm) as [-> Hst2]. simpl in Hrun.
    injection Hrun as <- <- <-.
    assert (Hgone : lookup (st_fs st2) p = None)
      by (rewrite Hst2; simpl; apply lookup_delete_same).
    repeat split; auto.
    + exists st1, tr1. repeat split; auto.
      eapply pass_loop_done_flushes. exact Hpasses.
    + now apply fs_exists_missing.
  - intros Hchecks st1 tr1 Hpasses Hfail.
    rewrite (wipe_file_checked _ fuel _ _ _ Hchecks), Hpasses in Hrun.
    destruct (fs_remove E st1 p) as [[removed ec1] st2].
    unfold remove_failed in Hfail. simpl in Hfail.
    destruct removed; simpl in Hrun.
    + destruct ec1 as [e|]; simpl in Hrun.
      * injection Hrun as <- _ _. split; [reflexivity|]. now exists e.
      * destruct Hfail; congruence.
    + injection Hrun as <- _ _. split; [reflexivity|]. eexists. reflexivity.
Qed.

Lemma wipe_file_ok_deleted_witness :
  (exists r st' tr,
     wipe_file sample_env 6 ["tmp"; "a"]%string sample_options sample_state
       = Some (r, st', tr)
     /\ ok r = true
     /\ lookup (st_fs st') ["tmp"; "a"]%string = None)
  /\ (exists r st' tr,
        wipe_file locked_env 6 ["tmp"; "locked"; "c"]%string sample_options sample_state
          = Some (r, st', tr)
        /\ ok r = false
        /\ exists detail, message r = String.append "Failed to delete file: " detail).
Proof.
  split.
  - destruct (wipe_file sample_env 6 ["tmp"; "a"]%string sample_options sample_state)
      as [[[r st'] tr]|] eqn:Hrun; [|vm_compute in Hrun; discriminate].
    assert (Hok : ok r = true) by (vm_compute in Hrun; now injection Hrun as <- _ _).
    exists r, st', tr. repeat split; auto.
    apply (proj1 (wipe_file_ok_deleted _ _ _ _ _ _ _ _ Hrun) Hok).
  - destruct (wipe_file locked_env 6 ["tmp"; "locked"; "c"]%string sample_options
                sample_state) as [[[r st'] tr]|] eqn:Hrun;
      [|vm_compute in Hrun; discriminate].
    exists r, st', tr. split; [reflexivity|].
    assert (Hchecks : checks_pass locked_env sample_state ["tmp"; "locked"; "c"]%string
                        sample_options)
      by (repeat split; vm_compute; congruence).
    destruct (overwrite_passes locked_env 6 ["tmp"; "locked"; "c"]%string sample_options
                sample_state) as [[[[|msg] st1] tr1]|] eqn:Hpasses;
      try (vm_compute in Hpasses; discriminate).
    apply (proj2 (wipe_file_ok_deleted _ _ _ _ _ _ _ _ Hrun) Hchecks st1 tr1 Hpasses).
    left. vm_compute in Hpasses. injection Hpasses as <- _. reflexivity.
Defined.

(** C2. [wipe_file] checks, in this order and stopping at the first
    failure: the path exists ("Path does not exist"), it is a regular file
    ("Path is not a regular file ..."), its size can be read (the message
    carries the error of the file system), [passes >= 1] ("passes must be
    >= 1").  Every one of these failures leaves the world as it was and
    produces no event; a missing path is reported as such whatever
    [passes] is. *)
Theorem wipe_file_preconditions (E : env) (fuel : nat) (p : path) (opt : WipeOptions)
  (st : state) :
  (fst (fs_exists E st p) = false ->
   wipe_file E fuel p opt st = Some (failure "Path does not exist", st, []))
  /\ (fst (fs_exists E st p) = true ->
      fst (fs_is_regular_file E st p) = false ->
      wipe_file E fuel p opt st =
      Some (failure "Path is not a regular file (directories not supported in MVP)",
            st, []))
  /\ (fst (fs_exists E st p) = true ->
      fst (fs_is_regular_file E st p) = true ->
      forall e, snd (fs_file_size E st p) = Some e ->
      wipe_file E fuel p opt st =
      Some (failure (String.append "Failed to get file size: " e), st, []))
  /\ (fst (fs_exists E st p) = true ->
      fst (fs_is_regular_file E st p) = true ->
      snd (fs_file_size E st p) = None ->
      (passes opt < 1)%Z ->
      wipe_file E fuel p opt st = Some (failure "passes must be >= 1", st, [])).
Proof.
  unfold wipe_file. repeat split.
  - intros ->. reflexivity.
  - intros -> ->. reflexivity.
  - intros -> -> e He. simpl.
    destruct (fs_file_size E st p) as [size ec]. simpl in He. now subst ec.
  - intros -> -> Hsize Hpasses. simpl.
    destruct (fs_file_size E st p) as [size ec]. simpl in Hsize. subst ec.
    destruct (Z.leb_spec (passes opt) 0); [reflexivity|lia].
Qed.

Lemma wipe_file_preconditions_witness :
  wipe_file sample_env 0 ["tmp"; "missing"]%string
    {| passes := 0; pattern := Zeros; block_size := 2 |} sample_state
    = Some (failure "Path does not exist", sample_state, [])
  /\ wipe_file sample_env 0 ["tmp"; "sub"]%string sample_options sample_state
     = Some (failure "Path is not a regular file (directories not supported in MVP)",
             sample_state, [])
  /\ wipe_file sizeless_env 0 ["tmp"; "a"]%string sample_options sample_state
     = Some (failure "Failed to get file size: Input/output error", sample_state, [])
  /\ wipe_file sample_env 0 ["tmp"; "a"]%string
       {| passes := 0; pattern := Zeros; block_size := 2 |} sample_state
     = Some (failure "passes must be >= 1", sample_state, []).
Proof.
  split; [|split; [|split]].
  - apply (proj1 (wipe_file_preconditions sample_env 0 ["tmp"; "missing"]%string
                    {| passes := 0; pattern := Zeros; block_size := 2 |} sample_state)).
    reflexivity.
  - apply (proj1 (proj2 (wipe_file_preconditions sample_env 0 ["tmp"; "sub"]%string
                           sample_options sample_state))); reflexivity.
  - apply (proj1 (proj2 (proj2 (wipe_file_preconditions sizeless_env 0
                                  ["tmp"; "a"]%string sample_options sample_state))));
      reflexivity.
  - apply (proj2 (proj2 (proj2 (wipe_file_preconditions sample_env 0 ["tmp"; "a"]%string
                    {| passes := 0; pattern := Zeros; block_size := 2 |} sample_state))));
      reflexivity.
Defined.

(** ** The chunk loop *)

Lemma fill_length (E : env) (opt : WipeOptions) (seed : N) (drawn : nat)
  (buf : list byte) (chunk : nat) :
  (chunk <= List.length buf)%nat ->
  List.length (fst (fill E opt seed drawn buf chunk)) = List.length buf.
Proof.
  intros Hle. unfold fill. destruct (pattern opt); simpl;
    rewrite length_app, length_skipn, ?repeat_length, ?length_map, ?length_seq; lia.
Qed.

(** With a buffer that is not empty the loop comes to an end: [remaining]
    goes down by the chunk size, which is at least one. *)
Lemma write_loop_total (E : env) (opt : WipeOptions) (seed : N) (p f : path) :
  forall (fuel : nat) (remaining off : N) (buf : list byte) (drawn : nat) (st : state),
    (0 < List.length buf)%nat ->
    (N.to_nat remaining < fuel)%nat ->
    exists x b d s tr,
      write_loop E fuel opt seed p f remaining off buf drawn st = Some (x, b, d, s, tr)
      /\ List.length b = List.length buf.
Proof.
  induction fuel as [|fuel IH]; intros remaining off buf drawn st Hbuf Hfuel; [lia|].
  simpl. destruct (N.ltb_spec 0 remaining) as [Hpos|Hzero].
  2:{ do 5 eexists. split; reflexivity. }
  set (chunk := N.min remaining (N.of_nat (List.length buf))).
  assert (Hchunk : (1 <= chunk <= remaining)%N /\ (N.to_nat chunk <= List.length buf)%nat)
    by (unfold chunk; lia).
  pose proof (fill_length E opt seed drawn buf (N.to_nat chunk) (proj2 Hchunk)) as Hlen.
  destruct (fill E opt seed drawn buf (N.to_nat chunk)) as [buf1 drawn1]. simpl in Hlen.
  destruct (ofstream_write E st f off _) as [e|st1].
  { do 5 eexists. split; [reflexivity|exact Hlen]. }
  destruct (IH (remaining - chunk)%N (off + chunk)%N buf1 drawn1 st1)
    as (x & b & d & s & tr & Hrec & Hb); [lia|lia|].
  rewrite Hrec. do 5 eexists. split; [reflexivity|congruence].
Qed.

(** With an empty buffer and bytes left to write the loop never ends:
    every chunk is empty and [remaining] stays as it is. *)
Lemma write_loop_stuck (E : env) (opt : WipeOptions) (seed : N) (p f : path) :
  forall (fuel : nat) (remaining off : N) (buf : list byte) (drawn : nat) (st : state),
    List.length buf = 0%nat ->
    (0 < remaining)%N ->
    write_loop E fuel opt seed p f remaining off buf drawn st = None.
Proof.
  induction fuel as [|fuel IH]; intros remaining off buf drawn st Hbuf Hpos;
    [reflexivity|].
  simpl. destruct (N.ltb_spec 0 remaining) as [_|Hzero]; [|lia].
  rewrite Hbuf. replace (N.min remaining (N.of_nat 0)) with 0%N by lia.
  pose proof (fill_length E opt seed drawn buf 0 (Nat.le_0_l _)) as Hlen.
  simpl. destruct (fill E opt seed drawn buf 0) as [buf1 drawn1]. simpl in *.
  rewrite N.sub_0_r. rewrite IH; [reflexivity|congruence|assumption].
Qed.

Lemma pass_loop_total (E : env) (opt : WipeOptions) (seed : N) (p : path) (size : N)
  (fuel : nat) :
  (passes opt < INT_MAX)%Z ->
  (N.to_nat size < fuel)%nat ->
  forall (n : nat) (buf : list byte) (drawn : nat) (st : state),
    (0 < List.length buf)%nat ->
    exists x s tr, pass_loop E fuel n opt seed p size buf drawn st = Some (x, s, tr).
Proof.
  intros Hint Hfuel. induction n as [|n IH]; intros buf drawn st Hbuf; simpl.
  { destruct (Z.leb_spec INT_MAX (passes opt)); [lia|]. do 3 eexists. reflexivity. }
  destruct (ofstream_open E st p) as [e|f]; [do 3 eexists; reflexivity|].
  destruct (write_loop_total E opt seed p f fuel size 0 buf drawn st Hbuf Hfuel)
    as (x & b & d & s & tr & Hloop & Hb).
  rewrite Hloop. destruct x as [|e]; [|do 3 eexists; reflexivity].
  destruct (flush_to_disk E f); simpl; [|do 3 eexists; reflexivity].
  destruct (IH b d s) as (x' & s' & tr' & Hrec); [lia|].
  rewrite Hrec. do 3 eexists. reflexivity.
Qed.

Lemma pass_loop_stuck (E : env) (opt : WipeOptions) (seed : N) (p f : path) (size : N)
  (fuel n : nat) (drawn : nat) (st : state) :
  ofstream_open E st p = inr f ->
  (0 < size)%N ->
  pass_loop E fuel (S n) opt seed p size [] drawn st = None.
Proof.
  intros Hopen Hsize. simpl. rewrite Hopen.
  now rewrite write_loop_stuck.
Qed.

Lemma wipe_file_total (E : env) (p : path) (opt : WipeOptions) (st : state) (fuel : nat) :
  (1 <= block_size opt)%N ->
  (passes opt < INT_MAX)%Z ->
  (snd (fs_file_size E st p) = None ->
   (N.to_nat (fst (fs_file_size E st p)) < fuel)%nat) ->
  exists r st' tr, wipe_file E fuel p opt st = Some (r, st', tr).
Proof.
  intros Hblock Hint Hfuel. unfold wipe_file.
  destruct (fst (fs_exists E st p)); simpl; [|do 3 eexists; reflexivity].
  destruct (fst (fs_is_regular_file E st p)); simpl; [|do 3 eexists; reflexivity].
  destruct (fs_file_size E st p) as [size [e|]]; [do 3 eexists; reflexivity|].
  simpl in Hfuel. specialize (Hfuel eq_refl).
  destruct (passes opt <=? 0)%Z; [do 3 eexists; reflexivity|].
  destruct (pass_loop_total E opt (e_seed E (st_entropy st)) p size fuel Hint Hfuel
              (Z.to_nat (passes opt)) (repeat x00 (N.to_nat (block_size opt))) 0
              {| st_fs := st_fs st; st_entropy := S (st_entropy st) |})
    as (x & s & tr & Hloop); [rewrite repeat_length; lia|].
  rewrite Hloop. destruct x as [|msg]; [|do 3 eexists; reflexivity].
  destruct (fs_remove E s p) as [[removed ec1] st2].
  destruct (negb removed || is_set ec1); do 3 eexists; reflexivity.
Qed.

(** C10. [wipe_file] does not check [block_size].  With [block_size >= 1]
    the chunk loop of a pass ends after at most [remaining] rounds, since
    each round takes [min(remaining, block_size) >= 1] bytes off
    [remaining], and so [wipe_file] returns (for [passes] below [INT_MAX]).  With
    [block_size = 0] and a file that is not empty the chunk loop never ends, and neither does
    [wipe_file] once it has opened the file. *)
Theorem wipe_file_termination (E : env) (p : path) (opt : WipeOptions) (st : state) :
  ((1 <= block_size opt)%N ->
   (forall remaining, (0 < remaining)%N ->
      (remaining - N.min remaining (block_size opt) < remaining)%N)
   /\ (forall seed f fuel remaining off buf drawn st1,
         N.of_nat (List.length buf) = block_size opt ->
         (N.to_nat remaining < fuel)%nat ->
         write_loop E fuel opt seed p f remaining off buf drawn st1 <> None)
   /\ ((passes opt < INT_MAX)%Z ->
       forall fuel,
         (snd (fs_file_size E st p) = None ->
          (N.to_nat (fst (fs_file_size E st p)) < fuel)%nat) ->
         exists r st' tr, wipe_file E fuel p opt st = Some (r, st', tr)))
  /\ (block_size opt = 0%N ->
      (forall seed f fuel remaining off buf drawn st1,
         N.of_nat (List.length buf) = block_size opt ->
         (0 < remaining)%N ->
         write_loop E fuel opt seed p f remaining off buf drawn st1 = None)
      /\ (checks_pass E st p opt ->
          (0 < fst (fs_file_size E st p))%N ->
          forall f, ofstream_open E st p = inr f ->
          forall fuel, wipe_file E fuel p opt st = None)).
Proof.
  split.
  - intros Hblock. split; [intros; lia|]. split.
    + intros seed f fuel remaining off buf drawn st1 Hbuf Hfuel.
      destruct (write_loop_total E opt seed p f fuel remaining off buf drawn st1)
        as (x & b & d & s & tr & Hloop & _); [lia|assumption|].
      rewrite Hloop. discriminate.
    + intros Hint fuel Hfuel. now apply wipe_file_total.
  - intros Hblock. split.
    + intros seed f fuel remaining off buf drawn st1 Hbuf Hpos.
      apply write_loop_stuck; [lia|assumption].
    + intros Hchecks Hsize f Hopen fuel.
      rewrite (wipe_file_checked E fuel p opt st Hchecks).
      unfold overwrite_passes. rewrite Hblock. simpl.
      destruct Hchecks as (_ & _ & _ & Hpasses).
      destruct (Z.to_nat (passes opt)) as [|n] eqn:Hn; [lia|].
      rewrite (pass_loop_stuck E opt (e_seed E (st_entropy st)) p f
                 (fst (fs_file_size E st p)) fuel n 0
                 {| st_fs := st_fs st; st_entropy := S (st_entropy st) |});
        [reflexivity|exact Hopen|exact Hsize].
Qed.

Lemma wipe_file_termination_witness :
  (exists r st' tr,
     wipe_file sample_env 6 ["tmp"; "a"]%string sample_options sample_state
       = Some (r, st', tr))
  /\ (forall fuel,
        wipe_file sample_env fuel ["tmp"; "a"]%string
          {| passes := 1; pattern := Zeros; block_size := 0 |} sample_state = None).
Proof.
  split.
  - apply (proj1 (wipe_file_termination sample_env ["tmp"; "a"]%string sample_options
                    sample_state)).
    + vm_compute. discriminate.
    + reflexivity.
    + intros _. vm_compute. lia.
  - intros fuel.
    apply (proj2 (proj2 (wipe_file_termination sample_env ["tmp"; "a"]%string
                    {| passes := 1; pattern := Zeros; block_size := 0 |} sample_state)
                    eq_refl)) with (f := ["tmp"; "a"]%string).
    + repeat split; vm_compute; congruence.
    + reflexivity.
    + reflexivity.
Defined.

(** ** The zero pattern *)

Lemma firstn_repeat_app (c : nat) (x : byte) (l : list byte) :
  firstn c (repeat x c ++ l) = repeat x c.
Proof. induction c as [|c IH]; simpl; [reflexivity|now rewrite IH]. Qed.

Lemma all_zero_repeat (c : nat) : all_zero (repeat x00 c).
Proof. apply Forall_forall. intros x Hx. now apply repeat_spec in Hx. Qed.



Lemma write_loop_zeros (E : env) (opt : WipeOptions) (seed : N) (p f : path) :
  pattern opt = Zeros ->
  forall (fuel : nat) (remaining off : N) (buf : list byte) (drawn : nat) (st : state)
         x b d s tr,
    write_loop E fuel opt seed p f remaining off buf drawn st = Some (x, b, d, s, tr) ->
    List.length b = List.length buf
    /\ all_zero (written tr)
    /\ (x = LoopDone ->
        (0 < List.length buf)%nat ->
        forall n, (N.to_nat remaining <= n)%nat ->
                  tr = zero_chunks n p (N.of_nat (List.length buf)) remaining off).
Proof.
  intros Hpat. induction fuel as [|fuel IH];
    intros remaining off buf drawn st x b d s tr; simpl; [discriminate|].
  destruct (N.ltb_spec 0 remaining) as [Hpos|Hzero].
  2:{ intros H; injection H as <- <- _ _ <-. repeat split; [constructor|].
      intros _ _ [|n] _; simpl; [reflexivity|].
      destruct (N.ltb_spec 0 remaining); [lia|reflexivity]. }
  set (chunk := N.min remaining (N.of_nat (List.length buf))).
  assert (Hchunk : (N.to_nat chunk <= List.length buf)%nat) by (unfold chunk; lia).
  pose proof (fill_length E opt seed drawn buf (N.to_nat chunk) Hchunk) as Hlen.
  unfold fill in *. rewrite Hpat in *. simpl in Hlen.
  rewrite firstn_repeat_app.
  destruct (ofstream_write E st f off _) as [e|st1].
  { intros H; injection H as <- <- _ _ <-. repeat split; [exact Hlen|constructor|].
    discriminate. }
  destruct (write_loop E fuel opt seed p f _ _ _ drawn st1)
    as [[[[[x' b'] d'] s'] tr']|] eqn:Hrec; [|discriminate].
  intros H; injection H as <- <- _ _ <-.
  destruct (IH _ _ _ _ _ _ _ _ _ _ Hrec) as (Hb & Hzero & Hexact).
  repeat split.
  - congruence.
  - simpl. apply Forall_app. split; [apply all_zero_repeat|exact Hzero].
  - intros Hdone Hbuf [|n] Hn; [lia|]. simpl.
    destruct (N.ltb_spec 0 remaining); [|lia].
    rewrite (N.min_comm (N.of_nat (List.length buf)) remaining). fold chunk.
    f_equal. rewrite Hlen in Hexact. apply Hexact; [assumption|lia|].
    assert (1 <= chunk)%N by (unfold chunk; lia). lia.
Qed.

Lemma pass_loop_zeros (E : env) (opt : WipeOptions) (seed : N) (p : path) (size : N)
  (fuel : nat) :
  pattern opt = Zeros ->
  forall (n : nat) (buf : list byte) (drawn : nat) (st : state) x s tr,
    (0 < List.length buf)%nat ->
    pass_loop E fuel n opt seed p size buf drawn st = Some (x, s, tr) ->
    all_zero (written tr)
    /\ (x = PassesDone ->
        tr = List.concat (repeat (zero_pass p (N.of_nat (List.length buf)) size) n)).
Proof.
  intros Hpat. induction n as [|n IH]; intros buf drawn st x s tr Hbuf; simpl.
  { destruct (INT_MAX <=? passes opt)%Z; [discriminate|].
    intros H; injection H as _ _ <-. split; [constructor|reflexivity]. }
  destruct (ofstream_open E st p) as [e|f].
  { intros H; injection H as <- _ <-. split; [constructor|discriminate]. }
  destruct (write_loop E fuel opt seed p f size 0 buf drawn st)
    as [[[[[x1 b1] d1] s1] tr1]|] eqn:Hloop; [|discriminate].
  destruct (write_loop_zeros E opt seed p f Hpat _ _ _ _ _ _ _ _ _ _ _ Hloop)
    as (Hb & Hzero & Hexact).
  destruct x1 as [|e].
  2:{ intros H; injection H as <- _ <-. split; [exact Hzero|discriminate]. }
  destruct (flush_to_disk E f); simpl.
  2:{ intros H; injection H as <- _ <-. split; [exact Hzero|discriminate]. }
  destruct (pass_loop E fuel n opt seed p size b1 d1 s1) as [[[x2 s2] tr2]|] eqn:Hrec;
    [|discriminate].
  intros H; injection H as <- _ <-.
  destruct (IH b1 d1 s1 x2 s2 tr2) as (Hzero2 & Hexact2); [lia|exact Hrec|].
  split.
  - simpl. rewrite written_app. apply Forall_app. split; [exact Hzero|exact Hzero2].
  - intros Hdone. rewrite (Hexact2 Hdone), Hb.
    rewrite (Hexact eq_refl Hbuf (N.to_nat size) (Nat.le_refl _)).
    unfold zero_pass. simpl. now rewrite <- app_assoc.
Qed.




(** ** The safety gate of the sweep *)

Lemma follow_plain (E : env) (hops : nat) (fs : fs_table) (p : path) (n : node) :
  e_fault E OpStat p = None ->
  lookup fs p = Some n ->
  (forall t, n <> Link t) ->
  follow E hops fs p = inr (Some (p, n)).
Proof.
  intros Hfault Hlook Hn. destruct hops; simpl; rewrite Hfault, Hlook;
    destruct n; try reflexivity; now destruct (Hn target).
Qed.

Lemma existing_directory_checks (E : env) (st : state) (d : path) :
  existing_directory E st d ->
  fs_exists E st d = (true, None) /\ fs_is_directory E st d = (true, None).
Proof.
  unfold existing_directory, fs_exists, fs_is_directory, fs_status.
  destruct (follow E symloop_max (st_fs st) d) as [e|[[q [data|r|t]]|]]; simpl;
    try discriminate. now split.
Qed.

Lemma wipe_directory_gate (E : env) (fuel : nat) (d : path) (opt : WipeOptions)
  (dry_run yes : bool) (st : state) :
  existing_directory E st d ->
  wipe_directory E fuel d opt dry_run yes st =
  if is_dangerous_dir E d then Some (failure refusal_message, st, [])
  else if negb dry_run && negb yes then Some (failure safety_stop_message, st, [])
  else
    let '(total_files, tr1) :=
      enumerate_files E dry_run st (recursive_directory_iterator E st d) 0 in
    if dry_run then
      Some ({| ok := true; message := dry_run_message total_files |},
            st, EvTraverse d :: tr1)
    else
      match execute_wipe E fuel opt st (recursive_directory_iterator E st d) 0 0 with
      | None => None
      | Some (wiped_files, failed_files, st1, tr2) =>
          let dirs := collect_dirs E st1 (recursive_directory_iterator E st1 d) in
          let '(st2, tr3) := remove_dirs E st1 (rev dirs) in
          Some ({| ok := (failed_files =? 0)%N;
                   message := complete_message total_files wiped_files failed_files |},
                st2,
                EvTraverse d :: tr1 ++ EvTraverse d :: tr2 ++ EvTraverse d :: tr3)
      end.
Proof.
  intros Hdir. destruct (existing_directory_checks E st d Hdir) as [Hex Hisd].
  unfold wipe_directory. rewrite Hex, Hisd. reflexivity.
Qed.

Lemma is_dangerous_dir_denied (E : env) (d canon : path) :
  canon_or_absolute E d = Some canon ->
  is_dangerous_dir E d =
  path_eqb canon root_dir || existsb (path_eqb canon) deny_list
  || match resolved_home E with
     | Some homep => path_eqb canon homep
     | None => false
     end.
Proof.
  intros Hcanon. unfold is_dangerous_dir, resolved_home. rewrite Hcanon. simpl.
  destruct (path_eqb canon root_dir); [reflexivity|].
  destruct (path_eqb canon sys1), (path_eqb canon sys2), (path_eqb canon sys3);
    try reflexivity.
  simpl. destruct (e_home E) as [home|]; [|reflexivity].
  destruct (e_weakly_canonical E home) as [homep|]; [|reflexivity].
  now destruct (path_eqb canon homep).
Qed.

(** C4. A sweep of an existing directory whose canonical path (or absolute
    path, when no canonical path can be computed) is the root, one of
    [/System], [/Library], [/Applications], or the canonical form of
    [HOME], is refused whatever [dry_run] and [yes] are: the world is left
    as it was and nothing is traversed.  When [HOME] is not set or cannot
    be made canonical, only the root and the three system directories are
    refused. *)
Theorem wipe_directory_refuses_dangerous (E : env) (fuel : nat) (d : path)
  (opt : WipeOptions) (dry_run yes : bool) (st : state) (canon : path) :
  existing_directory E st d ->
  canon_or_absolute E d = Some canon ->
  (canon = root_dir \/ In canon deny_list \/ resolved_home E = Some canon ->
   wipe_directory E fuel d opt dry_run yes st = Some (failure refusal_message, st, []))
  /\ (e_home E = None
      \/ (exists home, e_home E = Some home /\ e_weakly_canonical E home = None) ->
      is_dangerous_dir E d = path_eqb canon root_dir || existsb (path_eqb canon) deny_list).
Proof.
  intros Hdir Hcanon. split.
  - intros Hdanger. rewrite (wipe_directory_gate E fuel d opt dry_run yes st Hdir).
    rewrite (is_dangerous_dir_denied E d canon Hcanon).
    destruct Hdanger as [->|[Hin|Hhome]].
    + reflexivity.
    + assert (Hdeny : existsb (path_eqb canon) deny_list = true).
      { apply existsb_exists. exists canon. split; [exact Hin|apply path_eqb_refl]. }
      rewrite Hdeny, orb_true_r. reflexivity.
    + rewrite Hhome, path_eqb_refl, orb_true_r. reflexivity.
  - intros Hhome. rewrite (is_dangerous_dir_denied E d canon Hcanon).
    assert (Hnone : resolved_home E = None).
    { unfold resolved_home. destruct Hhome as [->|(home & -> & ->)]; reflexivity. }
    rewrite Hnone. apply orb_false_r.
Qed.

Lemma wipe_directory_refuses_dangerous_witness :
  wipe_directory sample_env 0 ["home"; "user"]%string sample_options false true
    {| st_fs := [(["home"; "user"]%string, Dir true)]; st_entropy := 0 |}
  = Some (failure refusal_message,
          {| st_fs := [(["home"; "user"]%string, Dir true)]; st_entropy := 0 |}, []).
Proof.
  apply (proj1 (wipe_directory_refuses_dangerous sample_env 0 ["home"; "user"]%string
                  sample_options false true
                  {| st_fs := [(["home"; "user"]%string, Dir true)]; st_entropy := 0 |}
                  ["home"; "user"]%string eq_refl eq_refl)).
  right. right. reflexivity.
Defined.

(** C5, as the code has it.  When the canonical path cannot be computed,
    [is_dangerous_dir] falls back on the absolute path: the sweep is
    refused when that fails too, and otherwise the absolute path is
    checked in place of the canonical one. *)
Theorem wipe_directory_fails_closed (E : env) (fuel : nat) (d : path)
  (opt : WipeOptions) (dry_run yes : bool) (st : state) :
  existing_directory E st d ->
  e_weakly_canonical E d = None ->
  (e_absolute E d = None ->
   wipe_directory E fuel d opt dry_run yes st = Some (failure refusal_message, st, []))
  /\ (forall absolute, e_absolute E d = Some absolute ->
        is_dangerous_dir E d =
        path_eqb absolute root_dir || existsb (path_eqb absolute) deny_list
        || match resolved_home E with
           | Some homep => path_eqb absolute homep
           | None => false
           end).
Proof.
  intros Hdir Hcanon. split.
  - intros Habs. rewrite (wipe_directory_gate E fuel d opt dry_run yes st Hdir).
    unfold is_dangerous_dir, canon_or_absolute. now rewrite Hcanon, Habs.
  - intros absolute Habs. apply is_dangerous_dir_denied.
    unfold canon_or_absolute. now rewrite Hcanon.
Qed.

Lemma wipe_directory_fails_closed_witness :
  is_dangerous_dir uncanonical_env ["tmp"]%string = false.
Proof.
  rewrite (proj2 (wipe_directory_fails_closed uncanonical_env 0 ["tmp"]%string
                    sample_options true false sample_state eq_refl eq_refl)
             ["tmp"]%string eq_refl).
  reflexivity.
Defined.

(** C5, as it is written, fails: [/tmp] exists and is a directory, its
    canonical path cannot be computed, and the dry run goes ahead all the
    same because the absolute path is at hand. *)
Lemma canonicalization_failure_not_refused :
  existing_directory uncanonical_env sample_state ["tmp"]%string
  /\ e_weakly_canonical uncanonical_env ["tmp"]%string = None
  /\ is_dangerous_dir uncanonical_env ["tmp"]%string = false
  /\ exists tr,
       wipe_directory uncanonical_env 6 ["tmp"]%string sample_options true false
         sample_state
       = Some ({| ok := true; message := dry_run_message 3 |}, sample_state, tr).
Proof.
  repeat split. eexists. vm_compute. reflexivity.
Qed.

(** C6. A sweep of an existing directory that is not dangerous, with
    neither [dry_run] nor [yes], stops with the safety message; the world
    is left as it was and nothing is traversed. *)
Theorem wipe_directory_safety_stop (E : env) (fuel : nat) (d : path)
  (opt : WipeOptions) (st : state) :
  existing_directory E st d ->
  is_dangerous_dir E d = false ->
  wipe_directory E fuel d opt false false st
  = Some (failure safety_stop_message, st, []).
Proof.
  intros Hdir Hsafe.
  rewrite (wipe_directory_gate E fuel d opt false false st Hdir), Hsafe.
  reflexivity.
Qed.

Lemma wipe_directory_safety_stop_witness :
  wipe_directory sample_env 0 ["tmp"]%string sample_options false false sample_state
  = Some (failure safety_stop_message, sample_state, []).
Proof.
  apply (wipe_directory_safety_stop sample_env 0 ["tmp"]%string sample_options
           sample_state eq_refl eq_refl).
Defined.

(** ** What the iteration reports *)

Lemma strip_prefix_app (base : path) :
  forall (q rest : path), strip_prefix base q = Some rest <-> q = base ++ rest.
Proof.
  induction base as [|c base IH]; intros q rest; simpl.
  - split; congruence.
  - destruct q as [|c' q]; [split; discriminate|].
    destruct (string_dec c c') as [->|Hne].
    + rewrite IH. split; [now intros ->|now intros H; injection H].
    + split; [discriminate|]. intros H; injection H as -> _. contradiction.
Qed.

(** [rest] is reported below [cur] when it names an entry and every
    directory on the way to it is a readable directory, no symbolic link. *)
Lemma reachable_descends (fs : fs_table) :
  forall (rest cur : path),
    reachable fs cur rest = true <->
    rest <> []
    /\ forall r1 r2, rest = r1 ++ r2 -> r1 <> [] -> r2 <> [] ->
                     lookup fs (cur ++ r1) = Some (Dir true).
Proof.
  induction rest as [|c rest IH]; intros cur; simpl.
  { split; [discriminate|]. now intros [H _]. }
  destruct rest as [|c' rest].
  { split; [|reflexivity]. intros _. split; [discriminate|].
    intros [|x [|y r1]] r2 H Hr1 Hr2; try contradiction; destruct r2; try contradiction;
      discriminate. }
  destruct (lookup fs (cur ++ [c])) as [[data|[|]|t]|] eqn:Hlook;
    try (split; [discriminate|]; intros [_ H];
         specialize (H [c] (c' :: rest) eq_refl ltac:(discriminate) ltac:(discriminate));
         congruence).
  rewrite IH. split.
  - intros [_ H]. split; [discriminate|].
    intros [|x r1] r2 Hsplit Hr1 Hr2; [contradiction|].
    injection Hsplit as <- Hsplit. destruct r1 as [|y r1]; [exact Hlook|].
    specialize (H (y :: r1) r2 Hsplit ltac:(discriminate) Hr2).
    now rewrite <- app_assoc in H.
  - intros [_ H]. split; [discriminate|].
    intros r1 r2 Hsplit Hr1 Hr2.
    specialize (H (c :: r1) r2 ltac:(simpl; now rewrite Hsplit) ltac:(discriminate) Hr2).
    now rewrite <- app_assoc.
Qed.

(** The iteration over [d] reports the entries of the table that lie below
    the directory [d] leads to, as far as [reachable] goes. *)
Lemma recursive_directory_iterator_reports (E : env) (st : state) (d q : path) :
  In q (recursive_directory_iterator E st d) <->
  exists base rest n,
    follow E symloop_max (st_fs st) d = inr (Some (base, Dir true))
    /\ q = base ++ rest
    /\ In (q, n) (st_fs st)
    /\ reachable (st_fs st) base rest = true.
Proof.
  unfold recursive_directory_iterator. split.
  - destruct (follow E symloop_max (st_fs st) d) as [e|[[base [data|[|]|t]]|]];
      try contradiction.
    intros Hin. apply in_map_iff in Hin. destruct Hin as ([q' n] & <- & Hin).
    apply filter_In in Hin. destruct Hin as [Hin Hbelow]. unfold below in Hbelow.
    simpl in *. destruct (strip_prefix base q') as [rest|] eqn:Hstrip; [|discriminate].
    apply strip_prefix_app in Hstrip. now exists base, rest, n.
  - intros (base & rest & n & -> & -> & Hin & Hreach).
    apply in_map_iff. exists (base ++ rest, n). split; [reflexivity|].
    apply filter_In. split; [exact Hin|]. unfold below. simpl.
    now rewrite (proj2 (strip_prefix_app base (base ++ rest) rest) eq_refl).
Qed.

(** ** Which entries a sweep takes *)

(** The two tests of the loops of [wipe_directory], [is_symlink] and then
    [is_regular_file] without error, accept the plain files. *)
Lemma sweep_tests_plain (E : env) (st : state) (p : path) :
  (if fst (fs_is_symlink E st p) then false
   else let '(reg, ec2) := fs_is_regular_file E st p in reg && negb (is_set ec2))
  = plain_file E st p.
Proof.
  unfold fs_is_symlink, fs_symlink_status, fs_is_regular_file, fs_status, plain_file.
  destruct (e_fault E OpStat p) as [e|] eqn:Hfault.
  { unfold symloop_max. simpl. now rewrite Hfault. }
  destruct (lookup (st_fs st) p) as [[data|r|t]|] eqn:Hlook.
  - rewrite (follow_plain E _ _ p (File data) Hfault Hlook); [reflexivity|discriminate].
  - rewrite (follow_plain E _ _ p (Dir r) Hfault Hlook); [reflexivity|discriminate].
  - reflexivity.
  - unfold symloop_max. simpl. now rewrite Hfault, Hlook.
Qed.

Lemma incr64_add (total k : N) :
  (incr64 ((total + k) mod 2 ^ 64) = (total + (k + 1)) mod 2 ^ 64)%N.
Proof.
  unfold incr64. rewrite N.Div0.add_mod_idemp_l. f_equal. lia.
Qed.

Lemma enumerate_files_counts (E : env) (dry_run : bool) (st : state) :
  forall (ps : list path) (total k : N),
    enumerate_files E dry_run st ps ((total + k) mod 2 ^ 64)%N
    = (((total + (k + N.of_nat (List.length (filter (plain_file E st) ps))))
          mod 2 ^ 64)%N,
       if dry_run then map preview (filter (plain_file E st) ps) else []).
Proof.
  induction ps as [|p ps IH]; intros total k; simpl.
  { rewrite N.add_0_r. now destruct dry_run. }
  pose proof (sweep_tests_plain E st p) as Htests.
  destruct (fst (fs_is_symlink E st p)).
  { rewrite <- Htests. apply IH. }
  destruct (fs_is_regular_file E st p) as [reg ec2].
  rewrite Htests. destruct (plain_file E st p); [|apply IH].
  rewrite incr64_add, IH. simpl.
  replace (k + 1 + N.of_nat (List.length (filter (plain_file E st) ps)))%N
    with (k + N.pos (Pos.of_succ_nat (List.length (filter (plain_file E st) ps))))%N
    by lia.
  now destruct dry_run.
Qed.

(** C7. A dry run over an existing directory that is not dangerous leaves
    the world as it was, whatever [yes] is.  It prints one line for every
    plain file (a regular file that is no symbolic link and whose status
    can be read) among the entries the recursive iteration reports, and
    returns [ok = true] with the number of these files in the message,
    which asks to run again with [--yes]. *)
Theorem wipe_directory_dry_run (E : env) (fuel : nat) (d : path) (opt : WipeOptions)
  (yes : bool) (st : state) :
  existing_directory E st d ->
  is_dangerous_dir E d = false ->
  let files := filter (plain_file E st) (recursive_directory_iterator E st d) in
  (N.of_nat (List.length files) < 2 ^ 64)%N ->
  wipe_directory E fuel d opt true yes st
  = Some ({| ok := true;
             message :=
               String.append "Dry-run complete. Files to wipe: "
                 (String.append (to_string (N.of_nat (List.length files)))
                    ". Re-run with --yes to execute.") |},
          st, EvTraverse d :: map preview files).
Proof.
  intros Hdir Hsafe files Hsmall.
  rewrite (wipe_directory_gate E fuel d opt true yes st Hdir), Hsafe. simpl.
  pose proof (enumerate_files_counts E true st (recursive_directory_iterator E st d) 0 0)
    as Hcount.
  change ((0 + 0) mod 2 ^ 64)%N with 0%N in Hcount.
  rewrite Hcount, !N.add_0_l. fold files.
  rewrite N.mod_small by exact Hsmall. reflexivity.
Qed.

Lemma wipe_directory_dry_run_witness :
  wipe_directory sample_env 0 ["tmp"]%string sample_options true false sample_state
  = Some ({| ok := true;
             message := "Dry-run complete. Files to wipe: 3. Re-run with --yes to execute." |},
          sample_state,
          [EvTraverse ["tmp"]%string;
           EvStdout "[DRY-RUN] would wipe: /tmp/a";
           EvStdout "[DRY-RUN] would wipe: /tmp/locked/c";
           EvStdout "[DRY-RUN] would wipe: /tmp/sub/b"]).
Proof.
  apply (wipe_directory_dry_run sample_env 0 ["tmp"]%string sample_options false
           sample_state eq_refl eq_refl).
  vm_compute. reflexivity.
Defined.

(** ** What a wipe leaves alone *)

Lemma ofstream_write_frame (E : env) (st st1 : state) (f : path) (off : N)
  (data : list byte) :
  ofstream_write E st f off data = inr st1 ->
  (forall q, q <> f -> lookup (st_fs st1) q = lookup (st_fs st) q)
  /\ (plain_file E st f = true -> plain_file E st1 f = true).
Proof.
  unfold ofstream_write. destruct data as [|c data].
  { intros H; injection H as <-. now split. }
  destruct (e_fault E OpWrite f); [discriminate|].
  destruct (lookup (st_fs st) f) as [[old|r|t]|] eqn:Hlook; try discriminate.
  intros H; injection H as <-. simpl. split.
  - intros q Hq. now apply lookup_update_other.
  - unfold plain_file. simpl. destruct (e_fault E OpStat f); [discriminate|].
    intros _. now rewrite (lookup_update_same _ _ _ _ Hlook).
Qed.

Lemma write_loop_frame (E : env) (opt : WipeOptions) (seed : N) (p f : path) :
  forall (fuel : nat) (remaining off : N) (buf : list byte) (drawn : nat) (st : state)
         x b d s tr,
    write_loop E fuel opt seed p f remaining off buf drawn st = Some (x, b, d, s, tr) ->
    (forall q, q <> f -> lookup (st_fs s) q = lookup (st_fs st) q)
    /\ (plain_file E st f = true -> plain_file E s f = true).
Proof.
  induction fuel as [|fuel IH]; intros remaining off buf drawn st x b d s tr; simpl;
    [discriminate|].
  destruct (0 <? remaining)%N; [|intros H; injection H as _ _ _ <- _; now split].
  destruct (fill E opt seed drawn buf _) as [buf1 drawn1].
  destruct (ofstream_write E st f off _) as [e|st1] eqn:Hwrite;
    [intros H; injection H as _ _ _ <- _; now split|].
  destruct (write_loop E fuel opt seed p f _ _ buf1 drawn1 st1)
    as [[[[[x' b'] d'] s'] tr']|] eqn:Hrec; [|discriminate].
  intros H; injection H as _ _ _ <- _.
  destruct (ofstream_write_frame E st st1 f off _ Hwrite) as [Hother Hplain].
  destruct (IH _ _ _ _ _ _ _ _ _ _ Hrec) as [Hother' Hplain'].
  split; [|tauto].
  intros q Hq. now rewrite Hother', Hother.
Qed.

Lemma ofstream_open_plain (E : env) (st : state) (p f : path) :
  plain_file E st p = true -> ofstream_open E st p = inr f -> f = p.
Proof.
  unfold plain_file, ofstream_open.
  destruct (e_fault E OpStat p) eqn:Hfault; [discriminate|].
  destruct (lookup (st_fs st) p) as [[data|r|t]|] eqn:Hlook; try discriminate.
  intros _. destruct (e_fault E OpOpen p); [discriminate|].
  rewrite (follow_plain E _ _ p (File data) Hfault Hlook) by discriminate.
  congruence.
Qed.

Lemma pass_loop_frame (E : env) (opt : WipeOptions) (seed : N) (p : path) (size : N)
  (fuel : nat) :
  forall (n : nat) (buf : list byte) (drawn : nat) (st : state) x s tr,
    plain_file E st p = true ->
    pass_loop E fuel n opt seed p size buf drawn st = Some (x, s, tr) ->
    forall q, q <> p -> lookup (st_fs s) q = lookup (st_fs st) q.
Proof.
  induction n as [|n IH]; intros buf drawn st x s tr Hplain; simpl.
  { destruct (INT_MAX <=? passes opt)%Z; [discriminate|].
    intros H; injection H as _ <- _. reflexivity. }
  destruct (ofstream_open E st p) as [e|f] eqn:Hopen.
  { intros H; injection H as _ <- _. reflexivity. }
  apply (ofstream_open_plain E st p f Hplain) in Hopen. subst f.
  destruct (write_loop E fuel opt seed p p size 0 buf drawn st)
    as [[[[[x1 b1] d1] s1] tr1]|] eqn:Hloop; [|discriminate].
  destruct (write_loop_frame E opt seed p p _ _ _ _ _ _ _ _ _ _ _ Hloop)
    as [Hother Hplain1].
  destruct x1 as [|e]; [|intros H; injection H as _ <- _; exact Hother].
  destruct (flush_to_disk E p); simpl; [|intros H; injection H as _ <- _; exact Hother].
  destruct (pass_loop E fuel n opt seed p size b1 d1 s1) as [[[x2 s2] tr2]|] eqn:Hrec;
    [|discriminate].
  intros H; injection H as _ <- _. intros q Hq.
  rewrite (IH _ _ _ _ _ _ (Hplain1 Hplain) Hrec q Hq). now apply Hother.
Qed.

Lemma fs_remove_frame (E : env) (st st' : state) (p : path) (removed : bool)
  (ec : error_code) :
  fs_remove E st p = (removed, ec, st') ->
  forall q, q <> p -> lookup (st_fs st') q = lookup (st_fs st) q.
Proof.
  unfold fs_remove. destruct (e_fault E OpRemove p).
  { intros H; injection H as _ _ <-. reflexivity. }
  destruct (lookup (st_fs st) p) as [[data|r|t]|].
  - intros H; injection H as _ _ <-. intros q Hq. now apply lookup_delete_other.
  - destruct (has_children (st_fs st) p); intros H; injection H as _ _ <-;
      intros q Hq; [reflexivity|now apply lookup_delete_other].
  - intros H; injection H as _ _ <-. intros q Hq. now apply lookup_delete_other.
  - intros H; injection H as _ _ <-. reflexivity.
Qed.

(** Wiping a plain file changes the table at its own path only. *)
Lemma wipe_file_frame (E : env) (fuel : nat) (p : path) (opt : WipeOptions)
  (st st' : state) (r : WipeResult) (tr : list event) :
  plain_file E st p = true ->
  wipe_file E fuel p opt st = Some (r, st', tr) ->
  forall q, q <> p -> lookup (st_fs st') q = lookup (st_fs st) q.
Proof.
  intros Hplain. unfold wipe_file.
  destruct (fst (fs_exists E st p)); simpl;
    [|intros H; injection H as _ <- _; reflexivity].
  destruct (fst (fs_is_regular_file E st p)); simpl;
    [|intros H; injection H as _ <- _; reflexivity].
  destruct (fs_file_size E st p) as [size [e|]];
    [intros H; injection H as _ <- _; reflexivity|].
  destruct (passes opt <=? 0)%Z; [intros H; injection H as _ <- _; reflexivity|].
  destruct (pass_loop E fuel _ opt _ p size _ 0 _) as [[[x s1] tr1]|] eqn:Hloop;
    [|discriminate].
  pose proof (pass_loop_frame E opt _ p size fuel _ _ _
                {| st_fs := st_fs st; st_entropy := S (st_entropy st) |}
                _ _ _ Hplain Hloop) as Hother.
  simpl in Hother.
  destruct x as [|msg]; [|intros H; injection H as _ <- _; exact Hother].
  destruct (fs_remove E s1 p) as [[removed ec1] st2] eqn:Hrm.
  pose proof (fs_remove_frame E s1 st2 p removed ec1 Hrm) as Hother2.
  destruct (negb removed || is_set ec1); intros H; injection H as _ <- _;
    intros q Hq; now rewrite Hother2, Hother.
Qed.

Lemma plain_file_lookup (E : env) (st st' : state) (q : path) :
  lookup (st_fs st') q = lookup (st_fs st) q ->
  plain_file E st' q = plain_file E st q.
Proof. unfold plain_file. now intros ->. Qed.

(** ** The trace of a wipe *)

Lemma wipe_calls_app (tr1 tr2 : list event) :
  wipe_calls (tr1 ++ tr2) = wipe_calls tr1 ++ wipe_calls tr2.
Proof.
  induction tr1 as [|ev tr1 IH]; simpl; [reflexivity|].
  destruct ev; simpl; rewrite ?IH; reflexivity.
Qed.

Lemma stderr_lines_app (tr1 tr2 : list event) :
  stderr_lines (tr1 ++ tr2) = stderr_lines tr1 ++ stderr_lines tr2.
Proof.
  induction tr1 as [|ev tr1 IH]; simpl; [reflexivity|].
  destruct ev; simpl; rewrite ?IH; reflexivity.
Qed.

Lemma io_trace_silent (tr : list event) :
  Forall (fun ev => is_io ev = true) tr ->
  wipe_calls tr = [] /\ stderr_lines tr = [].
Proof.
  induction 1 as [|ev tr Hev _ IH]; simpl; [now split|].
  destruct ev; simpl in *; try discriminate; exact IH.
Qed.

Lemma write_loop_io (E : env) (opt : WipeOptions) (seed : N) (p f : path) :
  forall (fuel : nat) (remaining off : N) (buf : list byte) (drawn : nat) (st : state)
         x b d s tr,
    write_loop E fuel opt seed p f remaining off buf drawn st = Some (x, b, d, s, tr) ->
    Forall (fun ev => is_io ev = true) tr.
Proof.
  induction fuel as [|fuel IH]; intros remaining off buf drawn st x b d s tr; simpl;
    [discriminate|].
  destruct (0 <? remaining)%N; [|intros H; injection H as _ _ _ _ <-; constructor].
  destruct (fill E opt seed drawn buf _) as [buf1 drawn1].
  destruct (ofstream_write E st f off _) as [e|st1];
    [intros H; injection H as _ _ _ _ <-; constructor|].
  destruct (write_loop E fuel opt seed p f _ _ buf1 drawn1 st1)
    as [[[[[x' b'] d'] s'] tr']|] eqn:Hrec; [|discriminate].
  intros H; injection H as _ _ _ _ <-.
  constructor; [reflexivity|]. eapply IH; eassumption.
Qed.

Lemma pass_loop_io (E : env) (opt : WipeOptions) (seed : N) (p : path) (size : N)
  (fuel : nat) :
  forall (n : nat) (buf : list byte) (drawn : nat) (st : state) x s tr,
    pass_loop E fuel n opt seed p size buf drawn st = Some (x, s, tr) ->
    Forall (fun ev => is_io ev = true) tr.
Proof.
  induction n as [|n IH]; intros buf drawn st x s tr; simpl.
  { destruct (INT_MAX <=? passes opt)%Z; [discriminate|].
    intros H; injection H as _ _ <-. constructor. }
  destruct (ofstream_open E st p) as [e|f];
    [intros H; injection H as _ _ <-; constructor|].
  destruct (write_loop E fuel opt seed p f size 0 buf drawn st)
    as [[[[[x1 b1] d1] s1] tr1]|] eqn:Hloop; [|discriminate].
  pose proof (write_loop_io E opt seed p f _ _ _ _ _ _ _ _ _ _ _ Hloop) as Hio.
  destruct x1 as [|e];
    [|intros H; injection H as _ _ <-; constructor; [reflexivity|exact Hio]].
  destruct (flush_to_disk E f); simpl;
    [|intros H; injection H as _ _ <-; constructor; [reflexivity|exact Hio]].
  destruct (pass_loop E fuel n opt seed p size b1 d1 s1) as [[[x2 s2] tr2]|] eqn:Hrec;
    [|discriminate].
  intros H; injection H as _ _ <-.
  constructor; [reflexivity|]. apply Forall_app. split; [exact Hio|].
  constructor; [reflexivity|]. eapply IH; eassumption.
Qed.

Lemma wipe_file_io (E : env) (fuel : nat) (p : path) (opt : WipeOptions)
  (st st' : state) (r : WipeResult) (tr : list event) :
  wipe_file E fuel p opt st = Some (r, st', tr) ->
  Forall (fun ev => is_io ev = true) tr.
Proof.
  unfold wipe_file.
  destruct (fst (fs_exists E st p)); simpl;
    [|intros H; injection H as _ _ <-; constructor].
  destruct (fst (fs_is_regular_file E st p)); simpl;
    [|intros H; injection H as _ _ <-; constructor].
  destruct (fs_file_size E st p) as [size [e|]];
    [intros H; injection H as _ _ <-; constructor|].
  destruct (passes opt <=? 0)%Z; [intros H; injection H as _ _ <-; constructor|].
  destruct (pass_loop E fuel _ opt _ p size _ 0 _) as [[[x s1] tr1]|] eqn:Hloop;
    [|discriminate].
  pose proof (pass_loop_io E opt _ p size fuel _ _ _ _ _ _ _ Hloop) as Hio.
  destruct x as [|msg]; [|intros H; injection H as _ _ <-; exact Hio].
  destruct (fs_remove E s1 p) as [[removed ec1] st2].
  destruct (negb removed || is_set ec1); intros H; injection H as _ _ <-;
    [exact Hio|].
  apply Forall_app. split; [exact Hio|]. constructor; [reflexivity|constructor].
Qed.

Lemma remove_dirs_io (E : env) :
  forall (ps : list path) (st st' : state) (tr : list event),
    remove_dirs E st ps = (st', tr) -> Forall (fun ev => is_io ev = true) tr.
Proof.
  induction ps as [|p ps IH]; intros st st' tr; simpl.
  { intros H; injection H as _ <-. constructor. }
  destruct (fs_remove E st p) as [[removed ec] st1].
  destruct (remove_dirs E st1 ps) as [st2 tr2] eqn:Hrec.
  intros H; injection H as _ <-.
  pose proof (IH _ _ _ Hrec) as Hio.
  destruct removed; [constructor; [reflexivity|exact Hio]|exact Hio].
Qed.

(** ** The second pass of the sweep *)

Lemma execute_wipe_cons (E : env) (fuel : nat) (opt : WipeOptions) (st : state)
  (p : path) (ps : list path) (wiped failed : N) :
  execute_wipe E fuel opt st (p :: ps) wiped failed =
  if plain_file E st p then
    match wipe_file E fuel p opt st with
    | None => None
    | Some (res, st1, tr1) =>
        if ok res then
          match execute_wipe E fuel opt st1 ps (incr64 wiped) failed with
          | None => None
          | Some (w, f, s, tr) => Some (w, f, s, tr1 ++ EvWipeFile p res :: tr)
          end
        else
          match execute_wipe E fuel opt st1 ps wiped (incr64 failed) with
          | None => None
          | Some (w, f, s, tr) =>
              Some (w, f, s, tr1 ++ EvWipeFile p res :: EvStderr (fail_line (p, res)) :: tr)
          end
    end
  else execute_wipe E fuel opt st ps wiped failed.
Proof.
  simpl. pose proof (sweep_tests_plain E st p) as Htests.
  destruct (fst (fs_is_symlink E st p)); [now rewrite <- Htests|].
  destruct (fs_is_regular_file E st p) as [reg ec2]. rewrite Htests.
  reflexivity.
Qed.

Lemma filter_plain_frame (E : env) (st st1 : state) (p : path) (ps : list path) :
  ~ In p ps ->
  (forall q, q <> p -> lookup (st_fs st1) q = lookup (st_fs st) q) ->
  filter (plain_file E st1) ps = filter (plain_file E st) ps.
Proof.
  intros Hnotin Hframe. apply filter_ext_in. intros q Hq.
  apply plain_file_lookup, Hframe. intros ->. contradiction.
Qed.

(** Every plain file the iteration reports is handed to [wipe_file] once,
    in order, whatever became of the files before it; the two counters
    count the calls that succeeded and those that failed, and every
    failure is reported on [std::cerr]. *)
Lemma execute_wipe_spec (E : env) (fuel : nat) (opt : WipeOptions) :
  forall (ps : list path) (st : state) (wiped failed : N) w f st' tr,
    NoDup ps ->
    execute_wipe E fuel opt st ps wiped failed = Some (w, f, st', tr) ->
    map fst (wipe_calls tr) = filter (plain_file E st) ps
    /\ w = Nat.iter (List.length (filter succeeded (wipe_calls tr))) incr64 wiped
    /\ f = Nat.iter (List.length (filter (fun c => negb (succeeded c)) (wipe_calls tr)))
             incr64 failed
    /\ stderr_lines tr = map fail_line (filter (fun c => negb (succeeded c)) (wipe_calls tr))
    /\ Forall (fun c => exists sa sb t,
                   plain_file E sa (fst c) = true
                   /\ wipe_file E fuel (fst c) opt sa = Some (snd c, sb, t))
         (wipe_calls tr).
Proof.
  induction ps as [|p ps IH]; intros st wiped failed w f st' tr Hnodup.
  { simpl. intros H; injection H as <- <- _ <-. simpl. repeat split. constructor. }
  rewrite execute_wipe_cons. inversion Hnodup as [|? ? Hnotin Hnodup']; subst.
  simpl. destruct (plain_file E st p) eqn:Hplain; [|now apply IH].
  destruct (wipe_file E fuel p opt st) as [[[res st1] tr1]|] eqn:Hwipe; [|discriminate].
  destruct (io_trace_silent tr1 (wipe_file_io E fuel p opt st st1 res tr1 Hwipe))
    as [Hcalls1 Herr1].
  pose proof (filter_plain_frame E st st1 p ps Hnotin
                (wipe_file_frame E fuel p opt st st1 res tr1 Hplain Hwipe)) as Hframe.
  assert (Hs : succeeded (p, res) = ok res) by reflexivity.
  destruct (ok res) eqn:Hok.
  - destruct (execute_wipe E fuel opt st1 ps (incr64 wiped) failed)
      as [[[[w2 f2] s2] tr2]|] eqn:Hrec; [|discriminate].
    intros H; injection H as <- <- _ <-.
    destruct (IH _ _ _ _ _ _ _ Hnodup' Hrec) as (Hmap & Hw & Hf & Herr & Hall).
    rewrite wipe_calls_app, stderr_lines_app, Hcalls1, Herr1.
    cbn [app wipe_calls stderr_lines filter map fst]. rewrite Hs.
    cbn [negb List.length map fst].
    repeat split.
    + now rewrite Hmap, Hframe.
    + rewrite Hw. symmetry. exact (Nat.iter_succ_r _ _ incr64 wiped).
    + exact Hf.
    + exact Herr.
    + constructor; [|exact Hall]. exists st, st1, tr1. now split.
  - destruct (execute_wipe E fuel opt st1 ps wiped (incr64 failed))
      as [[[[w2 f2] s2] tr2]|] eqn:Hrec; [|discriminate].
    intros H; injection H as <- <- _ <-.
    destruct (IH _ _ _ _ _ _ _ Hnodup' Hrec) as (Hmap & Hw & Hf & Herr & Hall).
    rewrite wipe_calls_app, stderr_lines_app, Hcalls1, Herr1.
    cbn [app wipe_calls stderr_lines filter map fst]. rewrite Hs.
    cbn [negb List.length map fst].
    repeat split.
    + now rewrite Hmap, Hframe.
    + exact Hw.
    + rewrite Hf. symmetry. exact (Nat.iter_succ_r _ _ incr64 failed).
    + now rewrite Herr.
    + constructor; [|exact Hall]. exists st, st1, tr1. now split.
Qed.

(** ** What a sweep deletes stays deleted *)

Lemma lookup_delete_none (fs : fs_table) (p q : path) :
  lookup fs q = None -> lookup (delete fs p) q = None.
Proof.
  induction fs as [|[r n] fs IH]; simpl; [reflexivity|].
  destruct (path_eqb r q) eqn:Hrq; [discriminate|]. intros Hnone.
  destruct (path_eqb r p); simpl; [now apply IH|].
  rewrite Hrq. now apply IH.
Qed.

Lemma fs_remove_none (E : env) (st st' : state) (p q : path) (removed : bool)
  (ec : error_code) :
  fs_remove E st p = (removed, ec, st') ->
  lookup (st_fs st) q = None -> lookup (st_fs st') q = None.
Proof.
  unfold fs_remove. destruct (e_fault E OpRemove p).
  { intros H; injection H as _ _ <-. auto. }
  destruct (lookup (st_fs st) p) as [[data|r|t]|].
  - intros H; injection H as _ _ <-. apply lookup_delete_none.
  - destruct (has_children (st_fs st) p); intros H; injection H as _ _ <-;
      [auto|apply lookup_delete_none].
  - intros H; injection H as _ _ <-. apply lookup_delete_none.
  - intros H; injection H as _ _ <-. auto.
Qed.

Lemma remove_dirs_none (E : env) (q : path) :
  forall (ps : list path) (st st' : state) (tr : list event),
    remove_dirs E st ps = (st', tr) ->
    lookup (st_fs st) q = None -> lookup (st_fs st') q = None.
Proof.
  induction ps as [|p ps IH]; intros st st' tr; simpl.
  { intros H; injection H as <- _. auto. }
  destruct (fs_remove E st p) as [[removed ec] st1] eqn:Hrm.
  destruct (remove_dirs E st1 ps) as [st2 tr2] eqn:Hrec.
  intros H; injection H as <- _. intros Hnone.
  apply (IH _ _ _ Hrec). exact (fs_remove_none E st st1 p q removed ec Hrm Hnone).
Qed.

Lemma wipe_file_ok_gone (E : env) (fuel : nat) (p : path) (opt : WipeOptions)
  (st st' : state) (r : WipeResult) (tr : list event) :
  wipe_file E fuel p opt st = Some (r, st', tr) ->
  ok r = true ->
  lookup (st_fs st') p = None.
Proof.
  intros Hrun Hok.
  rewrite (wipe_file_checked E fuel p opt st
             (wipe_file_ok_checks E fuel p opt st st' r tr Hrun Hok)) in Hrun.
  destruct (overwrite_passes E fuel p opt st) as [[[[|msg] st1] tr1]|];
    try discriminate.
  2:{ injection Hrun as <- _ _. discriminate. }
  destruct (fs_remove E st1 p) as [[removed ec1] st2] eqn:Hrm.
  destruct removed; simpl in Hrun.
  2:{ injection Hrun as <- _ _. discriminate. }
  destruct (fs_remove_true E st1 st2 p ec1 Hrm) as [-> Hst2]. simpl in Hrun.
  injection Hrun as _ <- _. rewrite Hst2. simpl. apply lookup_delete_same.
Qed.

Lemma plain_file_present (E : env) (st : state) (p : path) :
  plain_file E st p = true -> lookup (st_fs st) p <> None.
Proof.
  unfold plain_file. destruct (e_fault E OpStat p); [discriminate|].
  destruct (lookup (st_fs st) p); [discriminate|discriminate].
Qed.

Lemma execute_wipe_none (E : env) (fuel : nat) (opt : WipeOptions) (q : path) :
  forall (ps : list path) (st : state) (wiped failed : N) w f st' tr,
    execute_wipe E fuel opt st ps wiped failed = Some (w, f, st', tr) ->
    lookup (st_fs st) q = None -> lookup (st_fs st') q = None.
Proof.
  induction ps as [|p ps IH]; intros st wiped failed w f st' tr.
  { simpl. intros H; injection H as _ _ <- _. auto. }
  rewrite execute_wipe_cons.
  destruct (plain_file E st p) eqn:Hplain; [|apply IH].
  destruct (wipe_file E fuel p opt st) as [[[res st1] tr1]|] eqn:Hwipe; [|discriminate].
  intros Hrun Hnone.
  assert (Hnone1 : lookup (st_fs st1) q = None).
  { rewrite (wipe_file_frame E fuel p opt st st1 res tr1 Hplain Hwipe); [exact Hnone|].
    intros ->. exact (plain_file_present E st p Hplain Hnone). }
  destruct (ok res).
  - destruct (execute_wipe E fuel opt st1 ps (incr64 wiped) failed)
      as [[[[w2 f2] s2] tr2]|] eqn:Hrec; [|discriminate].
    injection Hrun as _ _ <- _. exact (IH _ _ _ _ _ _ _ Hrec Hnone1).
  - destruct (execute_wipe E fuel opt st1 ps wiped (incr64 failed))
      as [[[[w2 f2] s2] tr2]|] eqn:Hrec; [|discriminate].
    injection Hrun as _ _ <- _. exact (IH _ _ _ _ _ _ _ Hrec Hnone1).
Qed.

(** A file whose wipe succeeded is gone when the second pass ends. *)
Lemma execute_wipe_deletes (E : env) (fuel : nat) (opt : WipeOptions) :
  forall (ps : list path) (st : state) (wiped failed : N) w f st' tr,
    execute_wipe E fuel opt st ps wiped failed = Some (w, f, st', tr) ->
    Forall (fun c => succeeded c = true -> lookup (st_fs st') (fst c) = None)
      (wipe_calls tr).
Proof.
  induction ps as [|p ps IH]; intros st wiped failed w f st' tr.
  { simpl. intros H; injection H as _ _ _ <-. constructor. }
  rewrite execute_wipe_cons.
  destruct (plain_file E st p) eqn:Hplain; [|apply IH].
  destruct (wipe_file E fuel p opt st) as [[[res st1] tr1]|] eqn:Hwipe; [|discriminate].
  destruct (io_trace_silent tr1 (wipe_file_io E fuel p opt st st1 res tr1 Hwipe))
    as [Hcalls1 _].
  destruct (ok res) eqn:Hok.
  - destruct (execute_wipe E fuel opt st1 ps (incr64 wiped) failed)
      as [[[[w2 f2] s2] tr2]|] eqn:Hrec; [|discriminate].
    intros H; injection H as _ _ <- <-.
    rewrite wipe_calls_app, Hcalls1. simpl. constructor; [|exact (IH _ _ _ _ _ _ _ Hrec)].
    intros _. simpl. apply (execute_wipe_none E fuel opt p _ _ _ _ _ _ _ _ Hrec).
    exact (wipe_file_ok_gone E fuel p opt st st1 res tr1 Hwipe Hok).
  - destruct (execute_wipe E fuel opt st1 ps wiped (incr64 failed))
      as [[[[w2 f2] s2] tr2]|] eqn:Hrec; [|discriminate].
    intros H; injection H as _ _ <- <-.
    rewrite wipe_calls_app, Hcalls1. simpl. constructor; [|exact (IH _ _ _ _ _ _ _ Hrec)].
    unfold succeeded. simpl. rewrite Hok. discriminate.
Qed.

Lemma lookup_In (fs : fs_table) (p : path) (n : node) :
  lookup fs p = Some n -> In (p, n) fs.
Proof.
  induction fs as [|[q m] fs IH]; simpl; [discriminate|].
  destruct (path_eqb q p) eqn:Hqp.
  - apply path_eqb_eq in Hqp. subst q. intros H; injection H as ->. now left.
  - intros H. right. now apply IH.
Qed.

Lemma sizes_below_lookup (fuel : nat) (fs : fs_table) (p : path) (data : list byte) :
  sizes_below fuel fs -> lookup fs p = Some (File data) -> (List.length data < fuel)%nat.
Proof.
  intros Hsizes Hlook. unfold sizes_below in Hsizes. rewrite Forall_forall in Hsizes.
  exact (Hsizes _ (lookup_In _ _ _ Hlook)).
Qed.

Lemma fs_file_size_plain (E : env) (st : state) (p : path) :
  plain_file E st p = true ->
  snd (fs_file_size E st p) = None ->
  exists data, lookup (st_fs st) p = Some (File data)
               /\ fst (fs_file_size E st p) = N.of_nat (List.length data).
Proof.
  unfold plain_file, fs_file_size.
  destruct (e_fault E OpStat p) eqn:Hfault; [discriminate|].
  destruct (lookup (st_fs st) p) as [[data|r|t]|] eqn:Hlook; try discriminate.
  intros _. destruct (e_fault E OpFileSize p); [discriminate|].
  rewrite (follow_plain E _ _ p (File data) Hfault Hlook) by discriminate.
  intros _. now exists data.
Qed.

(** With a block size of at least one and more fuel than the longest file
    has bytes, the second pass comes to an end. *)
Lemma execute_wipe_total (E : env) (fuel : nat) (opt : WipeOptions) :
  (1 <= block_size opt)%N ->
  (passes opt < INT_MAX)%Z ->
  forall (ps : list path) (st : state) (wiped failed : N),
    NoDup ps ->
    (forall q data, In q ps -> lookup (st_fs st) q = Some (File data) ->
                    (List.length data < fuel)%nat) ->
    exists w f st' tr, execute_wipe E fuel opt st ps wiped failed = Some (w, f, st', tr).
Proof.
  intros Hblock Hint.
  induction ps as [|p ps IH]; intros st wiped failed Hnodup Hsizes.
  { simpl. do 4 eexists. reflexivity. }
  rewrite execute_wipe_cons. inversion Hnodup as [|? ? Hnotin Hnodup']; subst.
  destruct (plain_file E st p) eqn:Hplain.
  2:{ apply IH; [exact Hnodup'|]. intros q data Hq. apply Hsizes. now right. }
  destruct (wipe_file_total E p opt st fuel Hblock Hint) as (res & st1 & tr1 & Hwipe).
  { intros Hsize.
    destruct (fs_file_size_plain E st p Hplain Hsize) as (data & Hlook & ->).
    rewrite Nat2N.id. apply (Hsizes p data); [now left|exact Hlook]. }
  rewrite Hwipe.
  assert (Hsizes1 : forall q data, In q ps -> lookup (st_fs st1) q = Some (File data) ->
                                   (List.length data < fuel)%nat).
  { intros q data Hq Hlook. apply (Hsizes q data); [now right|].
    rewrite <- Hlook. symmetry.
    apply (wipe_file_frame E fuel p opt st st1 res tr1 Hplain Hwipe).
    intros ->. contradiction. }
  destruct (ok res).
  - destruct (IH st1 (incr64 wiped) failed Hnodup' Hsizes1) as (w & f & s & tr & Hrec).
    rewrite Hrec. do 4 eexists. reflexivity.
  - destruct (IH st1 wiped (incr64 failed) Hnodup' Hsizes1) as (w & f & s & tr & Hrec).
    rewrite Hrec. do 4 eexists. reflexivity.
Qed.

Lemma NoDup_map_fst_filter (f : path * node -> bool) (fs : fs_table) :
  NoDup (map fst fs) -> NoDup (map fst (filter f fs)).
Proof.
  induction fs as [|e fs IH]; simpl; [constructor|].
  intros Hnodup. inversion Hnodup as [|? ? Hnotin Hnodup']; subst.
  destruct (f e); simpl; [|now apply IH].
  constructor; [|now apply IH].
  intros Hin. apply Hnotin. apply in_map_iff in Hin. destruct Hin as (e' & <- & Hin).
  apply in_map. apply filter_In in Hin. tauto.
Qed.

Lemma recursive_directory_iterator_NoDup (E : env) (st : state) (d : path) :
  NoDup (map fst (st_fs st)) -> NoDup (recursive_directory_iterator E st d).
Proof.
  intros Hnodup. unfold recursive_directory_iterator.
  destruct (follow E symloop_max (st_fs st) d) as [e|[[base [data|[|]|t]]|]];
    try constructor.
  now apply NoDup_map_fst_filter.
Qed.

Lemma iter_incr64 (n : nat) : Nat.iter n incr64 0%N = (N.of_nat n mod 2 ^ 64)%N.
Proof.
  induction n as [|n IH]; [reflexivity|].
  rewrite Nat.iter_succ, IH. unfold incr64.
  rewrite N.Div0.add_mod_idemp_l. f_equal. lia.
Qed.

(** C8. A sweep with [dry_run = false] and [yes = true] over an existing
    directory that is not dangerous hands every plain file the iteration
    reports to [wipe_file], once and in order, whether the wipes before it
    failed or not, and a file whose wipe succeeded is gone at the end.
    [wiped_files] counts the calls that succeeded,
    [failed_files] those that failed, each failure is reported on
    [std::cerr], the result has [ok = (failed_files == 0)] and its message
    gives the three counts.  With [block_size >= 1], [passes] below
    [INT_MAX] and fuel beyond the size of every file, the sweep returns. *)
Theorem wipe_directory_keeps_going (E : env) (d : path) (opt : WipeOptions) (st : state) :
  existing_directory E st d ->
  is_dangerous_dir E d = false ->
  NoDup (map fst (st_fs st)) ->
  let files := filter (plain_file E st) (recursive_directory_iterator E st d) in
  (N.of_nat (List.length files) < 2 ^ 64)%N ->
  (forall fuel r st' tr,
     wipe_directory E fuel d opt false true st = Some (r, st', tr) ->
     let calls := wipe_calls tr in
     let failures := filter (fun c => negb (succeeded c)) calls in
     let wiped_files := N.of_nat (List.length (filter succeeded calls)) in
     let failed_files := N.of_nat (List.length failures) in
     map fst calls = files
     /\ Forall (fun c => exists sa sb t,
                    plain_file E sa (fst c) = true
                    /\ wipe_file E fuel (fst c) opt sa = Some (snd c, sb, t)) calls
     /\ Forall (fun c => succeeded c = true -> lookup (st_fs st') (fst c) = None) calls
     /\ stderr_lines tr = map fail_line failures
     /\ ok r = (failed_files =? 0)%N
     /\ message r =
        String.append "wipe-dir complete. total="
          (String.append (to_string (N.of_nat (List.length files)))
             (String.append ", wiped="
                (String.append (to_string wiped_files)
                   (String.append ", failed=" (to_string failed_files))))))
  /\ ((1 <= block_size opt)%N ->
      (passes opt < INT_MAX)%Z ->
      forall fuel, sizes_below fuel (st_fs st) ->
                   exists r st' tr,
                     wipe_directory E fuel d opt false true st = Some (r, st', tr)).
Proof.
  intros Hdir Hsafe Hnodup files Hsmall.
  pose proof (recursive_directory_iterator_NoDup E st d Hnodup) as Hnodup'.
  split.
  - intros fuel r st' tr.
    rewrite (wipe_directory_gate E fuel d opt false true st Hdir), Hsafe.
    cbn [negb andb].
    pose proof (enumerate_files_counts E false st
                  (recursive_directory_iterator E st d) 0 0) as Hcount.
    change ((0 + 0) mod 2 ^ 64)%N with 0%N in Hcount.
    rewrite Hcount, !N.add_0_l. fold files.
    rewrite (N.mod_small _ _ Hsmall).
    destruct (execute_wipe E fuel opt st (recursive_directory_iterator E st d) 0 0)
      as [[[[w f] st1] tr2]|] eqn:Hexec; [|discriminate].
    destruct (remove_dirs E st1 _) as [st2 tr3] eqn:Hclean.
    intros H; injection H as <- <- <-.
    destruct (execute_wipe_spec E fuel opt _ _ _ _ _ _ _ _ Hnodup' Hexec)
      as (Hmap & Hw & Hf & Herr & Hall).
    assert (Hgone : Forall (fun c => succeeded c = true ->
                                     lookup (st_fs st2) (fst c) = None) (wipe_calls tr2)).
    { eapply Forall_impl; [|exact (execute_wipe_deletes E fuel opt _ _ _ _ _ _ _ _ Hexec)].
      intros c Hc Hs. exact (remove_dirs_none E (fst c) _ _ _ _ Hclean (Hc Hs)). }
    destruct (io_trace_silent tr3 (remove_dirs_io E _ _ _ _ Hclean)) as [Hcalls3 Herr3].
    cbn [app].
    assert (Hcalls : wipe_calls (EvTraverse d :: EvTraverse d :: tr2
                                   ++ EvTraverse d :: tr3) = wipe_calls tr2).
    { simpl. rewrite wipe_calls_app. simpl. rewrite Hcalls3. apply app_nil_r. }
    assert (Hlines : stderr_lines (EvTraverse d :: EvTraverse d :: tr2
                                     ++ EvTraverse d :: tr3) = stderr_lines tr2).
    { simpl. rewrite stderr_lines_app. simpl. rewrite Herr3. apply app_nil_r. }
    cbv zeta. rewrite Hcalls, Hlines. fold files in Hmap.
    assert (Hlen : List.length (wipe_calls tr2) = List.length files)
      by (rewrite <- Hmap; symmetry; apply length_map).
    pose proof (filter_length_le succeeded (wipe_calls tr2)) as Hle1.
    pose proof (filter_length_le (fun c => negb (succeeded c)) (wipe_calls tr2)) as Hle2.
    rewrite iter_incr64 in Hw, Hf.
    rewrite N.mod_small in Hw by lia. rewrite N.mod_small in Hf by lia.
    subst w f. cbn [ok message]. unfold complete_message.
    repeat split; solve [assumption | reflexivity].
  - intros Hblock Hint fuel Hsizes.
    rewrite (wipe_directory_gate E fuel d opt false true st Hdir), Hsafe. simpl.
    destruct (enumerate_files E false st _ 0) as [total tr1].
    destruct (execute_wipe_total E fuel opt Hblock Hint
                (recursive_directory_iterator E st d)
                st 0 0 Hnodup') as (w & f & st1 & tr2 & Hexec).
    { intros q data _. now apply sizes_below_lookup. }
    rewrite Hexec. destruct (remove_dirs E st1 _) as [st2 tr3].
    do 3 eexists. reflexivity.
Qed.

Lemma sample_state_NoDup : NoDup (map fst (st_fs sample_state)).
Proof.
  simpl. repeat constructor; simpl; intuition discriminate.
Qed.

Lemma sample_state_sizes : sizes_below 6 (st_fs sample_state).
Proof.
  unfold sizes_below. simpl. repeat constructor; simpl; lia.
Qed.

Lemma wipe_directory_keeps_going_witness :
  exists r st' tr,
    wipe_directory locked_env 6 ["tmp"]%string sample_options false true sample_state
      = Some (r, st', tr)
    /\ map fst (wipe_calls tr)
       = filter (plain_file locked_env sample_state)
           (recursive_directory_iterator locked_env sample_state ["tmp"]%string)
    /\ ok r = (N.of_nat (List.length (filter (fun c => negb (succeeded c))
                                        (wipe_calls tr))) =? 0)%N.
Proof.
  pose proof (wipe_directory_keeps_going locked_env ["tmp"]%string sample_options
                sample_state eq_refl eq_refl sample_state_NoDup
                ltac:(vm_compute; reflexivity)) as [Hspec Htotal].
  destruct (Htotal ltac:(vm_compute; discriminate) eq_refl 6%nat sample_state_sizes)
    as (r & st' & tr & Hrun).
  exists r, st', tr. split; [exact Hrun|].
  destruct (Hspec 6%nat r st' tr Hrun) as (Hmap & _ & _ & _ & Hok & _).
  split; assumption.
Defined.

(** The sweep of [/tmp] when [/tmp/locked/c] cannot be removed: the file
    after it is wiped all the same. *)
Example sweep_past_a_failure :
  exists st' tr,
    wipe_directory locked_env 6 ["tmp"]%string sample_options false true sample_state
      = Some ({| ok := false;
                 message := "wipe-dir complete. total=3, wiped=2, failed=1" |}, st', tr)
    /\ map fst (wipe_calls tr)
       = [["tmp"; "a"]; ["tmp"; "locked"; "c"]; ["tmp"; "sub"; "b"]]%string
    /\ stderr_lines tr
       = ["[FAIL] /tmp/locked/c : Failed to delete file: Permission denied"%string]
    /\ lookup (st_fs st') ["tmp"; "a"]%string = None
    /\ lookup (st_fs st') ["tmp"; "locked"; "c"]%string = Some (File [x00; x00])
    /\ lookup (st_fs st') ["tmp"; "sub"; "b"]%string = None.
Proof.
  do 2 eexists. split; [vm_compute; reflexivity|]. repeat split.
Qed.

(** ** Symbolic links *)

(** What holds of C9: a symbolic link is neither counted nor handed to
    [wipe_file]. *)
Lemma plain_file_not_link (E : env) (st : state) (p t : path) :
  lookup (st_fs st) p = Some (Link t) -> plain_file E st p = false.
Proof.
  unfold plain_file. intros ->. now destruct (e_fault E OpStat p).
Qed.

Lemma sweep_skips_symlinks (E : env) (fuel : nat) (opt : WipeOptions) (st : state)
  (ps : list path) (w f : N) (st' : state) (tr : list event) (p t : path) :
  NoDup ps ->
  execute_wipe E fuel opt st ps 0 0 = Some (w, f, st', tr) ->
  lookup (st_fs st) p = Some (Link t) ->
  ~ In p (map fst (wipe_calls tr)).
Proof.
  intros Hnodup Hexec Hlink Hin.
  destruct (execute_wipe_spec E fuel opt ps st 0%N 0%N w f st' tr Hnodup Hexec)
    as (Hmap & _).
  rewrite Hmap in Hin. apply filter_In in Hin. destruct Hin as [_ Hplain].
  rewrite (plain_file_not_link E st p t Hlink) in Hplain. discriminate.
Qed.

(** C9 fails on the code.  [/tmp/to_dir] is a symbolic link to the
    directory [/other].  The third pass of the sweep asks
    [fs::is_directory], which follows the link, and then calls
    [fs::remove] on it, which does not: the link is deleted.  The link to a
    file next to it, [/tmp/to_file], is left alone. *)
Theorem sweep_removes_link_to_directory :
  lookup (st_fs sample_state) ["tmp"; "to_dir"]%string = Some (Link ["other"]%string)
  /\ exists r st' tr,
       wipe_directory sample_env 6 ["tmp"]%string sample_options false true sample_state
         = Some (r, st', tr)
       /\ ok r = true
       /\ In (EvRemove ["tmp"; "to_dir"]%string) tr
       /\ lookup (st_fs st') ["tmp"; "to_dir"]%string = None
       /\ lookup (st_fs st') ["tmp"; "to_file"]%string
          = Some (Link ["tmp"; "a"]%string)
       /\ lookup (st_fs st') ["other"; "d"]%string = Some (File [x09]).
Proof.
  split; [reflexivity|].
  do 3 eexists. split; [vm_compute; reflexivity|].
  repeat split. simpl. tauto.
Qed.

(** * Further properties *)

(** ** Failures of the sweep before the gate *)

(** X1. [wipe_directory] on a path the file system cannot show fails with
    "Directory does not exist", and on an entry that is no directory with
    "Path is not a directory"; in both cases whatever [dry_run] and [yes]
    are, with the world as it was and nothing traversed. *)
Theorem wipe_directory_not_a_directory (E : env) (fuel : nat) (d : path)
  (opt : WipeOptions) (dry_run yes : bool) (st : state) :
  (fst (fs_exists E st d) = false ->
   wipe_directory E fuel d opt dry_run yes st
   = Some (failure "Directory does not exist", st, []))
  /\ (fst (fs_exists E st d) = true ->
      fst (fs_is_directory E st d) = false ->
      wipe_directory E fuel d opt dry_run yes st
      = Some (failure "Path is not a directory", st, [])).
Proof.
  unfold wipe_directory. split.
  - intros Hex. destruct (fs_exists E st d) as [found ec]. simpl in Hex. now subst found.
  - intros Hex Hdir.
    assert (Hfound : fs_exists E st d = (true, None)).
    { revert Hex. unfold fs_exists.
      destruct (fs_status E st d) as [[| | | |] ec]; simpl; try discriminate; reflexivity. }
    rewrite Hfound. simpl.
    destruct (fs_is_directory E st d) as [isd ec']. simpl in Hdir. now subst isd.
Qed.

Lemma wipe_directory_not_a_directory_witness :
  wipe_directory sample_env 0 ["tmp"; "missing"]%string sample_options false true
    sample_state
  = Some (failure "Directory does not exist", sample_state, [])
  /\ wipe_directory sample_env 0 ["tmp"; "a"]%string sample_options false true
       sample_state
     = Some (failure "Path is not a directory", sample_state, []).
Proof.
  split.
  - apply (proj1 (wipe_directory_not_a_directory sample_env 0 ["tmp"; "missing"]%string
                    sample_options false true sample_state)). reflexivity.
  - apply (proj2 (wipe_directory_not_a_directory sample_env 0 ["tmp"; "a"]%string
                    sample_options false true sample_state)); reflexivity.
Defined.

(** ** How a wipe fails *)

Lemma pass_loop_failure (E : env) (opt : WipeOptions) (seed : N) (p : path) (size : N)
  (fuel : nat) :
  forall (n : nat) (buf : list byte) (drawn : nat) (st : state) msg s tr,
    pass_loop E fuel n opt seed p size buf drawn st = Some (PassFailed msg, s, tr) ->
    (exists e, msg = String.append "Failed to open file for overwrite: " e)
    \/ (exists e, msg = String.append "Write failed during overwrite: " e)
    \/ msg = "Flush failed"%string.
Proof.
  induction n as [|n IH]; intros buf drawn st msg s tr; simpl.
  { destruct (INT_MAX <=? passes opt)%Z; discriminate. }
  destruct (ofstream_open E st p) as [e|f].
  { intros H; injection H as <- _ _. left. now exists e. }
  destruct (write_loop E fuel opt seed p f size 0 buf drawn st)
    as [[[[[[|e] b1] d1] s1] tr1]|]; [| |discriminate].
  2:{ intros H; injection H as <- _ _. right. left. now exists e. }
  destruct (flush_to_disk E f); simpl.
  2:{ intros H; injection H as <- _ _. right. right. reflexivity. }
  destruct (pass_loop E fuel n opt seed p size b1 d1 s1) as [[[x2 s2] tr2]|] eqn:Hrec;
    [|discriminate].
  intros H; injection H as -> _ _. eapply IH. exact Hrec.
Qed.

(** X2. Whatever [wipe_file] returns is a success with the message "Wiped
    and deleted successfully" or a failure with one of eight messages:
    the four of the checks, the three of a pass (open, write, flush), or
    that of the removal. *)
Theorem wipe_file_results (E : env) (fuel : nat) (p : path) (opt : WipeOptions)
  (st st' : state) (r : WipeResult) (tr : list event) :
  wipe_file E fuel p opt st = Some (r, st', tr) ->
  (ok r = true /\ message r = "Wiped and deleted successfully"%string)
  \/ (ok r = false /\ wipe_file_failure (message r)).
Proof.
  unfold wipe_file, wipe_file_failure.
  destruct (fst (fs_exists E st p)); simpl.
  2:{ intros H; injection H as <- _ _. right. split; [reflexivity|]. now left. }
  destruct (fst (fs_is_regular_file E st p)); simpl.
  2:{ intros H; injection H as <- _ _. right. split; [reflexivity|]. right. now left. }
  destruct (fs_file_size E st p) as [size [e|]].
  { intros H; injection H as <- _ _. right. split; [reflexivity|].
    right. right. left. now exists e. }
  destruct (passes opt <=? 0)%Z.
  { intros H; injection H as <- _ _. right. split; [reflexivity|].
    right. right. right. now left. }
  destruct (pass_loop E fuel _ opt _ p size _ 0 _) as [[[[|msg] s1] tr1]|] eqn:Hloop;
    [| |discriminate].
  2:{ intros H; injection H as <- _ _. right. split; [reflexivity|].
      do 4 right. simpl.
      destruct (pass_loop_failure E opt _ p size fuel _ _ _ _ _ _ _ Hloop) as [H|[H|H]];
        tauto. }
  destruct (fs_remove E s1 p) as [[removed ec1] st2].
  destruct (negb removed || is_set ec1); intros H; injection H as <- _ _.
  - right. split; [reflexivity|]. do 7 right. eexists. reflexivity.
  - left. now split.
Qed.

Lemma wipe_file_results_witness :
  wipe_file_failure "Path does not exist".
Proof.
  destruct (wipe_file_results sample_env 0 ["tmp"; "missing"]%string sample_options
              sample_state sample_state (failure "Path does not exist") [] eq_refl)
    as [[H _]|[_ H]]; [discriminate|exact H].
Defined.

(** ** A failed wipe removes nothing *)

Lemma update_paths (fs : fs_table) (p : path) (n : node) :
  map fst (update fs p n) = map fst fs.
Proof.
  unfold update. rewrite map_map. apply map_ext. intros [q m]. simpl.
  now destruct (path_eqb q p).
Qed.

Lemma ofstream_write_paths (E : env) (st st1 : state) (f : path) (off : N)
  (data : list byte) :
  ofstream_write E st f off data = inr st1 ->
  map fst (st_fs st1) = map fst (st_fs st).
Proof.
  unfold ofstream_write. destruct data as [|c data].
  { intros H; injection H as <-. reflexivity. }
  destruct (e_fault E OpWrite f); [discriminate|].
  destruct (lookup (st_fs st) f) as [[old|r|t]|]; try discriminate.
  intros H; injection H as <-. apply update_paths.
Qed.

Lemma write_loop_paths (E : env) (opt : WipeOptions) (seed : N) (p f : path) :
  forall (fuel : nat) (remaining off : N) (buf : list byte) (drawn : nat) (st : state)
         x b d s tr,
    write_loop E fuel opt seed p f remaining off buf drawn st = Some (x, b, d, s, tr) ->
    map fst (st_fs s) = map fst (st_fs st) /\ filter is_remove tr = [].
Proof.
  induction fuel as [|fuel IH]; intros remaining off buf drawn st x b d s tr; simpl;
    [discriminate|].
  destruct (0 <? remaining)%N; [|intros H; injection H as _ _ _ <- <-; now split].
  destruct (fill E opt seed drawn buf _) as [buf1 drawn1].
  destruct (ofstream_write E st f off _) as [e|st1] eqn:Hwrite;
    [intros H; injection H as _ _ _ <- <-; now split|].
  destruct (write_loop E fuel opt seed p f _ _ buf1 drawn1 st1)
    as [[[[[x' b'] d'] s'] tr']|] eqn:Hrec; [|discriminate].
  intros H; injection H as _ _ _ <- <-.
  destruct (IH _ _ _ _ _ _ _ _ _ _ Hrec) as [Hpaths Hrm].
  split; [|exact Hrm].
  now rewrite Hpaths, (ofstream_write_paths E st st1 f off _ Hwrite).
Qed.

Lemma pass_loop_paths (E : env) (opt : WipeOptions) (seed : N) (p : path) (size : N)
  (fuel : nat) :
  forall (n : nat) (buf : list byte) (drawn : nat) (st : state) x s tr,
    pass_loop E fuel n opt seed p size buf drawn st = Some (x, s, tr) ->
    map fst (st_fs s) = map fst (st_fs st) /\ filter is_remove tr = [].
Proof.
  induction n as [|n IH]; intros buf drawn st x s tr; simpl.
  { destruct (INT_MAX <=? passes opt)%Z; [discriminate|].
    intros H; injection H as _ <- <-. now split. }
  destruct (ofstream_open E st p) as [e|f];
    [intros H; injection H as _ <- <-; now split|].
  destruct (write_loop E fuel opt seed p f size 0 buf drawn st)
    as [[[[[x1 b1] d1] s1] tr1]|] eqn:Hloop; [|discriminate].
  destruct (write_loop_paths E opt seed p f _ _ _ _ _ _ _ _ _ _ _ Hloop) as [Hpaths Hrm].
  destruct x1 as [|e]; [|intros H; injection H as _ <- <-; now split].
  destruct (flush_to_disk E f); simpl; [|intros H; injection H as _ <- <-; now split].
  destruct (pass_loop E fuel n opt seed p size b1 d1 s1) as [[[x2 s2] tr2]|] eqn:Hrec;
    [|discriminate].
  intros H; injection H as _ <- <-.
  destruct (IH _ _ _ _ _ _ Hrec) as [Hpaths2 Hrm2].
  split; [congruence|]. simpl. rewrite filter_app, Hrm. simpl. exact Hrm2.
Qed.

Lemma wipe_file_failed_keeps (E : env) (fuel : nat) (p : path)
  (opt : WipeOptions) (st st' : state) (r : WipeResult) (tr : list event) :
  wipe_file E fuel p opt st = Some (r, st', tr) ->
  ok r = false ->
  map fst (st_fs st') = map fst (st_fs st) /\ filter is_remove tr = [].
Proof.
  unfold wipe_file.
  destruct (fst (fs_exists E st p)); simpl;
    [|intros H; injection H as _ <- <-; now split].
  destruct (fst (fs_is_regular_file E st p)); simpl;
    [|intros H; injection H as _ <- <-; now split].
  destruct (fs_file_size E st p) as [size [e|]];
    [intros H; injection H as _ <- <-; now split|].
  destruct (passes opt <=? 0)%Z; [intros H; injection H as _ <- <-; now split|].
  destruct (pass_loop E fuel _ opt _ p size _ 0 _) as [[[x s1] tr1]|] eqn:Hloop;
    [|discriminate].
  apply pass_loop_paths in Hloop. simpl in Hloop.
  destruct x as [|msg]; [|intros H; injection H as _ <- <-; now intros _].
  destruct (fs_remove E s1 p) as [[removed ec1] st2] eqn:Hrm.
  destruct removed; simpl.
  - destruct (fs_remove_true E s1 st2 p ec1 Hrm) as [-> _]. simpl.
    intros H; injection H as <- _ _. discriminate.
  - intros H; injection H as _ <- <-. intros _.
    assert (st2 = s1).
    { revert Hrm. unfold fs_remove. destruct (e_fault E OpRemove p); [congruence|].
      destruct (lookup (st_fs s1) p) as [[data|rd|t]|]; try congruence.
      destruct (has_children (st_fs s1) p); congruence. }
    now subst st2.
Qed.

(** X3. A wipe that fails removes nothing: the table holds the same paths
    in the same order as before, and the trace has no removal. *)
Theorem wipe_file_failure_removes_nothing (E : env) (fuel : nat) (p : path)
  (opt : WipeOptions) (st st' : state) (r : WipeResult) (tr : list event) :
  wipe_file E fuel p opt st = Some (r, st', tr) ->
  ok r = false ->
  map fst (st_fs st') = map fst (st_fs st) /\ filter is_remove tr = [].
Proof. exact (wipe_file_failed_keeps E fuel p opt st st' r tr). Qed.

Lemma wipe_file_failure_removes_nothing_witness :
  exists r st' tr,
    wipe_file locked_env 6 ["tmp"; "locked"; "c"]%string sample_options sample_state
      = Some (r, st', tr)
    /\ map fst (st_fs st') = map fst (st_fs sample_state)
    /\ filter is_remove tr = [].
Proof.
  destruct (wipe_file locked_env 6 ["tmp"; "locked"; "c"]%string sample_options
              sample_state) as [[[r st'] tr]|] eqn:Hrun;
    [|vm_compute in Hrun; discriminate].
  exists r, st', tr. split; [reflexivity|].
  apply (wipe_file_failure_removes_nothing locked_env 6 ["tmp"; "locked"; "c"]%string
           sample_options sample_state st' r tr Hrun).
  vm_compute in Hrun. now injection Hrun as <- _ _.
Defined.

(** ** Where the bytes go *)

Lemma follow_lookup (E : env) (fs : fs_table) :
  forall (hops : nat) (p f : path) (n : node),
    follow E hops fs p = inr (Some (f, n)) ->
    lookup fs f = Some n
    /\ (forall t, n <> Link t)
    /\ ((p = f) \/ (exists t, lookup fs p = Some (Link t))).
Proof.
  induction hops as [|hops IH]; intros p f n; simpl;
    destruct (e_fault E OpStat p); try discriminate;
    destruct (lookup fs p) as [[data|r|t]|] eqn:Hlook; try discriminate;
    try (intros H; injection H as <- <-; repeat split;
         [exact Hlook|discriminate|now left]).
  intros H. destruct (IH _ _ _ H) as (Hf & Hn & _).
  repeat split; [exact Hf|exact Hn|right; now exists t].
Qed.

Lemma ofstream_open_file (E : env) (st : state) (p f : path) :
  ofstream_open E st p = inr f ->
  exists data, follow E symloop_max (st_fs st) p = inr (Some (f, File data)).
Proof.
  unfold ofstream_open. destruct (e_fault E OpOpen p); [discriminate|].
  destruct (follow E symloop_max (st_fs st) p) as [e|[[g [data|r|t]]|]];
    try discriminate.
  intros H; injection H as ->. now exists data.
Qed.

Lemma fs_file_size_open (E : env) (st : state) (p f : path) (size : N) :
  ofstream_open E st p = inr f ->
  fs_file_size E st p = (size, None) ->
  exists data, lookup (st_fs st) f = Some (File data)
               /\ N.of_nat (List.length data) = size.
Proof.
  intros Hopen. destruct (ofstream_open_file E st p f Hopen) as (data & Hfollow).
  unfold fs_file_size. rewrite Hfollow.
  destruct (e_fault E OpFileSize p); [discriminate|].
  intros H; injection H as <-. exists data. split; [|reflexivity].
  exact (proj1 (follow_lookup E _ _ _ _ _ Hfollow)).
Qed.

(** Rewriting the file [f] does not change where a path leads. *)
Lemma follow_rewritten (E : env) (fs fs' : fs_table) (f : path) (c0 c' : list byte) :
  (forall q, q <> f -> lookup fs' q = lookup fs q) ->
  lookup fs f = Some (File c0) ->
  lookup fs' f = Some (File c') ->
  forall (hops : nat) (p g : path) (data : list byte),
    follow E hops fs p = inr (Some (g, File data)) ->
    exists data', follow E hops fs' p = inr (Some (g, File data')).
Proof.
  intros Hframe Hf Hf'. induction hops as [|hops IH]; intros p g data; simpl;
    destruct (e_fault E OpStat p); try discriminate;
    (destruct (list_eq_dec string_dec p f) as [->|Hne];
     [rewrite Hf, Hf'; intros H; injection H as <- _; now eexists
     |rewrite (Hframe p Hne)]);
    destruct (lookup fs p) as [[d|r|t]|]; try discriminate;
    try (intros H; injection H as <- <-; now eexists).
  apply IH.
Qed.

Lemma ofstream_open_rewritten (E : env) (st s : state) (p f g : path)
  (c0 c' : list byte) :
  (forall q, q <> f -> lookup (st_fs s) q = lookup (st_fs st) q) ->
  lookup (st_fs st) f = Some (File c0) ->
  lookup (st_fs s) f = Some (File c') ->
  ofstream_open E st p = inr g ->
  ofstream_open E s p = inr g.
Proof.
  intros Hframe Hf Hf' Hopen.
  destruct (ofstream_open_file E st p g Hopen) as (data & Hfollow).
  destruct (follow_rewritten E _ _ f c0 c' Hframe Hf Hf' _ _ _ _ Hfollow)
    as (data' & Hfollow').
  revert Hopen. unfold ofstream_open. destruct (e_fault E OpOpen p); [discriminate|].
  now rewrite Hfollow'.
Qed.

Lemma length_overwrite (old new : list byte) (off : nat) :
  (off + List.length new <= List.length old)%nat ->
  List.length (overwrite old off new) = List.length old.
Proof.
  intros Hle. unfold overwrite.
  rewrite !length_app, length_firstn, length_skipn. lia.
Qed.

Lemma firstn_exact (l r : list byte) : firstn (List.length l) (l ++ r) = l.
Proof. induction l as [|x l IH]; simpl; [reflexivity|now rewrite IH]. Qed.

Lemma fs_remove_false (E : env) (st st' : state) (p : path) (ec : error_code) :
  fs_remove E st p = (false, ec, st') -> st' = st.
Proof.
  unfold fs_remove. destruct (e_fault E OpRemove p); [congruence|].
  destruct (lookup (st_fs st) p) as [[data|rd|t]|]; try congruence.
  destruct (has_children (st_fs st) p); congruence.
Qed.

(** The chunk loop works on one file: the file keeps its size, and when
    the loop is done it holds, from offset [off] on, the bytes written. *)
Lemma write_loop_content (E : env) (opt : WipeOptions) (seed : N) (p f : path) :
  forall (fuel : nat) (remaining off : N) (buf : list byte) (drawn : nat) (st : state)
         x b d s tr (c0 : list byte),
    lookup (st_fs st) f = Some (File c0) ->
    N.of_nat (List.length c0) = (off + remaining)%N ->
    write_loop E fuel opt seed p f remaining off buf drawn st = Some (x, b, d, s, tr) ->
    exists c',
      lookup (st_fs s) f = Some (File c')
      /\ List.length c' = List.length c0
      /\ st_entropy s = st_entropy st
      /\ (x = LoopDone -> c' = firstn (N.to_nat off) c0 ++ written tr).
Proof.
  induction fuel as [|fuel IH]; intros remaining off buf drawn st x b d s tr c0 Hf Hlen;
    simpl; [discriminate|].
  destruct (N.ltb_spec 0 remaining) as [Hpos|Hzero].
  2:{ intros H; injection H as _ _ _ <- <-. exists c0. repeat split; [exact Hf|].
      intros _. simpl. rewrite app_nil_r. symmetry. apply firstn_all2. lia. }
  set (chunk := N.min remaining (N.of_nat (List.length buf))).
  assert (Hchunk : (N.to_nat chunk <= List.length buf)%nat /\ (chunk <= remaining)%N)
    by (unfold chunk; lia).
  pose proof (fill_length E opt seed drawn buf (N.to_nat chunk) (proj1 Hchunk)) as Hbuf1.
  destruct (fill E opt seed drawn buf (N.to_nat chunk)) as [buf1 drawn1].
  simpl in Hbuf1.
  assert (Hdata : List.length (firstn (N.to_nat chunk) buf1) = N.to_nat chunk)
    by (rewrite length_firstn; lia).
  remember (firstn (N.to_nat chunk) buf1) as data eqn:Hdef.
  unfold ofstream_write. destruct data as [|c data].
  - destruct (write_loop E fuel opt seed p f _ _ buf1 drawn1 st)
      as [[[[[x' b'] d'] s'] tr']|] eqn:Hrec; [|discriminate].
    intros H; injection H as <- _ _ <- <-.
    simpl in Hdata.
    assert (Hlen' : N.of_nat (List.length c0) = (off + chunk + (remaining - chunk))%N)
      by lia.
    destruct (IH _ _ _ _ _ _ _ _ _ _ c0 Hf Hlen' Hrec) as (c' & Hc' & Hl & He & Hdone).
    exists c'. repeat split; try assumption.
    intros Hx. rewrite (Hdone Hx). simpl. f_equal. f_equal. lia.
  - destruct (e_fault E OpWrite f); cbv beta iota.
    { intros H; injection H as <- _ _ <- _. exists c0. repeat split; [exact Hf|].
      discriminate. }
    rewrite Hf. cbv beta iota.
    set (c1 := overwrite c0 (N.to_nat off) (c :: data)).
    set (st1 := {| st_fs := update (st_fs st) f (File c1); st_entropy := st_entropy st |}).
    destruct (write_loop E fuel opt seed p f _ _ buf1 drawn1 st1)
      as [[[[[x' b'] d'] s'] tr']|] eqn:Hrec; [|discriminate].
    intros H; injection H as <- _ _ <- <-.
    assert (Hc1 : List.length c1 = List.length c0)
      by (unfold c1; apply length_overwrite; lia).
    assert (Hf1 : lookup (st_fs st1) f = Some (File c1))
      by (simpl; eapply lookup_update_same; exact Hf).
    assert (Hlen' : N.of_nat (List.length c1) = (off + chunk + (remaining - chunk))%N)
      by lia.
    destruct (IH _ _ _ _ _ _ _ _ _ _ c1 Hf1 Hlen' Hrec)
      as (c' & Hc' & Hl & He & Hdone).
    exists c'. repeat split; [exact Hc'|congruence|exact He|].
    intros Hx. rewrite (Hdone Hx). cbn [written].
    rewrite (app_assoc (firstn (N.to_nat off) c0)). f_equal.
    unfold c1, overwrite. rewrite app_assoc.
    replace (N.to_nat (off + chunk))
      with (List.length (firstn (N.to_nat off) c0 ++ c :: data)).
    + apply firstn_exact.
    + rewrite length_app, length_firstn. lia.
Qed.

Lemma pass_loop_content (E : env) (opt : WipeOptions) (seed : N) (p f : path) (size : N)
  (fuel : nat) :
  forall (n : nat) (buf : list byte) (drawn : nat) (st : state) x s tr
         (c0 : list byte),
    ofstream_open E st p = inr f ->
    lookup (st_fs st) f = Some (File c0) ->
    N.of_nat (List.length c0) = size ->
    pass_loop E fuel n opt seed p size buf drawn st = Some (x, s, tr) ->
    exists c',
      lookup (st_fs s) f = Some (File c')
      /\ List.length c' = List.length c0
      /\ st_entropy s = st_entropy st
      /\ (forall q, q <> f -> lookup (st_fs s) q = lookup (st_fs st) q)
      /\ (x = PassesDone -> n <> 0%nat -> exists before, written tr = before ++ c').
Proof.
  induction n as [|n IH]; intros buf drawn st x s tr c0 Hopen Hf Hsize; simpl.
  { destruct (INT_MAX <=? passes opt)%Z; [discriminate|].
    intros H; injection H as _ <- _. exists c0. repeat split; try assumption.
    intros _ Hn. now destruct Hn. }
  rewrite Hopen.
  destruct (write_loop E fuel opt seed p f size 0 buf drawn st)
    as [[[[[x1 b1] d1] s1] tr1]|] eqn:Hloop; [|discriminate].
  destruct (write_loop_content E opt seed p f _ _ _ _ _ _ _ _ _ _ _ c0 Hf
              ltac:(rewrite N.add_0_l; exact Hsize) Hloop)
    as (c1 & Hf1 & Hlen1 & Hent1 & Hdone1).
  destruct (write_loop_frame E opt seed p f _ _ _ _ _ _ _ _ _ _ _ Hloop) as [Hframe1 _].
  destruct x1 as [|e].
  2:{ intros H; injection H as <- <- _. exists c1. repeat split; try assumption.
      discriminate. }
  destruct (flush_to_disk E f); simpl.
  2:{ intros H; injection H as <- <- _. exists c1. repeat split; try assumption.
      discriminate. }
  destruct (pass_loop E fuel n opt seed p size b1 d1 s1) as [[[x2 s2] tr2]|] eqn:Hrec;
    [|discriminate].
  intros H; injection H as <- <- <-.
  pose proof (ofstream_open_rewritten E st s1 p f f c0 c1 Hframe1 Hf Hf1 Hopen) as Hopen1.
  destruct (IH _ _ _ _ _ _ c1 Hopen1 Hf1 ltac:(now rewrite Hlen1) Hrec)
    as (c' & Hf' & Hlen' & Hent' & Hframe' & Hdone').
  exists c'. repeat split.
  - exact Hf'.
  - congruence.
  - congruence.
  - intros q Hq. now rewrite (Hframe' q Hq), (Hframe1 q Hq).
  - intros Hx _. cbn [written]. rewrite written_app. cbn [written].
    specialize (Hdone1 eq_refl). simpl in Hdone1.
    destruct n as [|n].
    + simpl in Hrec. destruct (INT_MAX <=? passes opt)%Z; [discriminate|].
      injection Hrec as _ <- <-. exists []. simpl. rewrite app_nil_r.
      rewrite Hf1 in Hf'. injection Hf' as <-. now symmetry.
    + destruct (Hdone' Hx ltac:(discriminate)) as (before & Hbefore).
      exists (written tr1 ++ before). now rewrite Hbefore, app_assoc.
Qed.

(** X4. [wipe_file] never changes the size of the file it overwrites.
    When the path leads to a file that can be opened, that file is still
    there with its size after every failure, and after a success as well
    when the path was a symbolic link to it: only the link is removed. *)
Theorem wipe_file_keeps_size (E : env) (fuel : nat) (p f : path) (opt : WipeOptions)
  (st st' : state) (r : WipeResult) (tr : list event) (c0 : list byte) :
  ofstream_open E st p = inr f ->
  lookup (st_fs st) f = Some (File c0) ->
  wipe_file E fuel p opt st = Some (r, st', tr) ->
  ok r = false \/ f <> p ->
  exists c', lookup (st_fs st') f = Some (File c')
             /\ List.length c' = List.length c0.
Proof.
  intros Hopen Hf. unfold wipe_file.
  destruct (fst (fs_exists E st p)); simpl;
    [|intros H; injection H as _ <- _; now exists c0].
  destruct (fst (fs_is_regular_file E st p)); simpl;
    [|intros H; injection H as _ <- _; now exists c0].
  destruct (fs_file_size E st p) as [size [e|]] eqn:Hsize;
    [intros H; injection H as _ <- _; now exists c0|].
  destruct (passes opt <=? 0)%Z; [intros H; injection H as _ <- _; now exists c0|].
  destruct (fs_file_size_open E st p f size Hopen Hsize) as (c0' & Hf0 & Hlen).
  rewrite Hf in Hf0. injection Hf0 as <-.
  destruct (pass_loop E fuel _ opt _ p size _ 0 _) as [[[x s1] tr1]|] eqn:Hloop;
    [|discriminate].
  destruct (pass_loop_content E opt _ p f size fuel _ _ _
              {| st_fs := st_fs st; st_entropy := S (st_entropy st) |}
              _ _ _ c0 Hopen Hf Hlen Hloop) as (c1 & Hf1 & Hlen1 & _).
  destruct x as [|msg]; [|intros H; injection H as _ <- _; now exists c1].
  destruct (fs_remove E s1 p) as [[[|] ec1] st2] eqn:Hrm; simpl.
  - destruct (fs_remove_true E s1 st2 p ec1 Hrm) as [-> Hst2]. simpl.
    intros H; injection H as <- <- _. intros [Hok|Hne]; [discriminate|].
    exists c1. split; [|exact Hlen1]. rewrite Hst2. simpl.
    now rewrite lookup_delete_other.
  - apply fs_remove_false in Hrm. subst st2.
    intros H; injection H as _ <- _. intros _. now exists c1.
Qed.

Lemma wipe_file_keeps_size_witness :
  exists st' tr c',
    wipe_file sample_env 6 ["tmp"; "to_file"]%string sample_options sample_state
      = Some ({| ok := true; message := "Wiped and deleted successfully" |}, st', tr)
    /\ lookup (st_fs st') ["tmp"; "a"]%string = Some (File c')
    /\ List.length c' = 5%nat.
Proof.
  destruct (wipe_file sample_env 6 ["tmp"; "to_file"]%string sample_options sample_state)
    as [[[r st'] tr]|] eqn:Hrun; [|vm_compute in Hrun; discriminate].
  destruct (wipe_file_keeps_size sample_env 6 ["tmp"; "to_file"]%string
              ["tmp"; "a"]%string sample_options sample_state st' r tr
              [x01; x02; x03; x04; x05] eq_refl eq_refl Hrun
              ltac:(right; discriminate)) as (c' & Hc' & Hlen).
  exists st', tr, c'. split; [|split; assumption].
  vm_compute in Hrun. injection Hrun as <- <- <-. reflexivity.
Defined.

(** X5. When every pass has completed and the removal then fails, the
    file is left in place with its old size, holding the bytes of the last
    pass; with the pattern [Zeros] and a block size of at least one, every
    byte of it is [0x00]. *)
Theorem wipe_file_content_destroyed (E : env) (fuel : nat) (p f : path)
  (opt : WipeOptions) (st st' st1 : state) (r : WipeResult) (tr tr1 : list event)
  (c0 : list byte) :
  checks_pass E st p opt ->
  ofstream_open E st p = inr f ->
  lookup (st_fs st) f = Some (File c0) ->
  wipe_file E fuel p opt st = Some (r, st', tr) ->
  overwrite_passes E fuel p opt st = Some (PassesDone, st1, tr1) ->
  remove_failed (fs_remove E st1 p) ->
  exists c' before,
    lookup (st_fs st') f = Some (File c')
    /\ List.length c' = List.length c0
    /\ written tr = before ++ c'
    /\ (pattern opt = Zeros -> (1 <= block_size opt)%N -> all_zero c').
Proof.
  intros Hchecks Hopen Hf Hrun Hpasses Hfail.
  rewrite (wipe_file_checked E fuel p opt st Hchecks), Hpasses in Hrun.
  destruct Hchecks as (_ & _ & Hsize & Hk).
  destruct (fs_file_size E st p) as [size ec] eqn:Hfs. simpl in Hsize. subst ec.
  destruct (fs_file_size_open E st p f size Hopen Hfs) as (c0' & Hf0 & Hlen).
  rewrite Hf in Hf0. injection Hf0 as <-.
  unfold overwrite_passes in Hpasses. rewrite Hfs in Hpasses. simpl in Hpasses.
  destruct (pass_loop_content E opt _ p f size fuel _ _ _
              {| st_fs := st_fs st; st_entropy := S (st_entropy st) |}
              _ _ _ c0 Hopen Hf Hlen Hpasses) as (c' & Hf' & Hlen' & _ & _ & Hdone).
  destruct (Hdone eq_refl ltac:(lia)) as (before & Hbefore).
  destruct (fs_remove E st1 p) as [[[|] ec1] st2] eqn:Hrm.
  { destruct (fs_remove_true E st1 st2 p ec1 Hrm) as [-> _].
    destruct Hfail as [H|H]; simpl in H; congruence. }
  apply fs_remove_false in Hrm. subst st2. simpl in Hrun.
  injection Hrun as _ <- <-.
  exists c', before. repeat split; try assumption.
  intros Hpat Hblock.
  assert (Hbuf : (0 < List.length (repeat x00 (N.to_nat (block_size opt))))%nat)
    by (rewrite repeat_length; lia).
  destruct (pass_loop_zeros E opt _ p size fuel Hpat _ _ _ _ _ _ _ Hbuf Hpasses)
    as [Hzero _].
  unfold all_zero in *. rewrite Hbefore in Hzero. now apply Forall_app in Hzero.
Qed.

Lemma wipe_file_content_destroyed_witness :
  exists st' tr,
    wipe_file locked_env 6 ["tmp"; "locked"; "c"]%string sample_options sample_state
      = Some (failure "Failed to delete file: Permission denied", st', tr)
    /\ exists c' before,
         lookup (st_fs st') ["tmp"; "locked"; "c"]%string = Some (File c')
         /\ List.length c' = 2%nat
         /\ written tr = before ++ c'
         /\ all_zero c'.
Proof.
  destruct (wipe_file locked_env 6 ["tmp"; "locked"; "c"]%string sample_options
              sample_state) as [[[r st'] tr]|] eqn:Hrun;
    [|vm_compute in Hrun; discriminate].
  destruct (overwrite_passes locked_env 6 ["tmp"; "locked"; "c"]%string sample_options
              sample_state) as [[[[|msg] st1] tr1]|] eqn:Hpasses;
    try (vm_compute in Hpasses; discriminate).
  destruct (wipe_file_content_destroyed locked_env 6 ["tmp"; "locked"; "c"]%string
              ["tmp"; "locked"; "c"]%string sample_options sample_state st' st1 r tr tr1
              [x07; x08]
              ltac:(repeat split; vm_compute; congruence) eq_refl eq_refl Hrun Hpasses)
    as (c' & before & Hc' & Hlen & Hw & Hzero).
  { left. vm_compute in Hpasses. injection Hpasses as <- _. reflexivity. }
  exists st', tr. split.
  - vm_compute in Hrun. injection Hrun as <- <- <-. reflexivity.
  - exists c', before. repeat split; try assumption.
    apply Hzero; [reflexivity|vm_compute; discriminate].
Defined.

(** ** The random pattern *)

Lemma write_loop_random (E : env) (opt : WipeOptions) (seed : N) (p f : path) :
  pattern opt = Random ->
  forall (fuel : nat) (remaining off : N) (buf : list byte) (drawn : nat) (st : state)
         b d s tr,
    (0 < List.length buf)%nat ->
    write_loop E fuel opt seed p f remaining off buf drawn st
      = Some (LoopDone, b, d, s, tr) ->
    List.length b = List.length buf
    /\ d = (drawn + N.to_nat remaining)%nat
    /\ written tr = map (e_draw E seed) (seq drawn (N.to_nat remaining)).
Proof.
  intros Hpat. induction fuel as [|fuel IH];
    intros remaining off buf drawn st b d s tr Hbuf; simpl; [discriminate|].
  destruct (N.ltb_spec 0 remaining) as [Hpos|Hzero].
  2:{ intros H; injection H as <- <- _ <-.
      replace (N.to_nat remaining) with 0%nat by lia. repeat split. lia. }
  set (chunk := N.min remaining (N.of_nat (List.length buf))).
  assert (Hchunk : (N.to_nat chunk <= List.length buf)%nat /\ (1 <= chunk <= remaining)%N)
    by (unfold chunk; lia).
  pose proof (fill_length E opt seed drawn buf (N.to_nat chunk) (proj1 Hchunk)) as Hlen.
  unfold fill in *. rewrite Hpat in *. simpl in Hlen.
  assert (Hdata : firstn (N.to_nat chunk)
                    (map (e_draw E seed) (seq drawn (N.to_nat chunk))
                       ++ skipn (N.to_nat chunk) buf)
                  = map (e_draw E seed) (seq drawn (N.to_nat chunk))).
  { rewrite <- (firstn_exact (map (e_draw E seed) (seq drawn (N.to_nat chunk)))
                  (skipn (N.to_nat chunk) buf)) at 2.
    now rewrite length_map, length_seq. }
  rewrite Hdata.
  destruct (ofstream_write E st f off _) as [e|st1]; [discriminate|].
  destruct (write_loop E fuel opt seed p f _ _ _ _ st1)
    as [[[[[x' b'] d'] s'] tr']|] eqn:Hrec; [|discriminate].
  intros H; injection H as -> <- <- _ <-.
  assert (Hbuf' : (0 < List.length (map (e_draw E seed) (seq drawn (N.to_nat chunk))
                                     ++ skipn (N.to_nat chunk) buf))%nat) by lia.
  destruct (IH _ _ _ _ _ _ _ _ _ Hbuf' Hrec) as (Hb & Hd & Hw).
  repeat split; [congruence|lia|].
  cbn [written]. rewrite Hw, <- map_app, <- seq_app. do 2 f_equal. lia.
Qed.

Lemma pass_loop_random (E : env) (opt : WipeOptions) (seed : N) (p : path) (size : N)
  (fuel : nat) :
  pattern opt = Random ->
  forall (n : nat) (buf : list byte) (drawn : nat) (st : state) s tr,
    (0 < List.length buf)%nat ->
    pass_loop E fuel n opt seed p size buf drawn st = Some (PassesDone, s, tr) ->
    written tr = map (e_draw E seed) (seq drawn (n * N.to_nat size)).
Proof.
  intros Hpat. induction n as [|n IH]; intros buf drawn st s tr Hbuf; simpl.
  { destruct (INT_MAX <=? passes opt)%Z; [discriminate|].
    intros H; injection H as _ <-. reflexivity. }
  destruct (ofstream_open E st p) as [e|f]; [discriminate|].
  destruct (write_loop E fuel opt seed p f size 0 buf drawn st)
    as [[[[[[|e] b1] d1] s1] tr1]|] eqn:Hloop; try discriminate.
  destruct (write_loop_random E opt seed p f Hpat _ _ _ _ _ _ _ _ _ _ Hbuf Hloop)
    as (Hb & Hd & Hw).
  destruct (flush_to_disk E f); simpl; [|discriminate].
  destruct (pass_loop E fuel n opt seed p size b1 d1 s1) as [[[x2 s2] tr2]|] eqn:Hrec;
    [|discriminate].
  intros H; injection H as -> _ <-.
  cbn [written]. rewrite written_app. cbn [written].
  assert (Hbuf1 : (0 < List.length b1)%nat) by lia.
  rewrite (IH _ _ _ _ _ Hbuf1 Hrec), Hw, Hd, <- map_app, <- seq_app.
  reflexivity.
Qed.

Lemma pass_loop_entropy (E : env) (opt : WipeOptions) (seed : N) (p : path) (size : N)
  (fuel : nat) :
  forall (n : nat) (buf : list byte) (drawn : nat) (st : state) x s tr,
    pass_loop E fuel n opt seed p size buf drawn st = Some (x, s, tr) ->
    st_entropy s = st_entropy st.
Proof.
  assert (Hwrite : forall st f off data st1,
             ofstream_write E st f off data = inr st1 ->
             st_entropy st1 = st_entropy st).
  { intros st f off data st1. unfold ofstream_write. destruct data.
    - now intros H; injection H as <-.
    - destruct (e_fault E OpWrite f); [discriminate|].
      destruct (lookup (st_fs st) f) as [[old|r|t]|]; try discriminate.
      now intros H; injection H as <-. }
  assert (Hloop : forall f fuel' remaining off buf drawn st x b d s tr,
             write_loop E fuel' opt seed p f remaining off buf drawn st
               = Some (x, b, d, s, tr) ->
             st_entropy s = st_entropy st).
  { intros f. induction fuel' as [|fuel' IH];
      intros remaining off buf drawn st x b d s tr; simpl; [discriminate|].
    destruct (0 <? remaining)%N; [|now intros H; injection H as _ _ _ <- _].
    destruct (fill E opt seed drawn buf _) as [buf1 drawn1].
    destruct (ofstream_write E st f off _) as [e|st1] eqn:Hw;
      [now intros H; injection H as _ _ _ <- _|].
    destruct (write_loop E fuel' opt seed p f _ _ buf1 drawn1 st1)
      as [[[[[x' b'] d'] s'] tr']|] eqn:Hrec; [|discriminate].
    intros H; injection H as _ _ _ <- _.
    rewrite (IH _ _ _ _ _ _ _ _ _ _ Hrec). eapply Hwrite. exact Hw. }
  induction n as [|n IH]; intros buf drawn st x s tr; simpl.
  { destruct (INT_MAX <=? passes opt)%Z; [discriminate|].
    now intros H; injection H as _ <- _. }
  destruct (ofstream_open E st p) as [e|f]; [now intros H; injection H as _ <- _|].
  destruct (write_loop E fuel opt seed p f size 0 buf drawn st)
    as [[[[[x1 b1] d1] s1] tr1]|] eqn:Hl; [|discriminate].
  apply Hloop in Hl.
  destruct x1 as [|e]; [|now intros H; injection H as _ <- _].
  destruct (flush_to_disk E f); simpl; [|now intros H; injection H as _ <- _].
  destruct (pass_loop E fuel n opt seed p size b1 d1 s1) as [[[x2 s2] tr2]|] eqn:Hrec;
    [|discriminate].
  intros H; injection H as _ <- _. rewrite (IH _ _ _ _ _ _ Hrec). exact Hl.
Qed.

(** X6. With the pattern [Random] and a block size of at least one, a
    successful wipe of a file of [size] bytes with [k] passes writes the
    first [k * size] values of one generator, in order and each of them
    once; the generator is seeded with one value of the random device,
    which is the only one the call reads. *)
Theorem wipe_file_random_draws (E : env) (fuel : nat) (p : path) (opt : WipeOptions)
  (st st' : state) (r : WipeResult) (tr : list event) :
  pattern opt = Random ->
  (1 <= block_size opt)%N ->
  wipe_file E fuel p opt st = Some (r, st', tr) ->
  ok r = true ->
  written tr
  = map (e_draw E (e_seed E (st_entropy st)))
      (seq 0 (Z.to_nat (passes opt) * N.to_nat (fst (fs_file_size E st p))))
  /\ st_entropy st' = S (st_entropy st).
Proof.
  intros Hpat Hblock Hrun Hok.
  rewrite (wipe_file_checked E fuel p opt st
             (wipe_file_ok_checks E fuel p opt st st' r tr Hrun Hok)) in Hrun.
  unfold overwrite_passes in Hrun.
  destruct (pass_loop E fuel _ opt _ p _ _ 0 _) as [[[[|msg] s1] tr1]|] eqn:Hloop;
    try discriminate.
  2:{ injection Hrun as <- _ _. discriminate. }
  pose proof (pass_loop_entropy E opt _ p _ fuel _ _ _ _ _ _ _ Hloop) as Hent.
  apply (pass_loop_random E opt _ p _ fuel Hpat) in Hloop;
    [|rewrite repeat_length; lia].
  destruct (fs_remove E s1 p) as [[[|] ec1] st2] eqn:Hrm; simpl in Hrun.
  2:{ injection Hrun as <- _ _. discriminate. }
  destruct (fs_remove_true E s1 st2 p ec1 Hrm) as [-> Hst2]. simpl in Hrun.
  injection Hrun as _ <- <-. split.
  - rewrite written_app. simpl. now rewrite app_nil_r.
  - rewrite Hst2. simpl. exact Hent.
Qed.

Lemma wipe_file_random_draws_witness :
  exists st' tr,
    wipe_file lettered_env 6 ["tmp"; "a"]%string random_options sample_state
      = Some ({| ok := true; message := "Wiped and deleted successfully" |}, st', tr)
    /\ written tr = [x61; x62; x63; x64; x65; x66; x67; x68; x69; x6a]
    /\ st_entropy st' = 1%nat.
Proof.
  destruct (wipe_file lettered_env 6 ["tmp"; "a"]%string random_options sample_state)
    as [[[r st'] tr]|] eqn:Hrun; [|vm_compute in Hrun; discriminate].
  assert (Hok : ok r = true) by (vm_compute in Hrun; now injection Hrun as <- _ _).
  destruct (wipe_file_random_draws lettered_env 6 ["tmp"; "a"]%string random_options
              sample_state st' r tr eq_refl ltac:(vm_compute; discriminate) Hrun Hok)
    as [Hw Hent].
  exists st', tr. split; [|split; [exact Hw|exact Hent]].
  vm_compute in Hrun. injection Hrun as <- <- <-. reflexivity.
Defined.

(** ** A wipe that meets no failure *)





(** ** The zero pattern, pass by pass *)



(** ** A sweep only removes entries and rewrites files *)

Lemma only_shrinks_refl (fs : fs_table) : only_shrinks fs fs.
Proof. intros q. right. now left. Qed.

Lemma only_shrinks_trans (fs1 fs2 fs3 : fs_table) :
  only_shrinks fs1 fs2 -> only_shrinks fs2 fs3 -> only_shrinks fs1 fs3.
Proof.
  intros H12 H23 q.
  destruct (H23 q) as [Hnone|[Hsame|(d2 & d3 & Hd2 & Hd3)]]; [now left| |].
  - rewrite Hsame. apply H12.
  - destruct (H12 q) as [Hnone|[Hsame|(d1 & d2' & Hd1 & _)]]; [congruence| |].
    + right. right. exists d2, d3. split; congruence.
    + right. right. now exists d1, d3.
Qed.

Lemma fs_remove_shrinks (E : env) (st st' : state) (p : path) (removed : bool)
  (ec : error_code) :
  fs_remove E st p = (removed, ec, st') -> only_shrinks (st_fs st) (st_fs st').
Proof.
  intros Hrm q. destruct (list_eq_dec string_dec q p) as [->|Hne].
  - destruct removed.
    + destruct (fs_remove_true E st st' p ec Hrm) as [_ ->]. left. simpl.
      apply lookup_delete_same.
    + apply fs_remove_false in Hrm. subst st'. right. now left.
  - right. left. exact (fs_remove_frame E st st' p removed ec Hrm q Hne).
Qed.

Lemma wipe_file_shrinks (E : env) (fuel : nat) (p : path) (opt : WipeOptions)
  (st st' : state) (r : WipeResult) (tr : list event) :
  wipe_file E fuel p opt st = Some (r, st', tr) ->
  only_shrinks (st_fs st) (st_fs st').
Proof.
  unfold wipe_file.
  destruct (fst (fs_exists E st p)); simpl;
    [|intros H; injection H as _ <- _; apply only_shrinks_refl].
  destruct (fst (fs_is_regular_file E st p)); simpl;
    [|intros H; injection H as _ <- _; apply only_shrinks_refl].
  destruct (fs_file_size E st p) as [size [e|]] eqn:Hsize;
    [intros H; injection H as _ <- _; apply only_shrinks_refl|].
  destruct (passes opt <=? 0)%Z;
    [intros H; injection H as _ <- _; apply only_shrinks_refl|].
  set (st0 := {| st_fs := st_fs st; st_entropy := S (st_entropy st) |}).
  destruct (pass_loop E fuel _ opt _ p size _ 0 st0) as [[[x s1] tr1]|] eqn:Hloop;
    [|discriminate].
  assert (Hpasses : only_shrinks (st_fs st) (st_fs s1)).
  { destruct (ofstream_open E st0 p) as [e|f] eqn:Hopen.
    - destruct (Z.to_nat (passes opt)) as [|n]; simpl in Hloop.
      + destruct (INT_MAX <=? passes opt)%Z; [discriminate|].
        injection Hloop as _ <- _. apply only_shrinks_refl.
      + rewrite Hopen in Hloop. injection Hloop as _ <- _. apply only_shrinks_refl.
    - destruct (fs_file_size_open E st p f size Hopen Hsize) as (c0 & Hf & Hlen).
      destruct (pass_loop_content E opt _ p f size fuel _ _ _ st0 _ _ _ c0
                  Hopen Hf Hlen Hloop) as (c1 & Hf1 & _ & _ & Hframe & _).
      intros q. destruct (list_eq_dec string_dec q f) as [->|Hne].
      + right. right. now exists c0, c1.
      + right. left. exact (Hframe q Hne). }
  destruct x as [|msg]; [|intros H; injection H as _ <- _; exact Hpasses].
  destruct (fs_remove E s1 p) as [[removed ec1] st2] eqn:Hrm.
  pose proof (fs_remove_shrinks E s1 st2 p removed ec1 Hrm) as Hremove.
  destruct (negb removed || is_set ec1); intros H; injection H as _ <- _;
    exact (only_shrinks_trans _ _ _ Hpasses Hremove).
Qed.

Lemma execute_wipe_shrinks (E : env) (fuel : nat) (opt : WipeOptions) :
  forall (ps : list path) (st : state) (wiped failed : N) w f st' tr,
    execute_wipe E fuel opt st ps wiped failed = Some (w, f, st', tr) ->
    only_shrinks (st_fs st) (st_fs st').
Proof.
  induction ps as [|p ps IH]; intros st wiped failed w f st' tr.
  { simpl. intros H; injection H as _ _ <- _. apply only_shrinks_refl. }
  rewrite execute_wipe_cons.
  destruct (plain_file E st p); [|apply IH].
  destruct (wipe_file E fuel p opt st) as [[[res st1] tr1]|] eqn:Hwipe; [|discriminate].
  apply wipe_file_shrinks in Hwipe.
  destruct (ok res).
  - destruct (execute_wipe E fuel opt st1 ps (incr64 wiped) failed)
      as [[[[w2 f2] s2] tr2]|] eqn:Hrec; [|discriminate].
    intros H; injection H as _ _ <- _.
    exact (only_shrinks_trans _ _ _ Hwipe (IH _ _ _ _ _ _ _ Hrec)).
  - destruct (execute_wipe E fuel opt st1 ps wiped (incr64 failed))
      as [[[[w2 f2] s2] tr2]|] eqn:Hrec; [|discriminate].
    intros H; injection H as _ _ <- _.
    exact (only_shrinks_trans _ _ _ Hwipe (IH _ _ _ _ _ _ _ Hrec)).
Qed.

Lemma remove_dirs_shrinks (E : env) :
  forall (ps : list path) (st st' : state) (tr : list event),
    remove_dirs E st ps = (st', tr) -> only_shrinks (st_fs st) (st_fs st').
Proof.
  induction ps as [|p ps IH]; intros st st' tr; simpl.
  { intros H; injection H as <- _. apply only_shrinks_refl. }
  destruct (fs_remove E st p) as [[removed ec] st1] eqn:Hrm.
  destruct (remove_dirs E st1 ps) as [st2 tr2] eqn:Hrec.
  intros H; injection H as <- _.
  exact (only_shrinks_trans _ _ _ (fs_remove_shrinks E st st1 p removed ec Hrm)
           (IH _ _ _ Hrec)).
Qed.

(** What a sweep that returns has done: nothing to the table, or the
    second and the third pass. *)
Lemma wipe_directory_inv (E : env) (fuel : nat) (d : path) (opt : WipeOptions)
  (dry_run yes : bool) (st st' : state) (r : WipeResult) (tr : list event) :
  wipe_directory E fuel d opt dry_run yes st = Some (r, st', tr) ->
  (st' = st /\ (ok r = false \/ dry_run = true))
  \/ (dry_run = false
      /\ existing_directory E st d
      /\ exists w f st1 tr2 tr3,
           execute_wipe E fuel opt st (recursive_directory_iterator E st d) 0 0
             = Some (w, f, st1, tr2)
           /\ remove_dirs E st1
                (rev (collect_dirs E st1 (recursive_directory_iterator E st1 d)))
              = (st', tr3)
           /\ ok r = (f =? 0)%N
           /\ wipe_calls tr = wipe_calls tr2).
Proof.
  unfold wipe_directory.
  destruct (fs_exists E st d) as [found ec] eqn:Hex.
  destruct (negb found || is_set ec) eqn:Hfound.
  { intros H; injection H as <- <- _. left. split; [reflexivity|now left]. }
  destruct (fs_is_directory E st d) as [isd ec'] eqn:Hisd.
  destruct (negb isd || is_set ec') eqn:Hdir.
  { intros H; injection H as <- <- _. left. split; [reflexivity|now left]. }
  assert (Hexist : existing_directory E st d).
  { unfold existing_directory. revert Hisd. unfold fs_is_directory.
    destruct (fs_status E st d) as [[| | | |] e]; simpl; intros H; injection H as <- <-;
      try discriminate. reflexivity. }
  destruct (is_dangerous_dir E d).
  { intros H; injection H as <- <- _. left. split; [reflexivity|now left]. }
  destruct (negb dry_run && negb yes).
  { intros H; injection H as <- <- _. left. split; [reflexivity|now left]. }
  destruct (enumerate_files E dry_run st _ 0) as [total tr1] eqn:Henum.
  destruct dry_run.
  { intros H; injection H as _ <- _. left. split; [reflexivity|now right]. }
  destruct (execute_wipe E fuel opt st _ 0 0) as [[[[w f] st1] tr2]|] eqn:Hexec;
    [|discriminate].
  destruct (remove_dirs E st1 _) as [st2 tr3] eqn:Hclean.
  intros H; injection H as <- <- <-.
  right. split; [reflexivity|]. split; [exact Hexist|].
  exists w, f, st1, tr2, tr3.
  split; [reflexivity|]. split; [exact Hclean|]. split; [reflexivity|].
  pose proof (enumerate_files_counts E false st
                (recursive_directory_iterator E st d) 0 0) as Hcount.
  change ((0 + 0) mod 2 ^ 64)%N with 0%N in Hcount.
  rewrite Henum in Hcount. injection Hcount as _ ->.
  destruct (io_trace_silent tr3 (remove_dirs_io E _ _ _ _ Hclean)) as [Hcalls3 _].
  simpl. rewrite wipe_calls_app. simpl. rewrite Hcalls3. apply app_nil_r.
Qed.

Lemma wipe_directory_only_shrinks_lemma (E : env) (fuel : nat) (d : path)
  (opt : WipeOptions) (dry_run yes : bool) (st st' : state) (r : WipeResult)
  (tr : list event) :
  wipe_directory E fuel d opt dry_run yes st = Some (r, st', tr) ->
  only_shrinks (st_fs st) (st_fs st').
Proof.
  intros Hrun.
  destruct (wipe_directory_inv E fuel d opt dry_run yes st st' r tr Hrun)
    as [[-> _]|(_ & _ & w & f & st1 & tr2 & tr3 & Hexec & Hclean & _)].
  - apply only_shrinks_refl.
  - exact (only_shrinks_trans _ _ _ (execute_wipe_shrinks E fuel opt _ _ _ _ _ _ _ _ Hexec)
             (remove_dirs_shrinks E _ _ _ _ Hclean)).
Qed.

(** X8. A sweep, in any mode, never creates an entry and never changes a
    directory or a symbolic link: every path of the table is afterwards
    gone, or as it was, or a file that was a file before. *)
Theorem wipe_directory_only_shrinks (E : env) (fuel : nat) (d : path)
  (opt : WipeOptions) (dry_run yes : bool) (st st' : state) (r : WipeResult)
  (tr : list event) :
  wipe_directory E fuel d opt dry_run yes st = Some (r, st', tr) ->
  only_shrinks (st_fs st) (st_fs st').
Proof. exact (wipe_directory_only_shrinks_lemma E fuel d opt dry_run yes st st' r tr). Qed.

Lemma wipe_directory_only_shrinks_witness :
  exists r st' tr,
    wipe_directory locked_env 6 ["tmp"]%string sample_options false true sample_state
      = Some (r, st', tr)
    /\ only_shrinks (st_fs sample_state) (st_fs st').
Proof.
  destruct (wipe_directory locked_env 6 ["tmp"]%string sample_options false true
              sample_state) as [[[r st'] tr]|] eqn:Hrun;
    [|vm_compute in Hrun; discriminate].
  exists r, st', tr. split; [reflexivity|].
  exact (wipe_directory_only_shrinks locked_env 6 ["tmp"]%string sample_options
           false true sample_state st' r tr Hrun).
Defined.

(** ** What a sweep can reach *)

Lemma In_lookup (fs : fs_table) (q : path) (n : node) :
  In (q, n) fs -> exists m, lookup fs q = Some m.
Proof.
  induction fs as [|[r k] fs IH]; simpl; [contradiction|].
  intros [H|H].
  - injection H as -> ->. rewrite path_eqb_refl. now eexists.
  - destruct (path_eqb r q); [now eexists|now apply IH].
Qed.

Lemma follow_shrinks (E : env) (fs fs1 : fs_table) :
  only_shrinks fs fs1 ->
  forall (hops : nat) (p g : path) (rd : bool),
    follow E hops fs1 p = inr (Some (g, Dir rd)) ->
    follow E hops fs p = inr (Some (g, Dir rd)).
Proof.
  intros Hshrinks. induction hops as [|hops IH]; intros p g rd; simpl;
    destruct (e_fault E OpStat p); try discriminate;
    destruct (Hshrinks p) as [Hq|[Hq|(c & c' & Hc & Hq)]]; rewrite Hq;
    try discriminate.
  - exact (fun H => H).
  - destruct (lookup fs p) as [[c|r|t]|]; try exact (fun H => H). apply IH.
Qed.

Lemma reachable_shrinks (fs fs1 : fs_table) :
  only_shrinks fs fs1 ->
  forall (rest cur : path), reachable fs1 cur rest = true -> reachable fs cur rest = true.
Proof.
  intros Hshrinks. induction rest as [|c rest IH]; intros cur; simpl; [discriminate|].
  destruct rest as [|c' rest]; [reflexivity|].
  destruct (Hshrinks (cur ++ [c])) as [Hq|[Hq|(d & d' & Hd & Hq)]]; rewrite Hq;
    try discriminate.
  destruct (lookup fs (cur ++ [c])) as [[data|[|]|t]|]; try discriminate. apply IH.
Qed.

(** After entries were removed or files rewritten, an iteration reports
    nothing it would not have reported before. *)
Lemma iterator_shrinks (E : env) (st st1 : state) (d q : path) :
  only_shrinks (st_fs st) (st_fs st1) ->
  In q (recursive_directory_iterator E st1 d) ->
  In q (recursive_directory_iterator E st d).
Proof.
  intros Hshrinks Hin.
  apply recursive_directory_iterator_reports in Hin.
  destruct Hin as (base & rest & n & Hfollow & -> & Hin & Hreach).
  apply recursive_directory_iterator_reports.
  destruct (In_lookup _ _ _ Hin) as (m & Hm).
  assert (Hpresent : exists n', lookup (st_fs st) (base ++ rest) = Some n').
  { destruct (Hshrinks (base ++ rest)) as [Hq|[Hq|(c & c' & Hc & _)]].
    - congruence.
    - rewrite <- Hq. now exists m.
    - eexists. exact Hc. }
  destruct Hpresent as (n' & Hn').
  exists base, rest, n'. repeat split.
  - exact (follow_shrinks E _ _ Hshrinks _ _ _ _ Hfollow).
  - exact (lookup_In _ _ _ Hn').
  - exact (reachable_shrinks _ _ Hshrinks _ _ Hreach).
Qed.

Lemma execute_wipe_frame (E : env) (fuel : nat) (opt : WipeOptions) (q : path) :
  forall (ps : list path) (st : state) (wiped failed : N) w f st' tr,
    execute_wipe E fuel opt st ps wiped failed = Some (w, f, st', tr) ->
    ~ In q ps ->
    lookup (st_fs st') q = lookup (st_fs st) q.
Proof.
  induction ps as [|p ps IH]; intros st wiped failed w f st' tr.
  { simpl. intros H; injection H as _ _ <- _. reflexivity. }
  rewrite execute_wipe_cons. intros Hrun Hnotin.
  assert (Hne : q <> p) by (intros ->; apply Hnotin; now left).
  assert (Hrest : ~ In q ps) by (intros H; apply Hnotin; now right).
  destruct (plain_file E st p) eqn:Hplain; [|exact (IH _ _ _ _ _ _ _ Hrun Hrest)].
  destruct (wipe_file E fuel p opt st) as [[[res st1] tr1]|] eqn:Hwipe; [|discriminate].
  pose proof (wipe_file_frame E fuel p opt st st1 res tr1 Hplain Hwipe q Hne) as Hframe.
  destruct (ok res).
  - destruct (execute_wipe E fuel opt st1 ps (incr64 wiped) failed)
      as [[[[w2 f2] s2] tr2]|] eqn:Hrec; [|discriminate].
    injection Hrun as _ _ <- _. now rewrite (IH _ _ _ _ _ _ _ Hrec Hrest).
  - destruct (execute_wipe E fuel opt st1 ps wiped (incr64 failed))
      as [[[[w2 f2] s2] tr2]|] eqn:Hrec; [|discriminate].
    injection Hrun as _ _ <- _. now rewrite (IH _ _ _ _ _ _ _ Hrec Hrest).
Qed.

Lemma remove_dirs_frame (E : env) (q : path) :
  forall (ps : list path) (st st' : state) (tr : list event),
    remove_dirs E st ps = (st', tr) ->
    ~ In q ps ->
    lookup (st_fs st') q = lookup (st_fs st) q.
Proof.
  induction ps as [|p ps IH]; intros st st' tr; simpl.
  { intros H; injection H as <- _. reflexivity. }
  destruct (fs_remove E st p) as [[removed ec] st1] eqn:Hrm.
  destruct (remove_dirs E st1 ps) as [st2 tr2] eqn:Hrec.
  intros H; injection H as <- _. intros Hnotin.
  rewrite (IH _ _ _ Hrec ltac:(tauto)).
  apply (fs_remove_frame E st st1 p removed ec Hrm). intros ->. tauto.
Qed.

(** X9. A sweep stays inside what its iteration reports: an entry that
    the recursive iteration over the directory does not report (anything
    outside the directory, the directory itself, anything that can only be
    reached through a symbolic link or an unreadable directory) is
    afterwards exactly as it was. *)
Theorem wipe_directory_stays_inside (E : env) (fuel : nat) (d : path)
  (opt : WipeOptions) (dry_run yes : bool) (st st' : state) (r : WipeResult)
  (tr : list event) (q : path) :
  wipe_directory E fuel d opt dry_run yes st = Some (r, st', tr) ->
  ~ In q (recursive_directory_iterator E st d) ->
  lookup (st_fs st') q = lookup (st_fs st) q.
Proof.
  intros Hrun Hout.
  destruct (wipe_directory_inv E fuel d opt dry_run yes st st' r tr Hrun)
    as [[-> _]|(_ & _ & w & f & st1 & tr2 & tr3 & Hexec & Hclean & _)];
    [reflexivity|].
  rewrite (remove_dirs_frame E q _ _ _ _ Hclean).
  - exact (execute_wipe_frame E fuel opt q _ _ _ _ _ _ _ _ Hexec Hout).
  - intros Hin. apply in_rev in Hin. apply filter_In in Hin. destruct Hin as [Hin _].
    apply Hout.
    exact (iterator_shrinks E st st1 d q
             (execute_wipe_shrinks E fuel opt _ _ _ _ _ _ _ _ Hexec) Hin).
Qed.

Lemma wipe_directory_stays_inside_witness :
  exists r st' tr,
    wipe_directory sample_env 6 ["tmp"]%string sample_options false true sample_state
      = Some (r, st', tr)
    /\ lookup (st_fs st') ["other"; "d"]%string = Some (File [x09]).
Proof.
  destruct (wipe_directory sample_env 6 ["tmp"]%string sample_options false true
              sample_state) as [[[r st'] tr]|] eqn:Hrun;
    [|vm_compute in Hrun; discriminate].
  exists r, st', tr. split; [reflexivity|].
  rewrite (wipe_directory_stays_inside sample_env 6 ["tmp"]%string sample_options
             false true sample_state st' r tr ["other"; "d"]%string Hrun).
  - reflexivity.
  - vm_compute. intuition discriminate.
Defined.

(** ** The preview and the sweep *)

(** A sweep that passed the gate, taken apart. *)
Lemma wipe_directory_sweep (E : env) (fuel : nat) (d : path) (opt : WipeOptions)
  (st st' : state) (r : WipeResult) (tr : list event) :
  existing_directory E st d ->
  is_dangerous_dir E d = false ->
  wipe_directory E fuel d opt false true st = Some (r, st', tr) ->
  exists w f st1 tr2 tr3,
    execute_wipe E fuel opt st (recursive_directory_iterator E st d) 0 0
      = Some (w, f, st1, tr2)
    /\ remove_dirs E st1
         (rev (collect_dirs E st1 (recursive_directory_iterator E st1 d)))
       = (st', tr3)
    /\ ok r = (f =? 0)%N
    /\ wipe_calls tr = wipe_calls tr2.
Proof.
  intros Hdir Hsafe.
  rewrite (wipe_directory_gate E fuel d opt false true st Hdir), Hsafe.
  cbn [negb andb].
  pose proof (enumerate_files_counts E false st
                (recursive_directory_iterator E st d) 0 0) as Hcount.
  change ((0 + 0) mod 2 ^ 64)%N with 0%N in Hcount. rewrite Hcount.
  destruct (execute_wipe E fuel opt st _ 0 0) as [[[[w f] s1] t2]|] eqn:Hexec;
    [|discriminate].
  destruct (remove_dirs E s1 _) as [s2 t3] eqn:Hclean.
  intros H; injection H as <- <- <-.
  exists w, f, s1, t2, t3.
  split; [reflexivity|]. split; [exact Hclean|]. split; [reflexivity|].
  destruct (io_trace_silent t3 (remove_dirs_io E _ _ _ _ Hclean)) as [Hcalls3 _].
  simpl. rewrite wipe_calls_app. simpl. rewrite Hcalls3. apply app_nil_r.
Qed.

(** X10. The preview is exact: on the same world, the lines a dry run
    prints name the files the sweep hands to [wipe_file], one line for
    each call and in the order of the calls. *)
Theorem dry_run_previews_sweep (E : env) (fuel fuel' : nat) (d : path)
  (opt : WipeOptions) (yes : bool) (st st1 st2 : state) (r1 r2 : WipeResult)
  (tr1 tr2 : list event) :
  existing_directory E st d ->
  is_dangerous_dir E d = false ->
  NoDup (map fst (st_fs st)) ->
  wipe_directory E fuel d opt true yes st = Some (r1, st1, tr1) ->
  wipe_directory E fuel' d opt false true st = Some (r2, st2, tr2) ->
  tr1 = EvTraverse d :: map preview (map fst (wipe_calls tr2)).
Proof.
  intros Hdir Hsafe Hnodup Hdry Hsweep.
  rewrite (wipe_directory_gate E fuel d opt true yes st Hdir), Hsafe in Hdry.
  cbn [negb andb] in Hdry.
  pose proof (enumerate_files_counts E true st (recursive_directory_iterator E st d) 0 0)
    as Hcount.
  change ((0 + 0) mod 2 ^ 64)%N with 0%N in Hcount. rewrite Hcount in Hdry.
  injection Hdry as _ _ <-.
  destruct (wipe_directory_sweep E fuel' d opt st st2 r2 tr2 Hdir Hsafe Hsweep)
    as (w & f & s1 & t2 & t3 & Hexec & _ & _ & Hcalls).
  rewrite Hcalls.
  destruct (execute_wipe_spec E fuel' opt _ _ _ _ _ _ _ _
              (recursive_directory_iterator_NoDup E st d Hnodup) Hexec) as (Hmap & _).
  now rewrite Hmap.
Qed.

Lemma dry_run_previews_sweep_witness :
  exists r1 st1 tr1 r2 st2 tr2,
    wipe_directory locked_env 0 ["tmp"]%string sample_options true false sample_state
      = Some (r1, st1, tr1)
    /\ wipe_directory locked_env 6 ["tmp"]%string sample_options false true sample_state
       = Some (r2, st2, tr2)
    /\ tr1 = EvTraverse ["tmp"]%string :: map preview (map fst (wipe_calls tr2)).
Proof.
  destruct (wipe_directory locked_env 0 ["tmp"]%string sample_options true false
              sample_state) as [[[r1 st1] tr1]|] eqn:Hdry;
    [|vm_compute in Hdry; discriminate].
  destruct (wipe_directory locked_env 6 ["tmp"]%string sample_options false true
              sample_state) as [[[r2 st2] tr2]|] eqn:Hsweep;
    [|vm_compute in Hsweep; discriminate].
  exists r1, st1, tr1, r2, st2, tr2. repeat split.
  exact (dry_run_previews_sweep locked_env 0 6 ["tmp"]%string sample_options false
           sample_state st1 st2 r1 r2 tr1 tr2 eq_refl eq_refl sample_state_NoDup
           Hdry Hsweep).
Defined.

(** ** What a sweep leaves behind *)

Lemma sweep_all_succeeded (calls : list (path * WipeResult)) (f : N) :
  f = Nat.iter (List.length (filter (fun c => negb (succeeded c)) calls)) incr64 0%N ->
  (N.of_nat (List.length calls) < 2 ^ 64)%N ->
  (f =? 0)%N = true ->
  forall c, In c calls -> succeeded c = true.
Proof.
  intros Hf Hsmall Hzero c Hc.
  apply N.eqb_eq in Hzero. rewrite iter_incr64 in Hf.
  pose proof (filter_length_le (fun c => negb (succeeded c)) calls) as Hle.
  rewrite N.mod_small in Hf by lia.
  destruct (succeeded c) eqn:Hs; [reflexivity|].
  assert (Hin : In c (filter (fun c => negb (succeeded c)) calls))
    by (apply filter_In; split; [exact Hc|now rewrite Hs]).
  destruct (filter (fun c => negb (succeeded c)) calls); [contradiction|].
  simpl in Hf. lia.
Qed.

Lemma sweep_success_gone (E : env) (fuel : nat) (d : path) (opt : WipeOptions)
  (st st' : state) (r : WipeResult) (tr : list event) :
  existing_directory E st d ->
  is_dangerous_dir E d = false ->
  NoDup (map fst (st_fs st)) ->
  let files := filter (plain_file E st) (recursive_directory_iterator E st d) in
  (N.of_nat (List.length files) < 2 ^ 64)%N ->
  wipe_directory E fuel d opt false true st = Some (r, st', tr) ->
  ok r = true ->
  forall p, In p files -> lookup (st_fs st') p = None.
Proof.
  intros Hdir Hsafe Hnodup files Hsmall Hrun Hok p Hp.
  destruct (wipe_directory_sweep E fuel d opt st st' r tr Hdir Hsafe Hrun)
    as (w & f & s1 & t2 & t3 & Hexec & Hclean & Hr & _).
  destruct (execute_wipe_spec E fuel opt _ _ _ _ _ _ _ _
              (recursive_directory_iterator_NoDup E st d Hnodup) Hexec)
    as (Hmap & _ & Hf & _).
  fold files in Hmap.
  assert (Hlen : List.length (wipe_calls t2) = List.length files)
    by (rewrite <- Hmap; symmetry; apply length_map).
  rewrite Hok in Hr. symmetry in Hr.
  assert (Hsmall' : (N.of_nat (List.length (wipe_calls t2)) < 2 ^ 64)%N) by lia.
  pose proof (sweep_all_succeeded (wipe_calls t2) f Hf Hsmall' Hr) as Hall.
  rewrite <- Hmap in Hp. apply in_map_iff in Hp. destruct Hp as (c & <- & Hc).
  apply (remove_dirs_none E (fst c) _ _ _ _ Hclean).
  pose proof (execute_wipe_deletes E fuel opt _ _ _ _ _ _ _ _ Hexec) as Hgone.
  rewrite Forall_forall in Hgone. exact (Hgone c Hc (Hall c Hc)).
Qed.

(** X11. A sweep that reports success has deleted every plain file its
    iteration reported. *)
Theorem wipe_directory_success_deletes_all (E : env) (fuel : nat) (d : path)
  (opt : WipeOptions) (st st' : state) (r : WipeResult) (tr : list event) :
  existing_directory E st d ->
  is_dangerous_dir E d = false ->
  NoDup (map fst (st_fs st)) ->
  let files := filter (plain_file E st) (recursive_directory_iterator E st d) in
  (N.of_nat (List.length files) < 2 ^ 64)%N ->
  wipe_directory E fuel d opt false true st = Some (r, st', tr) ->
  ok r = true ->
  forall p, In p files -> lookup (st_fs st') p = None.
Proof. exact (sweep_success_gone E fuel d opt st st' r tr). Qed.

Lemma wipe_directory_success_deletes_all_witness :
  exists r st' tr,
    wipe_directory sample_env 6 ["tmp"]%string sample_options false true sample_state
      = Some (r, st', tr)
    /\ lookup (st_fs st') ["tmp"; "sub"; "b"]%string = None.
Proof.
  destruct (wipe_directory sample_env 6 ["tmp"]%string sample_options false true
              sample_state) as [[[r st'] tr]|] eqn:Hrun;
    [|vm_compute in Hrun; discriminate].
  exists r, st', tr. split; [reflexivity|].
  apply (wipe_directory_success_deletes_all sample_env 6 ["tmp"]%string sample_options
           sample_state st' r tr eq_refl eq_refl sample_state_NoDup
           ltac:(vm_compute; reflexivity) Hrun).
  - vm_compute in Hrun. now injection Hrun as <- _ _.
  - vm_compute. tauto.
Defined.

(** X12. After a sweep that reports success a second look finds nothing to
    wipe: no entry the iteration over the directory reports in the new
    world is a plain file. *)
Theorem wipe_directory_success_leaves_no_file (E : env) (fuel : nat) (d : path)
  (opt : WipeOptions) (st st' : state) (r : WipeResult) (tr : list event) :
  existing_directory E st d ->
  is_dangerous_dir E d = false ->
  NoDup (map fst (st_fs st)) ->
  (N.of_nat (List.length (filter (plain_file E st) (recursive_directory_iterator E st d)))
   < 2 ^ 64)%N ->
  wipe_directory E fuel d opt false true st = Some (r, st', tr) ->
  ok r = true ->
  filter (plain_file E st') (recursive_directory_iterator E st' d) = [].
Proof.
  intros Hdir Hsafe Hnodup Hsmall Hrun Hok.
  pose proof (wipe_directory_only_shrinks_lemma E fuel d opt false true st st' r tr Hrun)
    as Hshrinks.
  destruct (filter (plain_file E st') (recursive_directory_iterator E st' d))
    as [|q qs] eqn:Hleft; [reflexivity|].
  assert (Hq : In q (filter (plain_file E st') (recursive_directory_iterator E st' d)))
    by (rewrite Hleft; now left).
  apply filter_In in Hq. destruct Hq as [Hin Hplain].
  apply (iterator_shrinks E st st' d q Hshrinks) in Hin.
  assert (Hplain0 : plain_file E st q = true).
  { revert Hplain. unfold plain_file. destruct (e_fault E OpStat q); [discriminate|].
    destruct (Hshrinks q) as [Hl|[Hl|(c & c' & Hc & Hl)]]; rewrite Hl;
      [discriminate|exact (fun H => H)|now rewrite Hc]. }
  assert (Hfile : In q (filter (plain_file E st) (recursive_directory_iterator E st d)))
    by (apply filter_In; now split).
  pose proof (sweep_success_gone E fuel d opt st st' r tr Hdir Hsafe Hnodup Hsmall
                Hrun Hok q Hfile) as Hgone.
  revert Hplain. unfold plain_file. rewrite Hgone.
  now destruct (e_fault E OpStat q).
Qed.

Lemma wipe_directory_success_leaves_no_file_witness :
  exists r st' tr,
    wipe_directory sample_env 6 ["tmp"]%string sample_options false true sample_state
      = Some (r, st', tr)
    /\ filter (plain_file sample_env st')
         (recursive_directory_iterator sample_env st' ["tmp"]%string) = [].
Proof.
  destruct (wipe_directory sample_env 6 ["tmp"]%string sample_options false true
              sample_state) as [[[r st'] tr]|] eqn:Hrun;
    [|vm_compute in Hrun; discriminate].
  exists r, st', tr. split; [reflexivity|].
  apply (wipe_directory_success_leaves_no_file sample_env 6 ["tmp"]%string
           sample_options sample_state st' r tr eq_refl eq_refl sample_state_NoDup
           ltac:(vm_compute; reflexivity) Hrun).
  vm_compute in Hrun. now injection Hrun as <- _ _.
Defined.

Lemma lookup_paths (fs : fs_table) (p : path) :
  In p (map fst fs) <-> exists n, lookup fs p = Some n.
Proof.
  split.
  - intros Hin. apply in_map_iff in Hin. destruct Hin as ([q n] & <- & Hin).
    exact (In_lookup _ _ _ Hin).
  - intros (n & Hn). apply lookup_In in Hn. now apply (in_map fst) in Hn.
Qed.

Lemma plain_file_data (E : env) (st : state) (p : path) :
  plain_file E st p = true -> exists data, lookup (st_fs st) p = Some (File data).
Proof.
  unfold plain_file. destruct (e_fault E OpStat p); [discriminate|].
  destruct (lookup (st_fs st) p) as [[data|r|t]|]; try discriminate. now exists data.
Qed.

Lemma wipe_file_failed_plain (E : env) (fuel : nat) (p : path) (opt : WipeOptions)
  (st st' : state) (r : WipeResult) (tr : list event) :
  plain_file E st p = true ->
  wipe_file E fuel p opt st = Some (r, st', tr) ->
  ok r = false ->
  exists data, lookup (st_fs st') p = Some (File data).
Proof.
  intros Hplain Hrun Hok.
  destruct (plain_file_data E st p Hplain) as (d0 & Hd0).
  destruct (wipe_file_failed_keeps E fuel p opt st st' r tr Hrun Hok) as [Hpaths _].
  assert (Hpresent : exists n, lookup (st_fs st') p = Some n).
  { apply lookup_paths. rewrite Hpaths. apply lookup_paths. now exists (File d0). }
  destruct Hpresent as (n & Hn).
  destruct (wipe_file_shrinks E fuel p opt st st' r tr Hrun p)
    as [Hq|[Hq|(c & c' & _ & Hq)]].
  - congruence.
  - exists d0. congruence.
  - now exists c'.
Qed.

Lemma collect_dirs_not_file (E : env) (st : state) (ps : list path) (q : path) :
  In q (collect_dirs E st ps) -> forall data, lookup (st_fs st) q <> Some (File data).
Proof.
  unfold collect_dirs. intros Hin. apply filter_In in Hin. destruct Hin as [_ Hdir].
  revert Hdir. unfold fs_is_directory, fs_status.
  destruct (follow E symloop_max (st_fs st) q) as [e|[[g [c|r|t]]|]] eqn:Hfollow;
    try discriminate.
  intros _ data Hfile.
  destruct (follow_lookup E _ _ _ _ _ Hfollow) as (Hg & _ & [->|(t & Ht)]); congruence.
Qed.

Lemma execute_wipe_failed_remain (E : env) (fuel : nat) (opt : WipeOptions) :
  forall (ps : list path) (st : state) (wiped failed : N) w f st' tr,
    NoDup ps ->
    execute_wipe E fuel opt st ps wiped failed = Some (w, f, st', tr) ->
    Forall (fun c => succeeded c = false ->
                     exists data, lookup (st_fs st') (fst c) = Some (File data))
      (wipe_calls tr).
Proof.
  induction ps as [|p ps IH]; intros st wiped failed w f st' tr Hnodup.
  { simpl. intros H; injection H as _ _ _ <-. constructor. }
  rewrite execute_wipe_cons. inversion Hnodup as [|? ? Hnotin Hnodup']; subst.
  destruct (plain_file E st p) eqn:Hplain; [|now apply IH].
  destruct (wipe_file E fuel p opt st) as [[[res st1] tr1]|] eqn:Hwipe; [|discriminate].
  destruct (io_trace_silent tr1 (wipe_file_io E fuel p opt st st1 res tr1 Hwipe))
    as [Hcalls1 _].
  destruct (ok res) eqn:Hok.
  - destruct (execute_wipe E fuel opt st1 ps (incr64 wiped) failed)
      as [[[[w2 f2] s2] tr2]|] eqn:Hrec; [|discriminate].
    intros H; injection H as _ _ <- <-.
    rewrite wipe_calls_app, Hcalls1. simpl.
    constructor; [|exact (IH _ _ _ _ _ _ _ Hnodup' Hrec)].
    unfold succeeded. simpl. rewrite Hok. discriminate.
  - destruct (execute_wipe E fuel opt st1 ps wiped (incr64 failed))
      as [[[[w2 f2] s2] tr2]|] eqn:Hrec; [|discriminate].
    intros H; injection H as _ _ <- <-.
    rewrite wipe_calls_app, Hcalls1. simpl.
    constructor; [|exact (IH _ _ _ _ _ _ _ Hnodup' Hrec)].
    intros _. simpl.
    rewrite (execute_wipe_frame E fuel opt p _ _ _ _ _ _ _ _ Hrec Hnotin).
    exact (wipe_file_failed_plain E fuel p opt st st1 res tr1 Hplain Hwipe Hok).
Qed.

(** X13. A file whose wipe failed is still there when the sweep ends:
    neither the wipes that follow nor the removal of the directories
    touch it. *)
Theorem wipe_directory_failed_files_remain (E : env) (fuel : nat) (d : path)
  (opt : WipeOptions) (st st' : state) (r : WipeResult) (tr : list event) :
  existing_directory E st d ->
  is_dangerous_dir E d = false ->
  NoDup (map fst (st_fs st)) ->
  wipe_directory E fuel d opt false true st = Some (r, st', tr) ->
  forall c, In c (wipe_calls tr) ->
            succeeded c = false ->
            exists data, lookup (st_fs st') (fst c) = Some (File data).
Proof.
  intros Hdir Hsafe Hnodup Hrun c Hc Hfailed.
  destruct (wipe_directory_sweep E fuel d opt st st' r tr Hdir Hsafe Hrun)
    as (w & f & s1 & t2 & t3 & Hexec & Hclean & _ & Hcalls).
  rewrite Hcalls in Hc.
  pose proof (execute_wipe_failed_remain E fuel opt _ _ _ _ _ _ _ _
                (recursive_directory_iterator_NoDup E st d Hnodup) Hexec) as Hremain.
  rewrite Forall_forall in Hremain. destruct (Hremain c Hc Hfailed) as (data & Hdata).
  exists data. rewrite <- Hdata.
  apply (remove_dirs_frame E (fst c) _ _ _ _ Hclean).
  intros Hin. apply in_rev in Hin.
  exact (collect_dirs_not_file E s1 _ _ Hin data Hdata).
Qed.

Lemma wipe_directory_failed_files_remain_witness :
  exists r st' tr data,
    wipe_directory locked_env 6 ["tmp"]%string sample_options false true sample_state
      = Some (r, st', tr)
    /\ lookup (st_fs st') ["tmp"; "locked"; "c"]%string = Some (File data).
Proof.
  destruct (wipe_directory locked_env 6 ["tmp"]%string sample_options false true
              sample_state) as [[[r st'] tr]|] eqn:Hrun;
    [|vm_compute in Hrun; discriminate].
  destruct (wipe_directory_failed_files_remain locked_env 6 ["tmp"]%string
              sample_options sample_state st' r tr eq_refl eq_refl sample_state_NoDup
              Hrun
              (["tmp"; "locked"; "c"]%string,
               failure "Failed to delete file: Permission denied"))
    as (data & Hdata).
  - vm_compute in Hrun. injection Hrun as _ _ <-. simpl. tauto.
  - reflexivity.
  - exists r, st', tr, data. split; [reflexivity|exact Hdata].
Defined.

(** ** The removal of the directories *)

Lemma has_children_below (fs : fs_table) (q : path) (c : string) (rest : path) (n : node) :
  lookup fs (q ++ c :: rest) = Some n -> has_children fs q = true.
Proof.
  intros Hlook. unfold has_children. apply existsb_exists.
  exists (q ++ c :: rest, n). split; [exact (lookup_In _ _ _ Hlook)|]. simpl.
  now rewrite (proj2 (strip_prefix_app q (q ++ c :: rest) (c :: rest)) eq_refl).
Qed.

Lemma execute_wipe_keeps_others (E : env) (fuel : nat) (opt : WipeOptions) (q : path) :
  forall (ps : list path) (st : state) (wiped failed : N) w f st' tr,
    execute_wipe E fuel opt st ps wiped failed = Some (w, f, st', tr) ->
    (forall data, lookup (st_fs st) q <> Some (File data)) ->
    lookup (st_fs st') q = lookup (st_fs st) q.
Proof.
  induction ps as [|p ps IH]; intros st wiped failed w f st' tr.
  { simpl. intros H; injection H as _ _ <- _. reflexivity. }
  rewrite execute_wipe_cons. intros Hrun Hnofile.
  destruct (plain_file E st p) eqn:Hplain; [|exact (IH _ _ _ _ _ _ _ Hrun Hnofile)].
  destruct (wipe_file E fuel p opt st) as [[[res st1] tr1]|] eqn:Hwipe; [|discriminate].
  assert (Hne : q <> p).
  { intros ->. destruct (plain_file_data E st p Hplain) as (data & Hdata).
    exact (Hnofile data Hdata). }
  pose proof (wipe_file_frame E fuel p opt st st1 res tr1 Hplain Hwipe q Hne) as Hframe.
  assert (Hnofile1 : forall data, lookup (st_fs st1) q <> Some (File data))
    by (intros data; rewrite Hframe; apply Hnofile).
  destruct (ok res).
  - destruct (execute_wipe E fuel opt st1 ps (incr64 wiped) failed)
      as [[[[w2 f2] s2] tr2]|] eqn:Hrec; [|discriminate].
    injection Hrun as _ _ <- _. now rewrite (IH _ _ _ _ _ _ _ Hrec Hnofile1).
  - destruct (execute_wipe E fuel opt st1 ps wiped (incr64 failed))
      as [[[[w2 f2] s2] tr2]|] eqn:Hrec; [|discriminate].
    injection Hrun as _ _ <- _. now rewrite (IH _ _ _ _ _ _ _ Hrec Hnofile1).
Qed.

Lemma remove_dirs_keeps_dir (E : env) (q : path) (rd : bool) (x : path) :
  (exists c rest, x = q ++ c :: rest) ->
  forall (ps : list path) (st st' : state) (tr : list event),
    remove_dirs E st ps = (st', tr) ->
    lookup (st_fs st) q = Some (Dir rd) ->
    lookup (st_fs st') x <> None ->
    lookup (st_fs st') q = Some (Dir rd).
Proof.
  intros (c & rest & ->). induction ps as [|p ps IH]; intros st st' tr Hrun Hq Hx.
  { simpl in Hrun. injection Hrun as <- _. exact Hq. }
  assert (Hx0 : lookup (st_fs st) (q ++ c :: rest) <> None).
  { intros Hnone. apply Hx. exact (remove_dirs_none E _ _ _ _ _ Hrun Hnone). }
  simpl in Hrun.
  destruct (fs_remove E st p) as [[removed ec] st1] eqn:Hrm.
  destruct (remove_dirs E st1 ps) as [st2 tr2] eqn:Hrec.
  injection Hrun as <- _.
  apply (IH _ _ _ Hrec); [|exact Hx].
  destruct (list_eq_dec string_dec q p) as [->|Hne].
  - assert (st1 = st).
    { revert Hrm. unfold fs_remove. destruct (e_fault E OpRemove p); [congruence|].
      rewrite Hq. destruct (lookup (st_fs st) (p ++ c :: rest)) as [n|] eqn:Hn;
        [|contradiction].
      rewrite (has_children_below _ _ _ _ _ Hn). congruence. }
    now subst st1.
  - now rewrite (fs_remove_frame E st st1 p removed ec Hrm q Hne).
Qed.

(** X14. The sweep removes a directory only when it is empty: a directory
    of the old world below which an entry is left in the new world is
    still there. *)
Theorem wipe_directory_keeps_nonempty_directory (E : env) (fuel : nat) (d : path)
  (opt : WipeOptions) (dry_run yes : bool) (st st' : state) (r : WipeResult)
  (tr : list event) (q : path) (rd : bool) (c : string) (rest : path) :
  wipe_directory E fuel d opt dry_run yes st = Some (r, st', tr) ->
  lookup (st_fs st) q = Some (Dir rd) ->
  lookup (st_fs st') (q ++ c :: rest) <> None ->
  lookup (st_fs st') q = Some (Dir rd).
Proof.
  intros Hrun Hq Hx.
  destruct (wipe_directory_inv E fuel d opt dry_run yes st st' r tr Hrun)
    as [[-> _]|(_ & _ & w & f & st1 & tr2 & tr3 & Hexec & Hclean & _)];
    [exact Hq|].
  apply (remove_dirs_keeps_dir E q rd (q ++ c :: rest) ltac:(now exists c, rest)
           _ _ _ _ Hclean); [|exact Hx].
  rewrite (execute_wipe_keeps_others E fuel opt q _ _ _ _ _ _ _ _ Hexec); [exact Hq|].
  intros data. congruence.
Qed.

Lemma wipe_directory_keeps_nonempty_directory_witness :
  exists r st' tr,
    wipe_directory locked_env 6 ["tmp"]%string sample_options false true sample_state
      = Some (r, st', tr)
    /\ lookup (st_fs st') ["tmp"; "locked"]%string = Some (Dir true)
    /\ lookup (st_fs st') ["tmp"; "sub"]%string = None.
Proof.
  destruct (wipe_directory locked_env 6 ["tmp"]%string sample_options false true
              sample_state) as [[[r st'] tr]|] eqn:Hrun;
    [|vm_compute in Hrun; discriminate].
  exists r, st', tr. split; [reflexivity|]. split.
  - apply (wipe_directory_keeps_nonempty_directory locked_env 6 ["tmp"]%string
             sample_options false true sample_state st' r tr
             ["tmp"; "locked"]%string true "c"%string [] Hrun eq_refl).
    vm_compute in Hrun. injection Hrun as _ <- _. discriminate.
  - vm_compute in Hrun. now injection Hrun as _ <- _.
Defined.

(** ** The limits of the deny-list *)

(** X15. [is_dangerous_dir] compares whole paths: a directory whose
    canonical (or absolute) path has two or more components, and is not
    the canonical form of [HOME], is never refused, also when it lies
    below [/System], [/Library], [/Applications] or the home directory. *)
Theorem is_dangerous_dir_exact_match (E : env) (d canon : path) :
  canon_or_absolute E d = Some canon ->
  (2 <= List.length canon)%nat ->
  resolved_home E <> Some canon ->
  is_dangerous_dir E d = false.
Proof.
  intros Hcanon Hlen Hhome.
  rewrite (is_dangerous_dir_denied E d canon Hcanon).
  assert (Hroot : path_eqb canon root_dir = false)
    by (apply path_eqb_neq; intros ->; simpl in Hlen; lia).
  assert (Hdeny : existsb (path_eqb canon) deny_list = false).
  { simpl. rewrite !path_eqb_neq; [reflexivity| | |];
      intros ->; simpl in Hlen; lia. }
  rewrite Hroot, Hdeny. simpl.
  destruct (resolved_home E) as [homep|]; [|reflexivity].
  apply path_eqb_neq. congruence.
Qed.

Lemma is_dangerous_dir_exact_match_witness :
  is_dangerous_dir sample_env ["System"; "Library"]%string = false
  /\ is_dangerous_dir sample_env ["home"; "user"; "Documents"]%string = false.
Proof.
  split.
  - apply (is_dangerous_dir_exact_match sample_env ["System"; "Library"]%string
             ["System"; "Library"]%string eq_refl); [simpl; lia|discriminate].
  - apply (is_dangerous_dir_exact_match sample_env
             ["home"; "user"; "Documents"]%string
             ["home"; "user"; "Documents"]%string eq_refl); [simpl; lia|discriminate].
Defined.

(** ** The command line *)

Lemma parse_options_cons (a : string) (rest : list string) (opt : WipeOptions)
  (dry_run yes : bool) :
  parse_options (a :: rest) opt dry_run yes =
  match String.eqb a "--passes", rest with
  | true, v :: rest' =>
      match stoi v with
      | Some n =>
          parse_options rest'
            {| passes := n; pattern := pattern opt; block_size := block_size opt |}
            dry_run yes
      | None => Thrown
      end
  | _, _ =>
      match String.eqb a "--pattern", rest with
      | true, v :: rest' =>
          if String.eqb v "zeros" then
            parse_options rest'
              {| passes := passes opt; pattern := Zeros; block_size := block_size opt |}
              dry_run yes
          else if String.eqb v "random" then
            parse_options rest'
              {| passes := passes opt; pattern := Random; block_size := block_size opt |}
              dry_run yes
          else UsageError [EvStderr (String.append "Error: unknown pattern: " v)]
      | _, _ =>
          if String.eqb a "--dry-run" then parse_options rest opt true yes
          else if String.eqb a "--yes" then parse_options rest opt dry_run true
          else UsageError [EvStderr (String.append "Error: unknown option: " a)]
      end
  end.
Proof. reflexivity. Qed.

(** Induction on the arguments, one or two at a time. *)
Lemma args_ind2 (P : list string -> Prop) :
  P [] ->
  (forall a rest, P rest -> (forall v rest', rest = v :: rest' -> P rest') ->
                  P (a :: rest)) ->
  forall args, P args.
Proof.
  intros Hnil Hcons.
  assert (H : forall n args, (List.length args <= n)%nat -> P args).
  { induction n as [|n IH]; intros [|a rest] Hlen; simpl in Hlen; try exact Hnil;
      [lia|].
    apply Hcons; [apply IH; lia|].
    intros v rest' ->. apply IH. simpl in Hlen. lia. }
  intros args. exact (H (List.length args) args (Nat.le_refl _)).
Qed.

Lemma parse_options_flags (args : list string) :
  forall (opt : WipeOptions) (d y d' y' : bool),
    forget_flags (parse_options args opt d y)
    = forget_flags (parse_options args opt d' y').
Proof.
  induction args as [|a rest IH IH2] using args_ind2; intros opt d y d' y';
    [reflexivity|].
  rewrite !(parse_options_cons a rest).
  destruct (String.eqb a "--passes"), rest as [|v rest'];
    try (destruct (stoi v); [apply (IH2 v rest' eq_refl)|reflexivity]);
    destruct (String.eqb a "--pattern");
    try (destruct (String.eqb v "zeros"); [apply (IH2 v rest' eq_refl)|];
         destruct (String.eqb v "random"); [apply (IH2 v rest' eq_refl)|reflexivity]);
    destruct (String.eqb a "--dry-run"); try apply IH;
    destruct (String.eqb a "--yes"); try apply IH; reflexivity.
Qed.

Lemma parse_options_app (a1 a2 : list string) :
  forall (opt : WipeOptions) (d y : bool) (opt1 : WipeOptions) (d1 y1 : bool),
    parse_options a1 opt d y = Parsed opt1 d1 y1 ->
    parse_options (a1 ++ a2) opt d y = parse_options a2 opt1 d1 y1.
Proof.
  induction a1 as [|a rest IH IH2] using args_ind2; intros opt d y opt1 d1 y1.
  { simpl. now intros H; injection H as <- <- <-. }
  rewrite <- app_comm_cons, (parse_options_cons a rest),
    (parse_options_cons a (rest ++ a2)).
  assert (Hfl : (if String.eqb a "--dry-run" then parse_options rest opt true y
                 else if String.eqb a "--yes" then parse_options rest opt d true
                 else UsageError [EvStderr (String.append "Error: unknown option: " a)])
                = Parsed opt1 d1 y1 ->
                (if String.eqb a "--dry-run" then parse_options (rest ++ a2) opt true y
                 else if String.eqb a "--yes" then parse_options (rest ++ a2) opt d true
                 else UsageError [EvStderr (String.append "Error: unknown option: " a)])
                = parse_options a2 opt1 d1 y1).
  { destruct (String.eqb a "--dry-run"); [apply IH|].
    destruct (String.eqb a "--yes"); [apply IH|discriminate]. }
  destruct (String.eqb_spec a "--passes") as [->|_].
  { destruct rest as [|v rest']; [intros H; vm_compute in H; discriminate H|].
    change ((v :: rest') ++ a2) with (v :: (rest' ++ a2)). cbv beta iota.
    destruct (stoi v); [apply (IH2 v rest' eq_refl)|discriminate]. }
  destruct (String.eqb_spec a "--pattern") as [->|_].
  { destruct rest as [|v rest']; [intros H; vm_compute in H; discriminate H|].
    change ((v :: rest') ++ a2) with (v :: (rest' ++ a2)). cbv beta iota.
    destruct (String.eqb v "zeros"); [apply (IH2 v rest' eq_refl)|].
    destruct (String.eqb v "random"); [apply (IH2 v rest' eq_refl)|discriminate]. }
  destruct rest as [|v rest']; [|exact Hfl].
  destruct (List.app nil a2); exact Hfl.
Qed.

Lemma parse_options_block_size (args : list string) :
  forall (opt : WipeOptions) (d y : bool) (opt1 : WipeOptions) (d1 y1 : bool),
    parse_options args opt d y = Parsed opt1 d1 y1 ->
    block_size opt1 = block_size opt.
Proof.
  induction args as [|a rest IH IH2] using args_ind2; intros opt d y opt1 d1 y1.
  { simpl. now intros H; injection H as <- _ _. }
  rewrite (parse_options_cons a).
  destruct (String.eqb a "--passes"), rest as [|v rest'];
    try (destruct (stoi v);
         [intros H; apply (IH2 v rest' eq_refl) in H; exact H|discriminate]);
    destruct (String.eqb a "--pattern");
    try (destruct (String.eqb v "zeros");
         [intros H; apply (IH2 v rest' eq_refl) in H; exact H|];
         destruct (String.eqb v "random");
         [intros H; apply (IH2 v rest' eq_refl) in H; exact H|discriminate]);
    destruct (String.eqb a "--dry-run"); try apply IH;
    destruct (String.eqb a "--yes"); try apply IH; discriminate.
Qed.

Lemma parse_options_error (args : list string) :
  forall (opt : WipeOptions) (d y : bool) (tr : list event),
    parse_options args opt d y = UsageError tr -> exists line, tr = [EvStderr line].
Proof.
  induction args as [|a rest IH IH2] using args_ind2; intros opt d y tr.
  { discriminate. }
  rewrite (parse_options_cons a).
  destruct (String.eqb a "--passes"), rest as [|v rest'];
    try (destruct (stoi v); [apply (IH2 v rest' eq_refl)|discriminate]);
    destruct (String.eqb a "--pattern");
    try (destruct (String.eqb v "zeros"); [apply (IH2 v rest' eq_refl)|];
         destruct (String.eqb v "random"); [apply (IH2 v rest' eq_refl)|]);
    try (destruct (String.eqb a "--dry-run"); [apply IH|];
         destruct (String.eqb a "--yes"); [apply IH|]);
    intros H; injection H as <-; eexists; reflexivity.
Qed.

Lemma parse_options_no_flags (args : list string) :
  ~ In "--dry-run"%string args -> ~ In "--yes"%string args ->
  forall (opt : WipeOptions) (d y : bool) (opt1 : WipeOptions) (d1 y1 : bool),
    parse_options args opt d y = Parsed opt1 d1 y1 -> d1 = d /\ y1 = y.
Proof.
  induction args as [|a rest IH IH2] using args_ind2; intros Hdry Hyes opt d y opt1 d1 y1.
  { simpl. now intros H; injection H as _ <- <-. }
  assert (Hrest : ~ In "--dry-run"%string rest /\ ~ In "--yes"%string rest).
  { split; intros Hin; [apply Hdry|apply Hyes]; now right. }
  assert (Hrest' : forall v rest', rest = v :: rest' ->
                     ~ In "--dry-run"%string rest' /\ ~ In "--yes"%string rest').
  { intros v rest' ->. split; intros Hin; [apply Hdry|apply Hyes]; right; now right. }
  rewrite (parse_options_cons a rest).
  assert (Hfl : (if String.eqb a "--dry-run" then parse_options rest opt true y
                 else if String.eqb a "--yes" then parse_options rest opt d true
                 else UsageError [EvStderr (String.append "Error: unknown option: " a)])
                = Parsed opt1 d1 y1 -> d1 = d /\ y1 = y).
  { destruct (String.eqb_spec a "--dry-run") as [->|_]; [destruct Hdry; now left|].
    destruct (String.eqb_spec a "--yes") as [->|_]; [destruct Hyes; now left|].
    discriminate. }
  destruct rest as [|v rest'].
  { destruct (String.eqb a "--passes"), (String.eqb a "--pattern"); exact Hfl. }
  destruct (Hrest' v rest' eq_refl) as (Hd' & Hy').
  destruct (String.eqb a "--passes").
  { destruct (stoi v); [apply (IH2 v rest' eq_refl Hd' Hy')|discriminate]. }
  destruct (String.eqb a "--pattern"); [|exact Hfl].
  destruct (String.eqb v "zeros"); [apply (IH2 v rest' eq_refl Hd' Hy')|].
  destruct (String.eqb v "random"); [apply (IH2 v rest' eq_refl Hd' Hy')|discriminate].
Qed.

Lemma print_help_output : forallb is_output print_help = true.
Proof. reflexivity. Qed.

Lemma main_wipe (locate : string -> path) (E : env) (fuel : nat) (p : string)
  (options : list string) (st : state) :
  main locate E fuel ("wipe"%string :: p :: options) st =
  match forget_flags (parse_options options default_options false false) with
  | Thrown => Some (Terminate, st, [])
  | UsageError tr => Some (Exit 2, st, tr)
  | Parsed opt _ _ =>
      match wipe_file E fuel (locate p) opt st with
      | None => None
      | Some (res, st', tr) =>
          if negb (ok res) then
            Some (Exit 1, st',
                  tr ++ [EvStderr (String.append "Wipe failed: " (message res))])
          else Some (Exit 0, st', tr ++ [EvStdout (message res)])
      end
  end.
Proof.
  unfold main.
  change (String.eqb "wipe" "--help" || String.eqb "wipe" "-h") with false.
  change (String.eqb "wipe" "wipe" || String.eqb "wipe" "wipe-dir") with true.
  change (String.eqb "wipe" "wipe") with true. cbv beta iota.
  now destruct (parse_options options default_options false false).
Qed.

Lemma main_wipe_dir (locate : string -> path) (E : env) (fuel : nat) (p : string)
  (options : list string) (st : state) :
  main locate E fuel ("wipe-dir"%string :: p :: options) st =
  match parse_options options default_options false false with
  | Thrown => Some (Terminate, st, [])
  | UsageError tr => Some (Exit 2, st, tr)
  | Parsed opt dry_run yes =>
      match wipe_directory E fuel (locate p) opt dry_run yes st with
      | None => None
      | Some (res, st', tr) =>
          if negb (ok res) then
            Some (Exit 1, st',
                  tr ++ [EvStderr (String.append "Wipe-dir failed: " (message res))])
          else Some (Exit 0, st', tr ++ [EvStdout (message res)])
      end
  end.
Proof.
  unfold main.
  change (String.eqb "wipe-dir" "--help" || String.eqb "wipe-dir" "-h") with false.
  change (String.eqb "wipe-dir" "wipe" || String.eqb "wipe-dir" "wipe-dir") with true.
  change (String.eqb "wipe-dir" "wipe") with false. cbv beta iota.
  reflexivity.
Qed.

(** X16. [main] returns 0, 1 or 2, or ends by the exception of [std::stoi].
    When it returns 2 or ends by the exception it has called neither
    [wipe_file] nor [wipe_directory]: the world is as it was, and all it
    did was print. *)
Theorem main_usage_error_harmless (locate : string -> path) (E : env) (fuel : nat)
  (args : list string) (st st' : state) (x : main_exit) (tr : list event) :
  main locate E fuel args st = Some (x, st', tr) ->
  (x = Exit 0 \/ x = Exit 1 \/ x = Exit 2 \/ x = Terminate)
  /\ (x = Exit 2 \/ x = Terminate -> st' = st /\ forallb is_output tr = true).
Proof.
  unfold main. destruct args as [|cmd args'].
  { intros H; injection H as <- <- <-. split; [now left|]. now intros [|]. }
  destruct (String.eqb cmd "--help" || String.eqb cmd "-h").
  { intros H; injection H as <- <- <-. split; [now left|]. now intros [|]. }
  destruct (String.eqb cmd "wipe" || String.eqb cmd "wipe-dir").
  2:{ intros H; injection H as <- <- <-. split; [now right; right; left|].
      intros _. split; reflexivity. }
  destruct args' as [|p options].
  { intros H; injection H as <- <- <-. split; [now right; right; left|].
    intros _. split; reflexivity. }
  destruct (parse_options options default_options false false)
    as [opt dry_run yes|utr|] eqn:Hparse.
  - assert (Hrun : forall run : option (WipeResult * state * list event),
               forall line : string -> string,
               match run with
               | None => None
               | Some (res, st1, tr1) =>
                   if negb (ok res) then
                     Some (Exit 1, st1, tr1 ++ [EvStderr (line (message res))])
                   else Some (Exit 0, st1, tr1 ++ [EvStdout (message res)])
               end = Some (x, st', tr) ->
               (x = Exit 0 \/ x = Exit 1 \/ x = Exit 2 \/ x = Terminate)
               /\ (x = Exit 2 \/ x = Terminate ->
                   st' = st /\ forallb is_output tr = true)).
    { intros [[[res st1] tr1]|] line; [|discriminate].
      destruct (negb (ok res)); intros H; injection H as <- <- <-.
      - split; [now right; left|]. now intros [|].
      - split; [now left|]. now intros [|]. }
    destruct (String.eqb cmd "wipe").
    + exact (Hrun (wipe_file E fuel (locate p) opt st)
               (String.append "Wipe failed: ")).
    + exact (Hrun (wipe_directory E fuel (locate p) opt dry_run yes st)
               (String.append "Wipe-dir failed: ")).
  - intros H; injection H as <- <- <-. split; [now right; right; left|].
    intros _. split; [reflexivity|].
    destruct (parse_options_error options default_options false false utr Hparse)
      as (line & ->).
    reflexivity.
  - intros H; injection H as <- <- <-. split; [now right; right; right|].
    intros _. split; reflexivity.
Qed.

Lemma main_usage_error_harmless_witness :
  (Exit 2 = Exit 0 \/ Exit 2 = Exit 1 \/ Exit 2 = Exit 2 \/ Exit 2 = Terminate)
  /\ (Exit 2 = Exit 2 \/ Exit 2 = Terminate ->
      sample_state = sample_state
      /\ forallb is_output [EvStderr "Error: unknown option: --passes"] = true).
Proof.
  apply (main_usage_error_harmless sample_locate sample_env 9
           ["wipe-dir"; "/tmp"; "--yes"; "--passes"]%string sample_state).
  reflexivity.
Defined.

(** X17. [wipe] reads [--dry-run] and [--yes] and then ignores them: after
    options that were read without an error, either flag can be left out
    of the command line, and [main] does the same, a real wipe. *)
Theorem main_wipe_ignores_flags (locate : string -> path) (E : env) (fuel : nat)
  (p flag : string) (pre post : list string) (st : state)
  (opt : WipeOptions) (d y : bool) :
  parse_options pre default_options false false = Parsed opt d y ->
  flag = "--dry-run"%string \/ flag = "--yes"%string ->
  main locate E fuel ("wipe"%string :: p :: pre ++ flag :: post) st
  = main locate E fuel ("wipe"%string :: p :: pre ++ post) st.
Proof.
  intros Hpre Hflag. rewrite !main_wipe.
  rewrite (parse_options_app pre (flag :: post) _ _ _ _ _ _ Hpre),
    (parse_options_app pre post _ _ _ _ _ _ Hpre).
  assert (Hsame : forget_flags (parse_options (flag :: post) opt d y)
                  = forget_flags (parse_options post opt d y)).
  { destruct Hflag as [->| ->].
    - change (parse_options ("--dry-run"%string :: post) opt d y)
        with (parse_options post opt true y).
      apply parse_options_flags.
    - change (parse_options ("--yes"%string :: post) opt d y)
        with (parse_options post opt d true).
      apply parse_options_flags. }
  now rewrite Hsame.
Qed.

Lemma main_wipe_ignores_flags_witness :
  main sample_locate sample_env 9
    ("wipe"%string :: "/tmp/a"%string
       :: ["--passes"; "2"]%string ++ "--dry-run"%string :: ["--pattern"; "zeros"]%string)
    sample_state
  = main sample_locate sample_env 9
      ("wipe"%string :: "/tmp/a"%string
         :: ["--passes"; "2"]%string ++ ["--pattern"; "zeros"]%string)
      sample_state.
Proof.
  apply (main_wipe_ignores_flags sample_locate sample_env 9 "/tmp/a" "--dry-run"
           ["--passes"; "2"]%string ["--pattern"; "zeros"]%string sample_state
           {| passes := 2; pattern := Zeros; block_size := 2 ^ 20 |} false false).
  - reflexivity.
  - now left.
Defined.

(** X18. What the exit status of [wipe] tells: after 0 the path that was
    given names nothing any more; after 1 the same paths exist as before
    and nothing was removed; after 2 the world is as it was. *)
Theorem main_wipe_exit_status (locate : string -> path) (E : env) (fuel : nat)
  (p : string) (options : list string) (st st' : state) (code : Z)
  (tr : list event) :
  main locate E fuel ("wipe"%string :: p :: options) st = Some (Exit code, st', tr) ->
  (code = 0%Z -> lookup (st_fs st') (locate p) = None)
  /\ (code = 1%Z ->
      map fst (st_fs st') = map fst (st_fs st) /\ filter is_remove tr = [])
  /\ (code = 2%Z -> st' = st).
Proof.
  rewrite main_wipe.
  destruct (forget_flags (parse_options options default_options false false))
    as [opt dry_run yes|utr|].
  - destruct (wipe_file E fuel (locate p) opt st) as [[[res st1] tr1]|] eqn:Hrun;
      [|discriminate].
    destruct (ok res) eqn:Hok; simpl; intros H; injection H as <- <- <-.
    + split; [|split; discriminate]. intros _.
      exact (wipe_file_ok_gone E fuel (locate p) opt st st1 res tr1 Hrun Hok).
    + split; [discriminate|]. split; [|discriminate]. intros _.
      destruct (wipe_file_failed_keeps E fuel (locate p) opt st st1 res tr1 Hrun Hok)
        as (Hpaths & Hrem).
      split; [exact Hpaths|].
      rewrite filter_app, Hrem. reflexivity.
  - intros H; injection H as <- <- <-. split; [discriminate|]. split; [discriminate|].
    reflexivity.
  - discriminate.
Qed.

Lemma main_wipe_exit_status_witness :
  (0%Z = 0%Z ->
   lookup (delete (st_fs sample_state) ["tmp"; "a"]%string) (sample_locate "/tmp/a") = None)
  /\ (0%Z = 1%Z ->
      map fst (delete (st_fs sample_state) ["tmp"; "a"]%string)
      = map fst (st_fs sample_state)
      /\ filter is_remove
           [EvOpen ["tmp"; "a"]%string;
            EvWrite ["tmp"; "a"]%string 0 (repeat x00 5);
            EvFlush ["tmp"; "a"]%string;
            EvRemove ["tmp"; "a"]%string;
            EvStdout "Wiped and deleted successfully"] = [])
  /\ (0%Z = 2%Z ->
      {| st_fs := delete (st_fs sample_state) ["tmp"; "a"]%string;
         st_entropy := S (st_entropy sample_state) |} = sample_state).
Proof.
  apply (main_wipe_exit_status sample_locate sample_env 9 "/tmp/a" []
           sample_state
           {| st_fs := delete (st_fs sample_state) ["tmp"; "a"]%string;
              st_entropy := S (st_entropy sample_state) |}
           0%Z
           [EvOpen ["tmp"; "a"]%string;
            EvWrite ["tmp"; "a"]%string 0 (repeat x00 5);
            EvFlush ["tmp"; "a"]%string;
            EvRemove ["tmp"; "a"]%string;
            EvStdout "Wiped and deleted successfully"]).
  vm_compute. reflexivity.
Defined.

Lemma wipe_directory_unconfirmed (E : env) (fuel : nat) (d : path)
  (opt : WipeOptions) (st : state) :
  exists msg, wipe_directory E fuel d opt false false st = Some (failure msg, st, []).
Proof.
  unfold wipe_directory.
  destruct (fs_exists E st d) as [found ec].
  destruct (negb found || is_set ec); [eexists; reflexivity|].
  destruct (fs_is_directory E st d) as [isd ec'].
  destruct (negb isd || is_set ec'); [eexists; reflexivity|].
  destruct (is_dangerous_dir E d); eexists; reflexivity.
Qed.

Lemma fs_file_size_below (E : env) (st : state) (p : path) (fuel : nat) :
  sizes_below fuel (st_fs st) ->
  snd (fs_file_size E st p) = None ->
  (N.to_nat (fst (fs_file_size E st p)) < fuel)%nat.
Proof.
  intros Hsizes. unfold fs_file_size.
  destruct (e_fault E OpFileSize p); [discriminate|].
  destruct (follow E symloop_max (st_fs st) p) as [e|[[f [data|r|t]]|]] eqn:Hfollow;
    try discriminate.
  intros _. simpl. rewrite Nat2N.id.
  destruct (follow_lookup E (st_fs st) symloop_max p f (File data) Hfollow)
    as (Hlook & _).
  exact (sizes_below_lookup fuel (st_fs st) f data Hsizes Hlook).
Qed.

Lemma wipe_directory_total (E : env) (fuel : nat) (d : path) (opt : WipeOptions)
  (dry_run yes : bool) (st : state) :
  (1 <= block_size opt)%N ->
  (passes opt < INT_MAX)%Z ->
  NoDup (map fst (st_fs st)) ->
  sizes_below fuel (st_fs st) ->
  exists r st' tr, wipe_directory E fuel d opt dry_run yes st = Some (r, st', tr).
Proof.
  intros Hblock Hint Hnodup Hsizes. unfold wipe_directory.
  destruct (fs_exists E st d) as [found ec].
  destruct (negb found || is_set ec); [do 3 eexists; reflexivity|].
  destruct (fs_is_directory E st d) as [isd ec'].
  destruct (negb isd || is_set ec'); [do 3 eexists; reflexivity|].
  destruct (is_dangerous_dir E d); [do 3 eexists; reflexivity|].
  destruct (negb dry_run && negb yes); [do 3 eexists; reflexivity|].
  destruct (enumerate_files E dry_run st (recursive_directory_iterator E st d) 0)
    as [total_files tr1].
  destruct dry_run; [do 3 eexists; reflexivity|].
  destruct (execute_wipe_total E fuel opt Hblock Hint
              (recursive_directory_iterator E st d) st 0%N 0%N
              (recursive_directory_iterator_NoDup E st d Hnodup)
              (fun q data _ Hlook => sizes_below_lookup fuel (st_fs st) q data Hsizes Hlook))
    as (w & f & st1 & tr2 & Hrun).
  rewrite Hrun.
  destruct (remove_dirs E st1
              (rev (collect_dirs E st1 (recursive_directory_iterator E st1 d))))
    as [st2 tr3].
  do 3 eexists; reflexivity.
Qed.

(** X19. The options are read from left to right, each on its own, and a
    later [--passes] or [--pattern] overrides what came before it: after
    options read without an error, a closing [--passes v] sets the number
    of passes to the number [v] is read as and a closing [--pattern] sets
    the pattern, and nothing else changes.  No option changes the block
    size. *)
Theorem parse_options_later_wins (pre : list string) (opt : WipeOptions)
  (d y : bool) (opt1 : WipeOptions) (d1 y1 : bool) :
  parse_options pre opt d y = Parsed opt1 d1 y1 ->
  (forall v n, stoi v = Some n ->
     parse_options (pre ++ ["--passes"; v]%string) opt d y
     = Parsed {| passes := n; pattern := pattern opt1; block_size := block_size opt |}
         d1 y1)
  /\ parse_options (pre ++ ["--pattern"; "zeros"]%string) opt d y
     = Parsed {| passes := passes opt1; pattern := Zeros; block_size := block_size opt |}
         d1 y1
  /\ parse_options (pre ++ ["--pattern"; "random"]%string) opt d y
     = Parsed {| passes := passes opt1; pattern := Random; block_size := block_size opt |}
         d1 y1.
Proof.
  intros Hpre.
  rewrite <- (parse_options_block_size pre opt d y opt1 d1 y1 Hpre).
  split; [|split].
  - intros v n Hv.
    rewrite (parse_options_app pre ["--passes"; v]%string opt d y opt1 d1 y1 Hpre).
    rewrite parse_options_cons. change (String.eqb "--passes" "--passes") with true.
    cbv beta iota. rewrite Hv. reflexivity.
  - rewrite (parse_options_app pre ["--pattern"; "zeros"]%string opt d y opt1 d1 y1 Hpre).
    reflexivity.
  - rewrite (parse_options_app pre ["--pattern"; "random"]%string opt d y opt1 d1 y1 Hpre).
    reflexivity.
Qed.

Lemma parse_options_later_wins_witness :
  (forall v n, stoi v = Some n ->
     parse_options (["--passes"; "7"; "--yes"; "--pattern"; "random"]%string ++ ["--passes"; v]%string)
       default_options false false
     = Parsed {| passes := n; pattern := pattern random_options;
                 block_size := block_size default_options |} false true)
  /\ parse_options
       (["--passes"; "7"; "--yes"; "--pattern"; "random"]%string ++ ["--pattern"; "zeros"]%string)
       default_options false false
     = Parsed {| passes := passes {| passes := 7; pattern := Random;
                                     block_size := 2 ^ 20 |};
                 pattern := Zeros; block_size := block_size default_options |}
         false true
  /\ parse_options
       (["--passes"; "7"; "--yes"; "--pattern"; "random"]%string ++ ["--pattern"; "random"]%string)
       default_options false false
     = Parsed {| passes := passes {| passes := 7; pattern := Random;
                                     block_size := 2 ^ 20 |};
                 pattern := Random; block_size := block_size default_options |}
         false true.
Proof.
  apply (parse_options_later_wins
           ["--passes"; "7"; "--yes"; "--pattern"; "random"]%string
           default_options false false
           {| passes := 7; pattern := Random; block_size := 2 ^ 20 |} false true).
  reflexivity.
Defined.

(** X20. [wipe-dir] changes nothing unless [--dry-run] or [--yes] is among
    its options: without them [main] always returns, never with 0, having
    done no more than print, and the world is as it was. *)
Theorem main_wipe_dir_needs_flag (locate : string -> path) (E : env) (fuel : nat)
  (p : string) (options : list string) (st : state) :
  ~ In "--dry-run"%string options ->
  ~ In "--yes"%string options ->
  exists x tr,
    main locate E fuel ("wipe-dir"%string :: p :: options) st = Some (x, st, tr)
    /\ x <> Exit 0
    /\ forallb is_output tr = true.
Proof.
  intros Hdry Hyes. rewrite main_wipe_dir.
  destruct (parse_options options default_options false false)
    as [opt dry_run yes|utr|] eqn:Hparse.
  - destruct (parse_options_no_flags options Hdry Hyes _ _ _ _ _ _ Hparse) as (-> & ->).
    destruct (wipe_directory_unconfirmed E fuel (locate p) opt st) as (msg & ->).
    simpl. do 2 eexists. split; [reflexivity|]. split; [discriminate|reflexivity].
  - destruct (parse_options_error options default_options false false utr Hparse)
      as (line & ->).
    do 2 eexists. split; [reflexivity|]. split; [discriminate|reflexivity].
  - do 2 eexists. split; [reflexivity|]. split; [discriminate|reflexivity].
Qed.

Lemma main_wipe_dir_needs_flag_witness :
  exists x tr,
    main sample_locate sample_env 9
      ["wipe-dir"; "/tmp"; "--passes"; "3"; "--pattern"; "random"]%string sample_state
    = Some (x, sample_state, tr)
    /\ x <> Exit 0
    /\ forallb is_output tr = true.
Proof.
  apply (main_wipe_dir_needs_flag sample_locate sample_env 9 "/tmp"
           ["--passes"; "3"; "--pattern"; "random"]%string sample_state).
  - simpl. intros [H|[H|[H|[H|[]]]]]; discriminate H.
  - simpl. intros [H|[H|[H|[H|[]]]]]; discriminate H.
Defined.

(** X21. From the command line the block size is always the default of
    1 MiB, so the chunk loop of [wipe_file] always moves on: whatever the
    command, when the options give fewer than [INT_MAX] passes, no two
    entries of the file system have the same path and there is fuel
    beyond the size of every file, [main] comes to an end. *)
Theorem main_returns (locate : string -> path) (E : env) (fuel : nat)
  (cmd p : string) (options : list string) (st : state)
  (opt : WipeOptions) (d y : bool) :
  parse_options options default_options false false = Parsed opt d y ->
  (passes opt < INT_MAX)%Z ->
  NoDup (map fst (st_fs st)) ->
  sizes_below fuel (st_fs st) ->
  block_size opt = (2 ^ 20)%N
  /\ exists x st' tr,
       main locate E fuel (cmd :: p :: options) st = Some (x, st', tr).
Proof.
  intros Hparse Hint Hnodup Hsizes.
  assert (Hblock : block_size opt = (2 ^ 20)%N).
  { exact (parse_options_block_size options default_options false false opt d y Hparse). }
  split; [exact Hblock|].
  assert (Hone : (1 <= block_size opt)%N) by (rewrite Hblock; discriminate).
  unfold main.
  destruct (String.eqb cmd "--help" || String.eqb cmd "-h"); [do 3 eexists; reflexivity|].
  destruct (String.eqb cmd "wipe" || String.eqb cmd "wipe-dir");
    [|do 3 eexists; reflexivity].
  rewrite Hparse.
  destruct (String.eqb cmd "wipe").
  - destruct (wipe_file_total E (locate p) opt st fuel Hone Hint
                (fs_file_size_below E st (locate p) fuel Hsizes))
      as (r & st' & tr & ->).
    destruct (negb (ok r)); do 3 eexists; reflexivity.
  - destruct (wipe_directory_total E fuel (locate p) opt d y st Hone Hint Hnodup Hsizes)
      as (r & st' & tr & ->).
    destruct (negb (ok r)); do 3 eexists; reflexivity.
Qed.

Lemma main_returns_witness :
  block_size {| passes := 3; pattern := Zeros; block_size := 2 ^ 20 |} = (2 ^ 20)%N
  /\ exists x st' tr,
       main sample_locate sample_env 6
         ["wipe-dir"; "/tmp"; "--yes"; "--passes"; "3"]%string sample_state
       = Some (x, st', tr).
Proof.
  apply (main_returns sample_locate sample_env 6 "wipe-dir" "/tmp"
           ["--yes"; "--passes"; "3"]%string sample_state
           {| passes := 3; pattern := Zeros; block_size := 2 ^ 20 |} false true).
  - reflexivity.
  - reflexivity.
  - exact sample_state_NoDup.
  - exact sample_state_sizes.
Defined.
